(** * Code-review orchestration pipeline: a shallow embedding

    The development embeds [src/services/reviewService.ts] (the orchestrator,
    the heuristic analyzer and the result aggregator) and
    [src/services/aiService.ts] (the remote review client) and proves, or
    refutes at concrete inputs, the properties the specification states
    about them.

    Conventions.
    - A JavaScript string is a sequence of UTF-16 code units: [jsstring] is
      [list N].  Source literals are written [js "..."]; [js] decodes the
      UTF-8 bytes of the Rocq literal into code units.
    - [async]/[await] is sequential in both services; a computation is a
      function from the session state to an outcome and a new state.
    - [GitService] (the document that follows the export service in
      [exportService.ts]) fetches the repository before a session reads a
      file.  A session sees its three operations through their outcomes,
      the fields of the record [GitService]; the requests they send and
      the time they take are not part of the session state, whose clock
      and requests are those of the review client.  The network of the
      review client ([fetch]) is a parameter as well.
    - The parts of the JavaScript engine that involve IEEE doubles or the
      JSON text format ([JSON.parse], [JSON.stringify], number conversions)
      are the fields of the class [JsEngine]; every theorem holds for every
      engine. *)

From Stdlib Require Import String Ascii.
From stdpp Require Import base numbers option list gmap.

Open Scope N_scope.
Open Scope nat_scope.
Open Scope list_scope.

(** ** JavaScript strings *)

Abbreviation jsstring := (list N).

Module JsString.

(** Code units of a Rocq literal, read as UTF-8. *)
Fixpoint bytes_of_string (s : string) : list N :=
  match s with
  | EmptyString => []
  | String c r => N_of_ascii c :: bytes_of_string r
  end.

Definition cont (b : N) : N := (b mod 64)%N.

Definition surrogates (cp : N) : list N :=
  if (cp <? 65536)%N then [cp]
  else let v := (cp - 65536)%N in
       [(55296 + v / 1024)%N; (56320 + v mod 1024)%N].

Fixpoint utf16_of_utf8 (bs : list N) : list N :=
  match bs with
  | [] => []
  | b0 :: r0 =>
      if (b0 <? 128)%N then b0 :: utf16_of_utf8 r0
      else if (b0 <? 224)%N then
        match r0 with
        | b1 :: r1 => ((b0 mod 32) * 64 + cont b1)%N :: utf16_of_utf8 r1
        | [] => []
        end
      else if (b0 <? 240)%N then
        match r0 with
        | b1 :: b2 :: r2 =>
            ((b0 mod 16) * 4096 + cont b1 * 64 + cont b2)%N :: utf16_of_utf8 r2
        | _ => []
        end
      else
        match r0 with
        | b1 :: b2 :: b3 :: r3 =>
            surrogates ((b0 mod 8) * 262144 + cont b1 * 4096 + cont b2 * 64 + cont b3)%N
              ++ utf16_of_utf8 r3
        | _ => []
        end
  end.

Definition js (s : string) : jsstring := utf16_of_utf8 (bytes_of_string s).

Definition LF : N := 10%N.
Definition STAR : N := 42%N.

(** [WhiteSpace] and [LineTerminator] of ECMAScript: what [trim] strips and
    what [\s] matches. *)
Definition isWhiteSpace (c : N) : bool :=
  ((9 <=? c) && (c <=? 13) || (c =? 32) || (c =? 160) || (c =? 5760)
   || (8192 <=? c) && (c <=? 8202) || (c =? 8232) || (c =? 8233)
   || (c =? 8239) || (c =? 8287) || (c =? 12288) || (c =? 65279))%N.

Definition isDigit (c : N) : bool := ((48 <=? c) && (c <=? 57))%N.
Definition isUpper (c : N) : bool := ((65 <=? c) && (c <=? 90))%N.
Definition isLower (c : N) : bool := ((97 <=? c) && (c <=? 122))%N.

(** [\w] *)
Definition isWord (c : N) : bool :=
  isDigit c || isUpper c || isLower c || (c =? 95)%N.

(** Case folding of one unit under the [i] flag of a regular expression
    without the [u] flag: only the ASCII letters fold onto ASCII letters. *)
Definition lowerUnit (c : N) : N := if isUpper c then (c + 32)%N else c.

(** [String.prototype.toLowerCase].  The results are only ever compared
    with ASCII text ([todo], [fixme], [console.], the file extensions), so
    what matters is which units become ASCII: the upper-case ASCII letters,
    U+212A (to [k]) and U+0130 (to [i] followed by U+0307).  Every other
    unit outside ASCII is mapped by the engine to units outside ASCII and
    is left as it is here. *)
Definition lowerUnits (c : N) : jsstring :=
  if isUpper c then [(c + 32)%N]
  else if (c =? 8490)%N then [107%N]
  else if (c =? 304)%N then [105%N; 775%N]
  else [c].
Definition toLowerCase (s : jsstring) : jsstring := flat_map lowerUnits s.

Fixpoint startsWith (p s : jsstring) : bool :=
  match p, s with
  | [], _ => true
  | a :: p', b :: s' => (a =? b)%N && startsWith p' s'
  | _ :: _, [] => false
  end.

(** [s.includes(p)] *)
Fixpoint includes (p s : jsstring) : bool :=
  startsWith p s ||
  match s with
  | [] => false
  | _ :: s' => includes p s'
  end.

(** [s.endsWith(c)] for a one-unit string [c] *)
Definition endsWithUnit (c : N) (s : jsstring) : bool :=
  match last s with
  | Some d => (c =? d)%N
  | None => false
  end.

Fixpoint dropWhile (p : N -> bool) (s : jsstring) : jsstring :=
  match s with
  | [] => []
  | c :: r => if p c then dropWhile p r else s
  end.

(** [s.trim()] *)
Definition trimStart (s : jsstring) : jsstring := dropWhile isWhiteSpace s.
Definition trimEnd (s : jsstring) : jsstring := reverse (dropWhile isWhiteSpace (reverse s)).
Definition trim (s : jsstring) : jsstring := trimEnd (trimStart s).

(** [s.split('\n')]: never empty; the pieces do not contain the separator. *)
Fixpoint split (sep : N) (s : jsstring) : list jsstring :=
  match s with
  | [] => [[]]
  | c :: r =>
      if (c =? sep)%N then [] :: split sep r
      else match split sep r with
           | l :: ls => (c :: l) :: ls
           | [] => [[c]]
           end
  end.

(** [s.indexOf(c)] and [s.lastIndexOf(c)] for a one-unit string; [None] is -1. *)
Fixpoint indexOf (c : N) (s : jsstring) : option nat :=
  match s with
  | [] => None
  | d :: r => if (c =? d)%N then Some 0 else S <$> indexOf c r
  end.

Fixpoint lastIndexOf (c : N) (s : jsstring) : option nat :=
  match s with
  | [] => None
  | d :: r =>
      match lastIndexOf c r with
      | Some i => Some (S i)
      | None => if (c =? d)%N then Some 0 else None
      end
  end.

(** [l.slice(a, b)] and [s.substring(a, b)] for [0 <= a <= b]; both clamp
    [b] to the length. *)
Definition slice {A} (a b : nat) (l : list A) : list A := take (b - a) (drop a l).

(** [l.slice(-k)]: the last [k] elements, all of them when there are fewer. *)
Definition sliceLast {A} (k : nat) (l : list A) : list A := drop (length l - k) l.

(** Decimal rendering of a non-negative integer: [`${n}`]. *)
Fixpoint digits (fuel n : nat) (acc : jsstring) : jsstring :=
  match fuel with
  | 0 => acc
  | S f =>
      let acc' := (48 + N.of_nat (n mod 10))%N :: acc in
      if n <? 10 then acc' else digits f (n / 10) acc'
  end.
Definition decimal (n : nat) : jsstring := digits (S n) n [].

End JsString.

Import JsString.

(** ** The JavaScript engine

    A value produced by [JSON.parse]; [undefined] is [None] of
    [option JSValue] wherever a property may be absent. *)

#[local] Unset Elimination Schemes.
Inductive JSValue (num : Type) : Type :=
| JNull
| JBool (b : bool)
| JNum (n : num)
| JStr (s : jsstring)
| JArr (elems : list (JSValue num))
| JObj (props : list (jsstring * JSValue num)).
#[local] Set Elimination Schemes.

Arguments JNull {num}.
Arguments JBool {num} b.
Arguments JNum {num} n.
Arguments JStr {num} s.
Arguments JArr {num} elems.
Arguments JObj {num} props.

(** The result of an operation that may throw; the payload of [Throw] is the
    [message] of the [Error] thrown. *)
Inductive Outcome (A : Type) : Type :=
| Ok (a : A)
| Throw (msg : jsstring).
Arguments Ok {A} a.
Arguments Throw {A} msg.

(** What the services need from the engine beyond strings and arrays.
    [JsNumber] is the type of IEEE doubles; [JSON_parse] throws the engine's
    [SyntaxError]; [notAFunction e] is the message of the [TypeError] for a
    call of [e] when [e] is not callable; [inheritedText name] is how the
    property [name] of [Object.prototype] prints in a template literal. *)
Class JsEngine := {
  JsNumber : Type;
  ofNat : nat -> JsNumber;
  NaN : JsNumber;
  numberTruthy : JsNumber -> bool;
  StringToNumber : jsstring -> JsNumber;
  NumberToString : JsNumber -> jsstring;
  JSON_parse : jsstring -> Outcome (JSValue JsNumber);
  notAFunction : jsstring -> jsstring;
  inheritedText : jsstring -> jsstring;
  JSON_stringify : JSValue JsNumber -> jsstring;
  NaN_falsy : numberTruthy NaN = false
}.

Abbreviation Value := (JSValue JsNumber).

(** ** Data model ([aiService.ts], lines 1-25; [reviewService.ts], lines 6-32) *)

Inductive IssueType := TypeError_ | TypeWarning | TypeInfo | TypeStyle.
Inductive IssueCategory :=
| Security | Performance | Maintainability | Readability | BestPractices.

Definition typeName (t : IssueType) : jsstring :=
  match t with
  | TypeError_ => js "error"
  | TypeWarning => js "warning"
  | TypeInfo => js "info"
  | TypeStyle => js "style"
  end.

Definition categoryName (c : IssueCategory) : jsstring :=
  match c with
  | Security => js "security"
  | Performance => js "performance"
  | Maintainability => js "maintainability"
  | Readability => js "readability"
  | BestPractices => js "best-practices"
  end.

Inductive LogLevel := LogInfo | LogWarning | LogError.

Record AIModel := {
  model_id : jsstring;
  model_name : jsstring;
  provider : jsstring;
  description : jsstring;
  maxTokens : nat;
  supported : bool
}.

Section DataModel.
Context {engine : JsEngine}.

Record CodeIssue := {
  line : JsNumber;
  column : option JsNumber;
  type : IssueType;
  category : IssueCategory;
  message : jsstring;
  suggestion : jsstring;
  code : jsstring;
  context : list jsstring
}.

Record CodeReview := {
  file : jsstring;
  issues : list CodeIssue;
  summary : jsstring
}.

Record ReviewSummary := {
  totalFiles : nat;
  totalIssues : nat;
  issuesByType : gmap jsstring nat;
  issuesByCategory : gmap jsstring nat;
  filesWithIssues : nat
}.

(** [ReviewResult]; its [summary] field is [resultSummary] here, the name
    [summary] being taken by [CodeReview].  Dates are milliseconds. *)
Record ReviewResult := {
  id : jsstring;
  repository : jsstring;
  branch : jsstring;
  standards : jsstring;
  reviews : list CodeReview;
  resultSummary : ReviewSummary;
  startTime : nat;
  endTime : option nat;
  duration : option nat
}.

(** One call of the log callbacks: [emitLog(level, message, details)].
    [details] is declared a string; the value the callbacks receive is
    kept as it is at run time. *)
Record LogEvent := {
  level : LogLevel;
  logMessage : jsstring;
  details : option (JSValue JsNumber)
}.
End DataModel.

Arguments CodeIssue {engine}.
Arguments CodeReview {engine}.
Arguments ReviewResult {engine}.
Arguments LogEvent {engine}.

Inductive Status := Idle | Cloning | Analyzing | Completed | StatusError.

Module Progress.
Record ReviewProgress := {
  totalFiles : nat;
  processedFiles : nat;
  currentFile : jsstring;
  status : Status;
  error : option jsstring
}.
End Progress.
Export Progress (ReviewProgress).


(** ** Heuristic analyzer ([reviewService.ts], lines 233-328) *)

Module Regex.

(** Building blocks for the patterns of the two services.  Every pattern
    below is a sequence of literals and greedy runs over a class whose
    complement contains the first unit of what follows the run, so the
    engine never backtracks into a run and the greedy reading is the only
    one. *)

Definition lit (p : jsstring) (s : jsstring) : option jsstring :=
  if startsWith p s then Some (drop (length p) s) else None.

Definition star (p : N -> bool) (s : jsstring) : option jsstring :=
  Some (dropWhile p s).

Definition plus (p : N -> bool) (s : jsstring) : option jsstring :=
  match s with
  | c :: r => if p c then Some (dropWhile p r) else None
  | [] => None
  end.

Definition seq (a b : jsstring -> option jsstring) (s : jsstring) : option jsstring :=
  match a s with
  | Some r => b r
  | None => None
  end.

Definition alt (a b : jsstring -> option jsstring) (s : jsstring) : option jsstring :=
  match a s with
  | Some r => Some r
  | None => b s
  end.

Fixpoint seqs (ps : list (jsstring -> option jsstring)) (s : jsstring) : option jsstring :=
  match ps with
  | [] => Some s
  | p :: ps' => seq p (seqs ps') s
  end.

Definition unit_ (c : N) : N -> bool := fun d => (c =? d)%N.
Definition notUnit (c : N) : N -> bool := fun d => negb (c =? d)%N.

(** [/function\s+\w+|const\s+\w+\s*=\s*\([^)]*\)\s*=>|class\s+\w+/] anchored
    at the head of [s]; the result is what follows the match. *)
Definition definitionAt : jsstring -> option jsstring :=
  alt (seqs [lit (js "function"); plus isWhiteSpace; plus isWord])
 (alt (seqs [lit (js "const"); plus isWhiteSpace; plus isWord; star isWhiteSpace;
             lit (js "="); star isWhiteSpace; lit (js "("); star (notUnit 41);
             lit (js ")"); star isWhiteSpace; lit (js "=>")])
      (seqs [lit (js "class"); plus isWhiteSpace; plus isWord])).

(** Number of matches of a global regex whose matches are never empty:
    [s.match(rx)?.length ?? 0].  [skip] counts the units of the current
    match still to be passed over. *)
Fixpoint countMatches (at_ : jsstring -> option jsstring) (skip : nat) (s : jsstring) : nat :=
  match s with
  | [] => 0
  | _ :: r =>
      match skip with
      | S k => countMatches at_ k r
      | 0 =>
          match at_ s with
          | Some rest => S (countMatches at_ (length s - length rest - 1) r)
          | None => countMatches at_ 0 r
          end
      end
  end.

End Regex.

Section Heuristics.
Context {engine : JsEngine}.

(** [getContextLines(lines, lineIndex, contextSize = 2)] *)
Definition getContextLines (lines : list jsstring) (lineIndex : nat) : list jsstring :=
  let contextSize := 2 in
  let start := Nat.max 0 (lineIndex - contextSize) in
  let end_ := Nat.min (length lines) (lineIndex + contextSize + 1) in
  slice start end_ lines.

Definition trailingWhitespace (lines : list jsstring) (index : nat) (l : jsstring) : list CodeIssue :=
  if endsWithUnit 32 l || endsWithUnit 9 l then
    [{| line := ofNat (index + 1); column := None;
        type := TypeStyle; category := Maintainability;
        message := js "行尾存在多余空格或制表符";
        suggestion := js "删除行尾的空格和制表符";
        code := l; context := getContextLines lines index |}]
  else [].

Definition longLine (lines : list jsstring) (index : nat) (l : jsstring) : list CodeIssue :=
  if 120 <? length l then
    [{| line := ofNat (index + 1); column := None;
        type := TypeWarning; category := Readability;
        message := js "代码行过长，建议不超过120个字符";
        suggestion := js "将长行拆分为多行，提高可读性";
        code := l; context := getContextLines lines index |}]
  else [].

Definition todoComment (lines : list jsstring) (index : nat) (l : jsstring) : list CodeIssue :=
  if includes (js "todo") (toLowerCase l) || includes (js "fixme") (toLowerCase l) then
    [{| line := ofNat (index + 1); column := None;
        type := TypeInfo; category := Maintainability;
        message := js "存在TODO/FIXME注释";
        suggestion := js "及时处理TODO事项或创建任务跟踪";
        code := l; context := getContextLines lines index |}]
  else [].

Definition consoleStatement (lines : list jsstring) (index : nat) (l : jsstring) : list CodeIssue :=
  if includes (js "console.") (toLowerCase l) && negb (includes (js "//") l) then
    [{| line := ofNat (index + 1); column := None;
        type := TypeWarning; category := BestPractices;
        message := js "代码中包含console语句";
        suggestion := js "生产代码中应移除调试用的console语句";
        code := l; context := getContextLines lines index |}]
  else [].

(** The body of [lines.forEach((line, index) => ...)]. *)
Definition checkLine (lines : list jsstring) (index : nat) (l : jsstring) : list CodeIssue :=
  trailingWhitespace lines index l ++ longLine lines index l
    ++ todoComment lines index l ++ consoleStatement lines index l.

(** [lines.forEach] from position [index] on; [rest] is [lines.slice(index)]. *)
Fixpoint forEachLine (lines : list jsstring) (index : nat) (rest : list jsstring) : list CodeIssue :=
  match rest with
  | [] => []
  | l :: rest' => checkLine lines index l ++ forEachLine lines (S index) rest'
  end.

Definition missingFinalNewline (content : jsstring) (lines : list jsstring) : list CodeIssue :=
  if (0 <? length content) && negb (endsWithUnit LF content) then
    [{| line := ofNat (length lines); column := None;
        type := TypeStyle; category := Maintainability;
        message := js "文件末尾缺少空行";
        suggestion := js "在文件末尾添加一个空行";
        code := default [] (last lines);
        context := sliceLast 2 lines |}]
  else [].

Definition tooManyDefinitions (content : jsstring) (lines : list jsstring) : list CodeIssue :=
  if 10 <? Regex.countMatches Regex.definitionAt 0 content then
    [{| line := ofNat 1; column := None;
        type := TypeWarning; category := Maintainability;
        message := js "文件中定义了过多的函数/类";
        suggestion := js "考虑将代码拆分到多个文件中，每个文件专注一个功能";
        code := default [] (head lines);
        context := slice 0 3 lines |}]
  else [].

Definition performBasicCodeCheck (filePath content language : jsstring) : list CodeIssue :=
  let lines := split LF content in
  forEachLine lines 0 lines
    ++ missingFinalNewline content lines
    ++ tooManyDefinitions content lines.

End Heuristics.

(** ** Remote review client ([aiService.ts]) *)

(** *** Secret redaction, lines 126-137 *)

Module Mask.

Definition MASK : jsstring := [STAR; STAR; STAR].

(** A lookbehind assertion is a predicate on the text before the current
    position, given nearest unit first.  The combinators read that text
    away from the position; [k] is what remains of the assertion. *)
Definition Behind := jsstring -> bool.

Definition accept : Behind := fun _ => true.
Definition skip (p : N -> bool) (k : Behind) : Behind := fun s => k (dropWhile p s).
Definition one (p : N -> bool) (k : Behind) : Behind :=
  fun s => match s with
           | c :: r => p c && k r
           | [] => false
           end.
Definition maybe (p : N -> bool) (k : Behind) : Behind :=
  fun s => match s with
           | c :: r => if p c then k r else k s
           | [] => k []
           end.

(** One unit of a literal under the [i] flag; [a] is a lower-case ASCII
    unit.  Without the [u] flag no unit outside ASCII is canonicalized to
    an ASCII one, so only the two cases of [a] match. *)
Definition sameLetter (a : N) : N -> bool := fun c => (lowerUnit c =? a)%N.

Fixpoint wordBack (w : jsstring) (k : Behind) : Behind :=
  match w with
  | [] => k
  | a :: w' => one (sameLetter a) (wordBack w' k)
  end.

(** [w] read right to left *)
Definition word (w : jsstring) : Behind -> Behind := wordBack (rev w).

Definition isAssign (c : N) : bool := ((c =? 58) || (c =? 61))%N.      (* [:=] *)
Definition isJoiner (c : N) : bool := ((c =? 95) || (c =? 45))%N.      (* [_-] *)
Definition isQuote (c : N) : bool := ((c =? 34) || (c =? 39))%N.       (* both quote marks *)

(** The lookbehind group: KEY, white space if any, a colon or an equals
    sign, white space if any. *)
Definition assigned (key : Behind -> Behind) : Behind :=
  skip isWhiteSpace (one isAssign (skip isWhiteSpace (key accept))).

Definition afterAccessKey : Behind :=
  assigned (fun k => word (js "key") (maybe isJoiner (word (js "access") k))).
Definition afterSecretKey : Behind :=
  assigned (fun k => word (js "key") (maybe isJoiner (word (js "secret") k))).
Definition afterToken : Behind := assigned (word (js "token")).
Definition afterPassword : Behind := assigned (word (js "password")).

Definition keyUnit (c : N) : bool := isWord c || (c =? 45)%N.          (* [A-Za-z0-9_\-] *)
Definition tokenUnit (c : N) : bool := keyUnit c || (c =? 46)%N.       (* [A-Za-z0-9\._\-] *)
Definition passwordUnit (c : N) : bool := negb (isWhiteSpace c || isQuote c). (* neither [\s] nor a quote mark *)

(** [text.replace(/(?<=B)[C]+/g, '***')] from a position on: [before] is
    the text left of [s], nearest unit first; [inMatch] tells that the unit
    left of [s] belongs to a match whose mask is already written.  A match
    starts where [B] holds and a unit of [C] follows, and runs as far as
    [C] goes. *)
Fixpoint replaceBehind (site : Behind) (cls : N -> bool)
         (before : jsstring) (inMatch : bool) (s : jsstring) : jsstring :=
  match s with
  | [] => []
  | c :: r =>
      if cls c then
        if inMatch then replaceBehind site cls (c :: before) true r
        else if site before then MASK ++ replaceBehind site cls (c :: before) true r
        else c :: replaceBehind site cls (c :: before) false r
      else c :: replaceBehind site cls (c :: before) false r
  end.

Definition isKeyIdUnit (c : N) : bool := isDigit c || isUpper c.        (* [0-9A-Z] *)

(** A sequence of one-unit classes anchored at the head of [s]. *)
Fixpoint matchUnits (ps : list (N -> bool)) (s : jsstring) : bool :=
  match ps, s with
  | [], _ => true
  | p :: ps', c :: r => p c && matchUnits ps' r
  | _ :: _, [] => false
  end.

(** [/AKIA[0-9A-Z]{16}/] *)
Definition keyIdPattern : list (N -> bool) :=
  map (fun a c => (c =? a)%N) (js "AKIA") ++ replicate 16 isKeyIdUnit.

Definition keyIdAt (s : jsstring) : bool := matchUnits keyIdPattern s.

(** [text.replace(/AKIA[0-9A-Z]{16}/g, '***')]; [skip] counts the units of
    the current match still to be passed over. *)
Fixpoint replaceKeyId (skip : nat) (s : jsstring) : jsstring :=
  match s with
  | [] => []
  | c :: r =>
      match skip with
      | S k => replaceKeyId k r
      | 0 => if keyIdAt s then MASK ++ replaceKeyId 19 r else c :: replaceKeyId 0 r
      end
  end.

Definition patterns : list (jsstring -> jsstring) :=
  [ replaceBehind afterAccessKey keyUnit [] false;
    replaceBehind afterSecretKey keyUnit [] false;
    replaceBehind afterToken tokenUnit [] false;
    replaceBehind afterPassword passwordUnit [] false;
    replaceKeyId 0 ].

(** [patterns.forEach(rx => { masked = masked.replace(rx, '***'); })] *)
Definition maskSensitive (text : jsstring) : jsstring :=
  fold_left (fun masked rx => rx masked) patterns text.

End Mask.

(** *** Conversions of the engine on parsed JSON *)

Section Coercions.
Context {engine : JsEngine}.

(** [v[name]] for an own property of a parsed object; of two members with
    one name the later one is the property. *)
Fixpoint ownProperty (name : jsstring) (props : list (jsstring * Value)) : option Value :=
  match props with
  | [] => None
  | (k, v) :: r =>
      match ownProperty name r with
      | Some w => Some w
      | None => if decide (k = name) then Some v else None
      end
  end.

(** [v.name] on a value that is neither [null] nor [undefined], for a
    name that no prototype defines and that is not an index. *)
Definition get (name : jsstring) (v : Value) : option Value :=
  match v with
  | JObj props => ownProperty name props
  | _ => None
  end.

(** [v[0]] on a value that is neither [null] nor [undefined] *)
Definition getFirst (v : Value) : option Value :=
  match v with
  | JObj props => ownProperty (js "0") props
  | JArr (x :: _) => Some x
  | JStr (c :: _) => Some (JStr [c])
  | _ => None
  end.

(** [v?.name] and [v?.[0]] *)
Definition getOpt (name : jsstring) (v : option Value) : option Value :=
  match v with
  | None | Some JNull => None
  | Some w => get name w
  end.
Definition getFirstOpt (v : option Value) : option Value :=
  match v with
  | None | Some JNull => None
  | Some w => getFirst w
  end.

(** [ToBoolean] *)
Definition truthy (v : option Value) : bool :=
  match v with
  | None | Some JNull => false
  | Some (JBool b) => b
  | Some (JNum n) => numberTruthy n
  | Some (JStr s) => negb (bool_decide (s = []))
  | Some (JArr _) | Some (JObj _) => true
  end.

Definition hasOwn (name : jsstring) (props : list (jsstring * Value)) : bool :=
  bool_decide (is_Some (ownProperty name props)).

(** [String(v)].  A parsed object has no callable own property: with an
    own [toString] neither conversion method yields a primitive and the
    engine throws a [TypeError] ([None]); without one it prints as
    [[object Object]].  An array prints as [join(',')], where [null]
    elements print as the empty string. *)
Fixpoint ToString (v : Value) : option jsstring :=
  match v with
  | JNull => Some (js "null")
  | JBool b => Some (if b then js "true" else js "false")
  | JNum n => Some (NumberToString n)
  | JStr s => Some s
  | JObj props => if hasOwn (js "toString") props then None else Some (js "[object Object]")
  | JArr elems =>
      (fix join (l : list Value) : option jsstring :=
         match l with
         | [] => Some []
         | x :: r =>
             let sx := match x with JNull => Some [] | _ => ToString x end in
             match sx, r with
             | None, _ => None
             | Some a, [] => Some a
             | Some a, _ :: _ =>
                 match join r with
                 | Some b => Some (a ++ js "," ++ b)
                 | None => None
                 end
             end
         end) elems
  end.

(** [Number(v)]; [None] is a [TypeError]. *)
Definition ToNumber (v : option Value) : option JsNumber :=
  match v with
  | None => Some NaN
  | Some JNull => Some (ofNat 0)
  | Some (JBool b) => Some (ofNat (if b then 1 else 0))
  | Some (JNum n) => Some n
  | Some (JStr s) => Some (StringToNumber s)
  | Some w => StringToNumber <$> ToString w
  end.

End Coercions.

(** *** Prompt and response normalization, lines 139-178 *)

Section Normalize.
Context {engine : JsEngine}.

Definition buildPrompt (filePath code language standards : jsstring) : jsstring :=
  let header := js "你是代码审查专家。严格依据以下开发规范进行审查，并只返回JSON：" ++ [LF] in
  let std := slice 0 8000 standards in
  let body := js "文件: " ++ filePath ++ [LF] ++ js "语言: " ++ language ++ [LF]
              ++ js "请输出如下JSON数组，每项为问题：{ line, type, category, message, suggestion, code, context }，且仅返回JSON。" in
  let content := js "规范:" ++ [LF] ++ std ++ [LF] ++ js "---" ++ [LF]
                 ++ js "代码:" ++ [LF] ++ slice 0 15000 code in
  header ++ body ++ [LF] ++ content.

(** [['error','warning','info','style'].includes(v)]: the member that
    [v] is, if any.  [includes] compares with SameValueZero, so only a
    string value can be a member. *)
Definition typeOfValue (v : option Value) : option IssueType :=
  match v with
  | Some (JStr s) => find (fun t => bool_decide (typeName t = s))
                          [TypeError_; TypeWarning; TypeInfo; TypeStyle]
  | _ => None
  end.

Definition categoryOfValue (v : option Value) : option IssueCategory :=
  match v with
  | Some (JStr s) => find (fun c => bool_decide (categoryName c = s))
                          [Security; Performance; Maintainability; Readability; BestPractices]
  | _ => None
  end.

(** [String(v || dflt)] *)
Definition stringOr (dflt : jsstring) (v : option Value) : option jsstring :=
  match v with
  | Some w => if truthy v then ToString w else Some dflt
  | None => Some dflt
  end.

(** The callback of [arr.map], lines 156-165; [None] is a [TypeError]
    (a property read on [null], or a conversion that throws). *)
Definition issueOfValue (x : Value) : option CodeIssue :=
  match x with
  | JNull => None
  | _ =>
      n ← ToNumber (get (js "line") x);
      col ← (if truthy (get (js "column") x)
             then Some <$> ToNumber (get (js "column") x) else Some None);
      msg ← stringOr (js "问题") (get (js "message") x);
      sug ← stringOr [] (get (js "suggestion") x);
      cod ← stringOr [] (get (js "code") x);
      ctx ← match get (js "context") x with
            | Some (JArr elems) => mapM ToString elems
            | _ => Some []
            end;
      Some {| line := if numberTruthy n then n else ofNat 1;
              column := col;
              type := default TypeInfo (typeOfValue (get (js "type") x));
              category := default Maintainability (categoryOfValue (get (js "category") x));
              message := msg; suggestion := sug; code := cod; context := ctx |}
  end.

(** The issue returned when the response is not a JSON array, lines 169-177. *)
Definition unstructured (code_ : jsstring) : CodeIssue :=
  {| line := ofNat 1; column := None;
     type := TypeInfo; category := Readability;
     message := js "AI返回非结构化内容，已记录文本";
     suggestion := js "调整提示词以返回JSON结构";
     code := default [] (head (split LF code_));
     context := slice 0 3 (split LF code_) |}.

(** The body of the [try] block, lines 149-167: [Throw] is an exception
    raised inside it; [Ok None] is falling through to the statement after
    the block.  [text] is whatever the response envelope held; [trim]
    exists on strings only. *)
Definition normalizeTry (text : Value) : Outcome (option (list CodeIssue)) :=
  match text with
  | JStr t =>
      let trimmed := trim t in
      match indexOf 91 trimmed, lastIndexOf 93 trimmed with
      | Some jsonStart, Some jsonEnd =>
          if jsonStart <? jsonEnd then
            let json := slice jsonStart (jsonEnd + 1) trimmed in
            match JSON_parse json with
            | Ok (JArr arr) =>
                match mapM issueOfValue arr with
                | Some l => Ok (Some l)
                | None => Throw (js "TypeError")   (* the text is never read *)
                end
            | Ok _ => Ok None
            | Throw e => Throw e
            end
          else Ok None
      | _, _ => Ok None
      end
  | _ => Throw (notAFunction (js "text.trim"))
  end.

Definition normalizeIssuesFromText (text : Value) (filePath code_ : jsstring) : list CodeIssue :=
  match normalizeTry text with
  | Ok (Some l) => l
  | Ok None | Throw _ => [unstructured code_]
  end.

End Normalize.

(** *** Client state and the session monad *)

Inductive ProviderType := OpenAI | DeepSeek | Anthropic | Moonshot | Doubao.

Record ProviderConfig := {
  ptype : ProviderType;
  urls : list jsstring;
  headerAuth : jsstring;
  minIntervalMs : nat;
  corsSupported : option bool
}.

(** The result of [map[modelId]] on the object literal of
    [getProviderConfig]: one of its five entries, a property that every
    object inherits from [Object.prototype] (a value without any of the
    configuration fields), or [undefined]. *)
Inductive ConfigLookup :=
| Configured (cfg : ProviderConfig)
| Inherited
| Unconfigured.

Definition objectPrototypeNames : list jsstring :=
  [ js "constructor"; js "hasOwnProperty"; js "isPrototypeOf";
    js "propertyIsEnumerable"; js "toLocaleString"; js "toString"; js "valueOf";
    js "__proto__"; js "__defineGetter__"; js "__defineSetter__";
    js "__lookupGetter__"; js "__lookupSetter__" ].

Definition chat (t : ProviderType) (us : list jsstring) : ProviderConfig :=
  {| ptype := t; urls := us; headerAuth := js "Authorization";
     minIntervalMs := 1000; corsSupported := Some false |}.

Definition providerTable : list (jsstring * ProviderConfig) :=
  [ (js "gpt-4", chat OpenAI [js "https://api.openai.com/v1/chat/completions"]);
    (js "deepseek-chat", chat DeepSeek [js "https://api.deepseek.com/v1/chat/completions"]);
    (js "claude-3-sonnet",
      {| ptype := Anthropic; urls := [js "https://api.anthropic.com/v1/messages"];
         headerAuth := js "x-api-key"; minIntervalMs := 1000; corsSupported := Some false |});
    (js "kimi-k2", chat Moonshot [js "https://api.moonshot.cn/v1/chat/completions";
                                   js "https://api.moonshot.ai/v1/chat/completions"]);
    (js "doubao-pro", chat Doubao [js "https://api.doubao.com/v1/chat/completions"]) ].

Definition getProviderConfig (modelId : jsstring) : ConfigLookup :=
  match find (fun e => bool_decide (e.1 = modelId)) providerTable with
  | Some e => Configured e.2
  | None => if bool_decide (modelId ∈ objectPrototypeNames) then Inherited else Unconfigured
  end.

Inductive ConnectionMode := Auto | Direct | Proxy.

Record Stats := {
  success : nat;
  fail : nat;
  lastError : option jsstring
}.

(** The fields of the [AIService] singleton.  The two per-model tables hold
    their own numeric properties. *)
Record AIService := {
  apiKey : jsstring;
  model : option AIModel;
  connectionMode : ConnectionMode;
  proxyUrl : jsstring;
  requestCountByModel : gmap jsstring nat;
  lastRequestAtByModel : gmap jsstring nat;
  warnedProviders : gset jsstring;
  stats : Stats
}.

(** [new AIService()] *)
Definition newAIService : AIService :=
  {| apiKey := []; model := None; connectionMode := Auto; proxyUrl := [];
     requestCountByModel := ∅; lastRequestAtByModel := ∅; warnedProviders := ∅;
     stats := {| success := 0; fail := 0; lastError := None |} |}.

(** A call of [fetch] and what comes back: the promise rejects ([Throw]), or
    resolves to a response whose body can be read ([Ok]) or not. *)
Record Request := {
  url : jsstring;
  headers : list (jsstring * jsstring);
  requestBody : jsstring
}.

Record Response := {
  ok : bool;
  httpStatus : nat;
  responseBody : Outcome jsstring
}.

Record Fetched := {
  response : Outcome Response;
  elapsed : nat
}.

Section Session.
Context {engine : JsEngine}.

(** Everything a review session reads and writes: the two singletons,
    what their subscribers have received so far (oldest first), the
    clock in milliseconds, and the requests sent. *)
Record Session := {
  service : AIService;
  progress : ReviewProgress;
  progressEvents : list ReviewProgress;
  logEvents : list LogEvent;
  clock : nat;
  requests : list Request
}.

Definition M (A : Type) : Type := Session -> Outcome A * Session.

Definition ret {A} (a : A) : M A := fun s => (Ok a, s).
Definition throw {A} (msg : jsstring) : M A := fun s => (Throw msg, s).
Definition bind {A B} (m : M A) (k : A -> M B) : M B :=
  fun s => match m s with
           | (Ok a, s') => k a s'
           | (Throw e, s') => (Throw e, s')
           end.
(** [try { m } catch (e) { h(e.message) }] *)
Definition tryCatch {A} (m : M A) (h : jsstring -> M A) : M A :=
  fun s => match m s with
           | (Ok a, s') => (Ok a, s')
           | (Throw e, s') => h e s'
           end.
Definition gets {A} (f : Session -> A) : M A := fun s => (Ok (f s), s).
Definition modify (f : Session -> Session) : M unit := fun s => (Ok tt, f s).
Definition lift {A} (o : Outcome A) : M A := fun s => (o, s).

Definition setService (f : AIService -> AIService) (s : Session) : Session :=
  {| service := f (service s); progress := progress s;
     progressEvents := progressEvents s; logEvents := logEvents s;
     clock := clock s; requests := requests s |}.

Definition addLog (e : LogEvent) (s : Session) : Session :=
  {| service := service s; progress := progress s;
     progressEvents := progressEvents s; logEvents := logEvents s ++ [e];
     clock := clock s; requests := requests s |}.

Definition setProgress (p : ReviewProgress) (s : Session) : Session :=
  {| service := service s; progress := p;
     progressEvents := progressEvents s ++ [p]; logEvents := logEvents s;
     clock := clock s; requests := requests s |}.

Definition advance (ms : nat) (s : Session) : Session :=
  {| service := service s; progress := progress s;
     progressEvents := progressEvents s; logEvents := logEvents s;
     clock := clock s + ms; requests := requests s |}.

Definition addRequest (r : Request) (s : Session) : Session :=
  {| service := service s; progress := progress s;
     progressEvents := progressEvents s; logEvents := logEvents s;
     clock := clock s; requests := requests s ++ [r] |}.

(** [await new Promise(r => setTimeout(r, ms))] *)
Definition sleep (ms : nat) : M unit := modify (advance ms).

End Session.

Arguments Session {engine}.

Notation "'let*' x ':=' e 'in' k" := (bind e (fun x => k))
  (at level 10, x name, e at level 100, k at level 200).
Notation "e ';;;' k" := (bind e (fun _ => k))
  (at level 100, k at level 200, right associativity).

(** *** [enforceRateLimit] and [reviewCode], lines 113-124 and 208-364 *)

Section Client.
Context {engine : JsEngine}.

(** The network: the answer to the [n]-th request of the session. *)
Variable network : nat -> Request -> Fetched.

(** The optional [log] parameter of [reviewCode]. *)
Definition Logger := option (jsstring -> option Value -> M unit).

Definition logWith (log : Logger) (phase : jsstring) (info : Value) : M unit :=
  match log with
  | Some f => f phase (Some info)
  | None => ret tt
  end.

Definition updateService (f : AIService -> AIService) : M unit := modify (setService f).

Definition fetch (r : Request) : M Response :=
  let* n := gets (fun s => length (requests s)) in
  modify (addRequest r);;;
  modify (advance (elapsed (network n r)));;;
  lift (response (network n r)).

(** [res.text()] and [res.json()] *)
Definition text (res : Response) : M jsstring := lift (responseBody res).
Definition json (res : Response) : M Value :=
  let* t := text res in lift (JSON_parse t).

Definition enforceRateLimit (modelId : jsstring) : M unit :=
  let* now := gets clock in
  let* last := gets (fun s => default 0 (lastRequestAtByModel (service s) !! modelId)) in
  let cfg := getProviderConfig modelId in
  let minInterval :=
    match cfg with
    | Configured c => if minIntervalMs c =? 0 then 500 else minIntervalMs c
    | _ => 500
    end in
  (* [diff = now - last] is negative for a stamp ahead of the clock:
     [diff < minInterval] is [now < last + minInterval], and the pause
     [minInterval - diff] is [last + minInterval - now] *)
  (if now <? last + minInterval then sleep (last + minInterval - now) else ret tt);;;
  let* now' := gets clock in
  updateService (fun a =>
    {| apiKey := apiKey a; model := model a; connectionMode := connectionMode a;
       proxyUrl := proxyUrl a;
       requestCountByModel :=
         <[modelId := default 0 (requestCountByModel a !! modelId) + 1]> (requestCountByModel a);
       lastRequestAtByModel := <[modelId := now']> (lastRequestAtByModel a);
       warnedProviders := warnedProviders a; stats := stats a |}).

Definition warn (modelId : jsstring) : M unit :=
  updateService (fun a =>
    {| apiKey := apiKey a; model := model a; connectionMode := connectionMode a;
       proxyUrl := proxyUrl a; requestCountByModel := requestCountByModel a;
       lastRequestAtByModel := lastRequestAtByModel a;
       warnedProviders := {[modelId]} ∪ warnedProviders a; stats := stats a |}).

Definition setStats (f : Stats -> Stats) : M unit :=
  updateService (fun a =>
    {| apiKey := apiKey a; model := model a; connectionMode := connectionMode a;
       proxyUrl := proxyUrl a; requestCountByModel := requestCountByModel a;
       lastRequestAtByModel := lastRequestAtByModel a;
       warnedProviders := warnedProviders a; stats := f (stats a) |}).

(** [this.stats.success++] *)
Definition countSuccess : M unit :=
  setStats (fun st => {| success := success st + 1; fail := fail st; lastError := lastError st |}).

(** [this.stats.fail++; this.stats.lastError = msg] *)
Definition countFailure (msg : jsstring) : M unit :=
  setStats (fun st => {| success := success st; fail := fail st + 1; lastError := Some msg |}).

Definition str (s : jsstring) : Value := JStr s.
Definition num (n : nat) : Value := JNum (ofNat n).

Definition chatBody (m : AIModel) (prompt : jsstring) : list (jsstring * Value) :=
  [ (js "model", str (model_id m));
    (js "messages",
      JArr [ JObj [(js "role", str (js "system")); (js "content", str (js "你是资深代码审查专家。"))];
             JObj [(js "role", str (js "user")); (js "content", str prompt)] ]);
    (js "temperature", num 0);
    (js "max_tokens", num 2048) ].

(** [{ ...body, messages: elided }]: the property keeps its place. *)
Definition withMessages (elided : Value) (body : list (jsstring * Value)) : list (jsstring * Value) :=
  map (fun kv => if decide (kv.1 = js "messages") then (kv.1, elided) else kv) body.

Definition omitted : Value := str (js "<已省略>").

(** [json?.choices?.[0]?.message?.content || json?.data || JSON.stringify(json)] *)
Definition chatReply (j : Value) : Value :=
  let content := getOpt (js "content") (getOpt (js "message")
                   (getFirstOpt (getOpt (js "choices") (Some j)))) in
  let data := getOpt (js "data") (Some j) in
  if truthy content then default JNull content
  else if truthy data then default JNull data
  else str (JSON_stringify j).

(** [json?.content?.[0]?.text || JSON.stringify(json)] *)
Definition messageReply (j : Value) : Value :=
  let t := getOpt (js "text") (getFirstOpt (getOpt (js "content") (Some j))) in
  if truthy t then default JNull t else str (JSON_stringify j).

(** One turn of the loop of [doDirect], lines 255-277: the reply, or the
    new value of [lastErr]. *)
Definition tryEndpoint (log : Logger) (cfg : ProviderConfig) (key : jsstring)
           (body : list (jsstring * Value)) (u : jsstring) : M (Value + jsstring) :=
  tryCatch
    (logWith log (js "AI请求发送")
       (str (JSON_stringify (JObj
          [ (js "url", str u);
            (js "body", JObj (withMessages
               (JArr [ JObj [(js "role", str (js "system"))];
                       JObj [(js "role", str (js "user")); (js "content", omitted)] ]) body)) ])));;;
     let* res := fetch {| url := u;
                          headers := [ (js "Content-Type", js "application/json");
                                       (headerAuth cfg, js "Bearer " ++ key) ];
                          requestBody := JSON_stringify (JObj body) |} in
     if negb (ok res) then
       let* t := text res in
       logWith log (js "AI请求失败")
         (str (js "status " ++ decimal (httpStatus res) ++ js " · " ++ slice 0 200 t));;;
       ret (inr (js "HTTP " ++ decimal (httpStatus res)))
     else
       let* j := json res in
       ret (inl (chatReply j)))
    (fun e =>
       logWith log (js "AI请求异常") (str e);;;
       ret (inr e)).

(** [doDirect], lines 252-281; [us] is what remains of [cfg.urls]. *)
Fixpoint doDirectFrom (log : Logger) (cfg : ProviderConfig) (key : jsstring)
         (body : list (jsstring * Value)) (lastErr : option jsstring)
         (us : list jsstring) : M Value :=
  match us with
  | [] =>
      match lastErr with
      | Some e => throw e
      | None => ret (str [])
      end
  | u :: rest =>
      let* r := tryEndpoint log cfg key body u in
      match r with
      | inl reply => ret reply
      | inr e => doDirectFrom log cfg key body (Some e) rest
      end
  end.

Definition doDirect (log : Logger) (cfg : ProviderConfig) (key : jsstring)
           (body : list (jsstring * Value)) : M Value :=
  doDirectFrom log cfg key body None (urls cfg).

(** [this.proxyUrl.replace(/\/$/, '')] *)
Definition dropFinalSlash (s : jsstring) : jsstring :=
  if endsWithUnit 47 s then take (length s - 1) s else s.

(** [doProxy], lines 283-299 *)
Definition doProxy (log : Logger) (key : jsstring) (body : list (jsstring * Value)) : M Value :=
  let* proxy := gets (fun s => proxyUrl (service s)) in
  match proxy with
  | [] => throw (js "未配置代理地址")
  | _ =>
      let proxyEndpoint := dropFinalSlash proxy ++ js "/v1/chat/completions" in
      let proxyBody := body ++ [(js "api_key", str key)] in
      logWith log (js "代理请求发送") (str proxyEndpoint);;;
      let* res := fetch {| url := proxyEndpoint;
                           headers := [ (js "Content-Type", js "application/json") ];
                           requestBody := JSON_stringify (JObj proxyBody) |} in
      if negb (ok res) then
        let* t := text res in
        throw (js "代理HTTP " ++ decimal (httpStatus res) ++ js " · " ++ slice 0 200 t)
      else
        let* j := json res in
        ret (chatReply j)
  end.

(** The dispatch on [connectionMode], lines 301-316 *)
Definition dispatchChat (log : Logger) (cfg : ProviderConfig) (key : jsstring)
           (body : list (jsstring * Value)) : M Value :=
  let* mode := gets (fun s => connectionMode (service s)) in
  match mode with
  | Direct => doDirect log cfg key body
  | Proxy => doProxy log key body
  | Auto =>
      tryCatch (doDirect log cfg key body)
        (fun e =>
           let* proxy := gets (fun s => proxyUrl (service s)) in
           match proxy with
           | _ :: _ =>
               logWith log (js "自动切换到代理") (str e);;;
               doProxy log key body
           | [] => throw e
           end)
  end.

(** The message-style branch, lines 317-337 *)
Definition dispatchMessages (log : Logger) (cfg : ProviderConfig) (m : AIModel)
           (key prompt : jsstring) : M Value :=
  let body := [ (js "model", str (model_id m));
                (js "max_tokens", num 2048);
                (js "messages",
                  JArr [ JObj [(js "role", str (js "user")); (js "content", str prompt)] ]) ] in
  let u := default [] (head (urls cfg)) in
  logWith log (js "AI请求发送")
    (str (JSON_stringify (JObj
       [ (js "url", str u);
         (js "body", JObj (withMessages
            (JArr [ JObj [(js "role", str (js "user")); (js "content", omitted)] ]) body)) ])));;;
  let* res := fetch {| url := u;
                       headers := [ (js "Content-Type", js "application/json");
                                    (headerAuth cfg, key) ];
                       requestBody := JSON_stringify (JObj body) |} in
  let* j := json res in
  ret (messageReply j).

Definition isChat (t : ProviderType) : bool :=
  match t with
  | OpenAI | DeepSeek | Moonshot | Doubao => true
  | Anthropic => false
  end.

(** [responseText.slice(0, 1000)]: strings and arrays have [slice]. *)
Definition slice1000 (v : Value) : Outcome Value :=
  match v with
  | JStr t => Ok (JStr (slice 0 1000 t))
  | JArr l => Ok (JArr (slice 0 1000 l))
  | _ => Throw (notAFunction (js "responseText.slice"))
  end.

(** The issue of the [catch] block, lines 352-360 *)
Definition failIssue (code_ : jsstring) : CodeIssue :=
  {| line := ofNat 1; column := None;
     type := TypeError_; category := Maintainability;
     message := js "AI调用失败，使用基础检查替代";
     suggestion := js "检查API密钥、CORS或网络；或稍后重试";
     code := default [] (head (split LF code_));
     context := slice 0 3 (split LF code_) |}.

(** The first half of the [try] block of [reviewCode], lines 233-337:
    what ends up in [responseText]. *)
Definition requestReply (log : Logger) (m : AIModel) (key prompt : jsstring) : M Value :=
  let modelId := model_id m in
  match getProviderConfig modelId with
  | Unconfigured => throw (js "未配置的模型提供方")
  | Inherited => ret (str [])
  | Configured c =>
      let* warned := gets (fun s => bool_decide (modelId ∈ warnedProviders (service s))) in
      (if bool_decide (corsSupported c = Some false) && negb warned then
         warn modelId;;;
         logWith log (js "提示") (str (js "该供应商可能不支持浏览器直连，建议使用服务器代理"))
       else ret tt);;;
      if isChat (ptype c) then dispatchChat log c key (chatBody m prompt)
      else dispatchMessages log c m key prompt
  end.

(** The second half, lines 339-347 *)
Definition acceptReply (log : Logger) (filePath code_ : jsstring) (start : nat)
           (responseText : Value) : M CodeReview :=
  let* finish := gets clock in
  let duration := finish - start in
  logWith log (js "AI响应接收") (str (js "耗时 " ++ decimal duration ++ js "ms"));;;
  match log with
  | Some _ => let* shown := lift (slice1000 responseText) in
              logWith log (js "响应内容") shown
  | None => ret tt
  end;;;
  let issues := normalizeIssuesFromText responseText filePath code_ in
  countSuccess;;;
  let summary := js "审查完成，发现" ++ decimal (length issues) ++ js "个问题" in
  logWith log (js "AI结果生成") (str summary);;;
  ret {| file := filePath; issues := issues; summary := summary |}.

(** The [try] block of [reviewCode], lines 233-347 *)
Definition reviewTry (log : Logger) (m : AIModel) (key filePath code_ prompt : jsstring)
           (start : nat) : M CodeReview :=
  let* responseText := requestReply log m key prompt in
  acceptReply log filePath code_ start responseText.

(** [reviewCode], lines 209-364 *)
Definition reviewCode (filePath code_ language standards : jsstring) (log : Logger)
  : M CodeReview :=
  let* key := gets (fun s => apiKey (service s)) in
  let* current := gets (fun s => model (service s)) in
  match key, current with
  | [], _ | _, None => throw (js "请先设置API密钥和选择模型")
  | _ :: _, Some m =>
      logWith log (js "AI请求构建") (str (model_name m ++ js " · 基于规范执行"));;;
      let* start := gets clock in
      let modelId := model_id m in
      let maskedCode := Mask.maskSensitive code_ in
      let prompt := buildPrompt filePath maskedCode language standards in
      let paramsPreview := JObj [ (js "model", str (model_id m));
                                  (js "max_tokens", num (Nat.min (maxTokens m) 4096)) ] in
      logWith log (js "参数校验") (str (JSON_stringify paramsPreview));;;
      enforceRateLimit modelId;;;
      let* count := gets (fun s => default 0 (requestCountByModel (service s) !! modelId)) in
      logWith log (js "频率限制") (str (js "累计: " ++ decimal count ++ js " 次"));;;
      tryCatch (reviewTry log m key filePath code_ prompt start)
        (fun err =>
           logWith log (js "AI请求失败") (str err);;;
           countFailure err;;;
           ret {| file := filePath; issues := [failIssue code_];
                  summary := js "AI调用失败，返回降级结果" |})
  end.

(** [reviewMultipleFiles], lines 367-388 *)
Fixpoint reviewMultipleFiles (files : list (jsstring * jsstring * jsstring))
         (standards : jsstring) : M (list CodeReview) :=
  match files with
  | [] => ret []
  | (path, content, language) :: rest =>
      let* review :=
        tryCatch (reviewCode path content language standards None)
          (fun msg => ret {| file := path; issues := [];
                             summary := js "审查失败: " ++ msg |}) in
      let* results := reviewMultipleFiles rest standards in
      ret (review :: results)
  end.

End Client.

(** *** The model catalogue, the settings and the connection test,
    lines 45-100 and 180-206 *)

Definition getAvailableModels : list AIModel :=
  [ {| model_id := js "deepseek-chat"; model_name := js "DeepSeek Chat";
       provider := js "DeepSeek"; description := js "专为代码审查优化的模型";
       maxTokens := 32768; supported := true |};
    {| model_id := js "gpt-4"; model_name := js "GPT-4";
       provider := js "OpenAI"; description := js "强大的通用语言模型";
       maxTokens := 8192; supported := true |};
    {| model_id := js "claude-3-sonnet"; model_name := js "Claude 3 Sonnet";
       provider := js "Anthropic"; description := js "专注于代码理解和分析";
       maxTokens := 200000; supported := true |};
    {| model_id := js "kimi-k2"; model_name := js "Kimi K2";
       provider := js "Moonshot"; description := js "中文友好的代码分析模型";
       maxTokens := 200000; supported := true |};
    {| model_id := js "doubao-pro"; model_name := js "豆包Pro";
       provider := js "ByteDance"; description := js "企业级代码审查模型";
       maxTokens := 32768; supported := true |} ].

Section Settings.
Context {engine : JsEngine}.

Definition setConnectionMode (mode : ConnectionMode) : M unit :=
  updateService (fun a =>
    {| apiKey := apiKey a; model := model a; connectionMode := mode;
       proxyUrl := proxyUrl a; requestCountByModel := requestCountByModel a;
       lastRequestAtByModel := lastRequestAtByModel a;
       warnedProviders := warnedProviders a; stats := stats a |}).

Definition setProxyUrl (url_ : jsstring) : M unit :=
  updateService (fun a =>
    {| apiKey := apiKey a; model := model a; connectionMode := connectionMode a;
       proxyUrl := trim url_; requestCountByModel := requestCountByModel a;
       lastRequestAtByModel := lastRequestAtByModel a;
       warnedProviders := warnedProviders a; stats := stats a |}).

Definition getStats : M Stats := gets (fun s => stats (service s)).

Definition setApiKey (key : jsstring) : M unit :=
  updateService (fun a =>
    {| apiKey := key; model := model a; connectionMode := connectionMode a;
       proxyUrl := proxyUrl a; requestCountByModel := requestCountByModel a;
       lastRequestAtByModel := lastRequestAtByModel a;
       warnedProviders := warnedProviders a; stats := stats a |}).

Definition setModel (m : AIModel) : M unit :=
  updateService (fun a =>
    {| apiKey := apiKey a; model := Some m; connectionMode := connectionMode a;
       proxyUrl := proxyUrl a; requestCountByModel := requestCountByModel a;
       lastRequestAtByModel := lastRequestAtByModel a;
       warnedProviders := warnedProviders a; stats := stats a |}).

Definition getCurrentModel : M (option AIModel) := gets (fun s => model (service s)).

(** [testConnection], lines 193-206: the test is simulated by a timer. *)
Definition testConnection : M bool :=
  let* key := gets (fun s => apiKey (service s)) in
  let* current := gets (fun s => model (service s)) in
  match key, current with
  | [], _ | _, None => ret false
  | _ :: _, Some _ => tryCatch (sleep 1000;;; ret true) (fun _ => ret false)
  end.

End Settings.

(** ** Orchestrator and aggregator ([reviewService.ts]) *)

(** [GitService] as [executeReview] uses it: the outcome of each of the
    three operations it awaits.  What [cloneRepository] does to get there
    (its own requests and pauses, lines 538-579 of the document that
    follows the export service) leaves the review client alone and is not
    recorded in the session state. *)
Record GitService := {
  cloneRepository : jsstring -> jsstring -> jsstring -> Outcome jsstring;
  getCodeFiles : jsstring -> Outcome (list jsstring);
  readFileContent : jsstring -> Outcome jsstring
}.

(** *** The repository service as shipped (the [GitService] document that
    follows the export service in [exportService.ts]) *)

(** [s.endsWith(p)] *)
Definition endsWith (p s : jsstring) : bool := startsWith (reverse p) (reverse s).

Definition codeExtensions : list jsstring :=
  [ js ".js"; js ".jsx"; js ".ts"; js ".tsx"; js ".py"; js ".java"; js ".kt";
    js ".cpp"; js ".c"; js ".cs"; js ".go"; js ".rs"; js ".php"; js ".rb";
    js ".swift"; js ".vue"; js ".svelte" ].

(** [isCodeFile], lines 448-455: the filter of [getRepositoryFiles]. *)
Definition isCodeFile (filePath : jsstring) : bool :=
  existsb (fun ext => endsWith ext (toLowerCase filePath)) codeExtensions.

(** Matchers with a continuation, as the regular expressions of
    [validateGitUrl] need them: after a run the engine may have to give
    units back ([[\w.-]+] followed by [\.git]).  [k] is what has to match
    the rest. *)
Module Rx.

Definition K := jsstring -> bool.

Fixpoint litK (w : jsstring) (k : K) (s : jsstring) : bool :=
  match w, s with
  | [], _ => k s
  | a :: w', c :: r => (a =? c)%N && litK w' k r
  | _ :: _, [] => false
  end.

(** [[class]+]: one unit of the class, then more of them or the rest. *)
Fixpoint plusK (p : N -> bool) (k : K) (s : jsstring) : bool :=
  match s with
  | c :: r => p c && (plusK p k r || k r)
  | [] => false
  end.

(** [(...)?] *)
Definition optK (a : K -> K) (k : K) : K := fun s => a k s || k s.

(** [$], without the [m] flag *)
Definition atEnd : K := fun s => match s with [] => true | _ :: _ => false end.

End Rx.

(** [[\w.-]] *)
Definition repoUnit (c : N) : bool := isWord c || (c =? 46)%N || (c =? 45)%N.

(** [/^https:\/\/host\/[\w.-]+\/[\w.-]+(\.git)?$/] and
    [/^git@host:[\w.-]+\/[\w.-]+\.git$/] *)
Definition httpsPattern (host : jsstring) : Rx.K :=
  Rx.litK (js "https://" ++ host ++ js "/")
    (Rx.plusK repoUnit (Rx.litK (js "/")
       (Rx.plusK repoUnit (Rx.optK (Rx.litK (js ".git")) Rx.atEnd)))).

Definition sshPattern (host : jsstring) : Rx.K :=
  Rx.litK (js "git@" ++ host ++ js ":")
    (Rx.plusK repoUnit (Rx.litK (js "/")
       (Rx.plusK repoUnit (Rx.litK (js ".git") Rx.atEnd)))).

(** [validateGitUrl], lines 339-349 *)
Definition gitUrlPatterns : list Rx.K :=
  [ httpsPattern (js "github.com"); httpsPattern (js "gitlab.com");
    sshPattern (js "github.com"); sshPattern (js "gitlab.com");
    httpsPattern (js "gitee.com"); sshPattern (js "gitee.com") ].

Definition validateGitUrl (url_ : jsstring) : bool :=
  existsb (fun pattern => pattern url_) gitUrlPatterns.

Fixpoint takeRun (p : N -> bool) (s : jsstring) : jsstring :=
  match s with
  | c :: r => if p c then c :: takeRun p r else []
  | [] => []
  end.

(** [/github\.com\/([\w.-]+)\/([\w.-]+)/] at the head of [s]: its two
    groups.  The first run is followed by a unit outside its class and the
    second by nothing, so each group is the longest run. *)
Definition gitHubAt (s : jsstring) : option (jsstring * jsstring) :=
  match Regex.lit (js "github.com/") s with
  | Some r =>
      match takeRun repoUnit r, dropWhile repoUnit r with
      | (_ :: _) as owner, 47%N :: r2 =>
          match takeRun repoUnit r2 with
          | [] => None
          | (_ :: _) as repo => Some (owner, repo)
          end
      | _, _ => None
      end
  | None => None
  end.

(** [url.match(...)]: the groups of the leftmost match. *)
Fixpoint gitHubMatch (s : jsstring) : option (jsstring * jsstring) :=
  match gitHubAt s with
  | Some groups => Some groups
  | None =>
      match s with
      | [] => None
      | _ :: r => gitHubMatch r
      end
  end.

(** [s.replace(p, '')] for a string [p]: the first occurrence goes. *)
Fixpoint removeFirst (p s : jsstring) : jsstring :=
  if startsWith p s then drop (length p) s
  else match s with
       | [] => []
       | c :: r => c :: removeFirst p r
       end.

(** The first statements of [getRepositoryInfo], [getRepositoryFiles] and
    [getFileContent] (lines 358-364, 417-423, 460-466): the owner and the
    repository name that go into the address of the request, or [None]
    where the source throws its error about GitHub only. *)
Definition gitHubRepository (url_ : jsstring) : option (jsstring * jsstring) :=
  match gitHubMatch url_ with
  | Some (owner, repo) => Some (owner, removeFirst (js ".git") repo)
  | None => None
  end.

Module Git.
Record CodeFile := {
  path : jsstring;
  content : jsstring;
  language : jsstring;
  size : nat
}.
End Git.

(** [repositoryFiles]: a [Map], whose keys keep the order in which they
    were first set. *)
Definition RepositoryFiles := list (jsstring * Git.CodeFile).

Definition mapGet (files : RepositoryFiles) (key : jsstring) : option Git.CodeFile :=
  snd <$> find (fun e => bool_decide (e.1 = key)) files.

(** [getCodeFiles], [readFileContent] and [getAllCodeFiles], lines 582-596.
    [file?.content || ''] is the content, or the empty string when there
    is no such file. *)
Definition storedCodeFiles (files : RepositoryFiles) : list jsstring := map fst files.

Definition storedContent (files : RepositoryFiles) (filePath : jsstring) : jsstring :=
  match mapGet files filePath with
  | Some f => Git.content f
  | None => []
  end.

Definition getAllCodeFiles (files : RepositoryFiles) : list Git.CodeFile := map snd files.

(** The service over the files that [cloneRepository] has stored; how it
    fetched them is left open in [clone]. *)
Definition shippedGitService (clone : jsstring -> jsstring -> jsstring -> Outcome jsstring)
           (files : RepositoryFiles) : GitService :=
  {| cloneRepository := clone;
     getCodeFiles := fun _ => Ok (storedCodeFiles files);
     readFileContent := fun filePath => Ok (storedContent files filePath) |}.

Section Aggregator.
Context {engine : JsEngine}.

(** [m[key] = (m[key] || 0) + 1] *)
Definition tally (key : jsstring) (m : gmap jsstring nat) : gmap jsstring nat :=
  <[key := default 0 (m !! key) + 1]> m.

(** The callback of [review.issues.forEach], lines 371-377 *)
Definition countIssue (acc : ReviewSummary) (issue : CodeIssue) : ReviewSummary :=
  {| totalFiles := totalFiles acc; totalIssues := totalIssues acc;
     issuesByType := tally (typeName (type issue)) (issuesByType acc);
     issuesByCategory := tally (categoryName (category issue)) (issuesByCategory acc);
     filesWithIssues := filesWithIssues acc |}.

(** The callback of [reviews.forEach], lines 366-379 *)
Definition countReview (acc : ReviewSummary) (review : CodeReview) : ReviewSummary :=
  if 0 <? length (issues review) then
    fold_left countIssue (issues review)
      {| totalFiles := totalFiles acc;
         totalIssues := totalIssues acc + length (issues review);
         issuesByType := issuesByType acc; issuesByCategory := issuesByCategory acc;
         filesWithIssues := filesWithIssues acc + 1 |}
  else acc.

Definition generateSummary (reviews_ : list CodeReview) : ReviewSummary :=
  fold_left countReview reviews_
    {| totalFiles := length reviews_; totalIssues := 0;
       issuesByType := ∅; issuesByCategory := ∅; filesWithIssues := 0 |}.

End Aggregator.

Section Orchestrator.
Context {engine : JsEngine}.
Variable gitService : GitService.
Variable network : nat -> Request -> Fetched.

(** [updateProgress(updates)]: merge, then tell every subscriber. *)
Definition updateProgress (updates : ReviewProgress -> ReviewProgress) : M unit :=
  modify (fun s => setProgress (updates (progress s)) s).

Definition emitLog (lvl : LogLevel) (msg : jsstring) (info : option Value) : M unit :=
  modify (addLog {| level := lvl; logMessage := msg; details := info |}).

Definition languageMap : list (jsstring * jsstring) :=
  [ (js "js", js "javascript"); (js "jsx", js "javascript");
    (js "ts", js "typescript"); (js "tsx", js "typescript");
    (js "py", js "python"); (js "java", js "java"); (js "kt", js "kotlin");
    (js "cpp", js "cpp"); (js "c", js "c"); (js "cs", js "csharp");
    (js "go", js "go"); (js "rs", js "rust"); (js "php", js "php");
    (js "rb", js "ruby"); (js "swift", js "swift"); (js "vue", js "vue");
    (js "svelte", js "svelte") ].

(** [detectLanguage], lines 331-354.  The result is only ever spliced into
    template literals, so the value found under a name inherited from
    [Object.prototype] is represented by its text. *)
Definition detectLanguage (filePath : jsstring) : jsstring :=
  let ext := toLowerCase (default [] (last (split 46 filePath))) in
  match find (fun e => bool_decide (e.1 = ext)) languageMap with
  | Some e => e.2
  | None => if bool_decide (ext ∈ objectPrototypeNames) then inheritedText ext else js "text"
  end.

(** [(n / 1024).toFixed(1)]: the quotient is exact in a double, and
    [toFixed] rounds its decimal expansion half up. *)
Definition kilobytes (n : nat) : jsstring :=
  let tenths := (20 * n + 1024) / 2048 in
  decimal (tenths / 10) ++ js "." ++ decimal (tenths mod 10).

Definition MAX_CONTENT : nat := 50000.

(** [analyzeFile], lines 183-231 *)
Definition analyzeFile (filePath content language standardsContent : jsstring) : M CodeReview :=
  tryCatch
    (if MAX_CONTENT <? length content then
       emitLog LogWarning (js "文件过大跳过")
         (Some (str (filePath ++ js " (" ++ kilobytes (length content) ++ js "KB)")));;;
       ret {| file := filePath; issues := []; summary := js "文件过大，跳过分析" |}
     else
       let basicIssues := performBasicCodeCheck filePath content language in
       emitLog LogInfo (js "基础检查")
         (Some (str (filePath ++ js " -> " ++ decimal (length basicIssues) ++ js " 问题")));;;
       let* aiReview := reviewCode network filePath content language standardsContent
                          (Some (fun phase info => emitLog LogInfo phase info)) in
       let allIssues := basicIssues ++ issues aiReview in
       ret {| file := filePath; issues := allIssues;
              summary := js "发现" ++ decimal (length allIssues) ++ js "个问题" |})
    (fun _ =>
       let basicIssues := performBasicCodeCheck filePath content language in
       emitLog LogError (js "AI分析失败") (Some (str filePath));;;
       ret {| file := filePath; issues := basicIssues;
              summary := js "基础检查完成，发现" ++ decimal (length basicIssues)
                         ++ js "个问题 (AI分析失败)" |}).

(** The [try] block of the loop body, lines 117-132: the review to push,
    or [None] after [continue]. *)
Definition reviewFileTry (filePath standardsContent : jsstring) : M (option CodeReview) :=
  let* content := lift (readFileContent gitService filePath) in
  match trim content with
  | [] =>
      emitLog LogWarning (js "空文件跳过") (Some (str filePath));;;
      ret None
  | _ :: _ =>
      let language := detectLanguage filePath in
      emitLog LogInfo (js "语言检测") (Some (str (filePath ++ js " -> " ++ language)));;;
      let* review := analyzeFile filePath content language standardsContent in
      emitLog LogInfo (js "分析完成")
        (Some (str (filePath ++ js " -> 问题 " ++ decimal (length (issues review)))));;;
      sleep 500;;;
      ret (Some review)
  end.

(** One turn of the loop, lines 110-142 *)
Definition reviewFile (filePath standardsContent : jsstring) (i : nat) : M (option CodeReview) :=
  updateProgress (fun p =>
    {| Progress.totalFiles := Progress.totalFiles p; Progress.processedFiles := i;
       Progress.currentFile := filePath; Progress.status := Progress.status p;
       Progress.error := Progress.error p |});;;
  tryCatch (reviewFileTry filePath standardsContent)
    (fun msg =>
       emitLog LogError (js "文件审查失败") (Some (str (filePath ++ js " - " ++ msg)));;;
       ret (Some {| file := filePath; issues := [];
                    summary := js "审查失败: " ++ msg |})).

(** The loop from index [i] on; [files] is [codeFiles.slice(i)] and
    [reviews_] the array filled so far. *)
Fixpoint reviewFiles (files : list jsstring) (standardsContent : jsstring) (i : nat)
         (reviews_ : list CodeReview) : M (list CodeReview) :=
  match files with
  | [] => ret reviews_
  | filePath :: rest =>
      let* r := reviewFile filePath standardsContent i in
      reviewFiles rest standardsContent (S i)
        (match r with
         | Some review => reviews_ ++ [review]
         | None => reviews_
         end)
  end.

(** The [try] block of [executeReview], lines 81-169 *)
Definition executeTry (repositoryUrl branch_ standardsContent : jsstring) (startTime_ : nat)
  : M ReviewResult :=
  updateProgress (fun p =>
    {| Progress.totalFiles := 0; Progress.processedFiles := 0;
       Progress.currentFile := js "正在获取仓库代码..."; Progress.status := Cloning;
       Progress.error := Progress.error p |});;;
  let* cloneResult := lift (cloneRepository gitService repositoryUrl branch_ (js "./temp_repo")) in
  emitLog LogInfo (js "代码获取") (Some (str cloneResult));;;
  updateProgress (fun p =>
    {| Progress.totalFiles := Progress.totalFiles p;
       Progress.processedFiles := Progress.processedFiles p;
       Progress.currentFile := js "正在扫描代码文件..."; Progress.status := Progress.status p;
       Progress.error := Progress.error p |});;;
  let* codeFiles := lift (getCodeFiles gitService (js "./temp_repo")) in
  match codeFiles with
  | [] => throw (js "未找到代码文件")
  | _ :: _ =>
      updateProgress (fun p =>
        {| Progress.totalFiles := length codeFiles;
           Progress.processedFiles := Progress.processedFiles p;
           Progress.currentFile := js "找到" ++ decimal (length codeFiles) ++ js "个代码文件";
           Progress.status := Progress.status p; Progress.error := Progress.error p |});;;
      emitLog LogInfo (js "文件列表") (Some (str (decimal (length codeFiles) ++ js " 个文件")));;;
      updateProgress (fun p =>
        {| Progress.totalFiles := Progress.totalFiles p;
           Progress.processedFiles := Progress.processedFiles p;
           Progress.currentFile := Progress.currentFile p; Progress.status := Analyzing;
           Progress.error := Progress.error p |});;;
      let* reviews_ := reviewFiles codeFiles standardsContent 0 [] in
      let summary_ := generateSummary reviews_ in
      let* endTime_ := gets clock in
      let duration_ := endTime_ - startTime_ in
      emitLog LogInfo (js "审查完成")
        (Some (str (js "分析 " ++ decimal (totalFiles summary_) ++ js " 文件，发现 "
                    ++ decimal (totalIssues summary_) ++ js " 问题")));;;
      let* now := gets clock in
      let result := {| id := decimal now; repository := repositoryUrl; branch := branch_;
                       standards := standardsContent; reviews := reviews_;
                       resultSummary := summary_; startTime := startTime_;
                       endTime := Some endTime_; duration := Some duration_ |} in
      updateProgress (fun p =>
        {| Progress.totalFiles := Progress.totalFiles p;
           Progress.processedFiles := Progress.processedFiles p;
           Progress.currentFile := js "审查完成"; Progress.status := Completed;
           Progress.error := Progress.error p |});;;
      ret result
  end.

(** [executeReview], lines 73-180 *)
Definition executeReview (repositoryUrl branch_ standardsContent : jsstring) : M ReviewResult :=
  let* startTime_ := gets clock in
  tryCatch (executeTry repositoryUrl branch_ standardsContent startTime_)
    (fun errorMessage =>
       updateProgress (fun p =>
         {| Progress.totalFiles := Progress.totalFiles p;
            Progress.processedFiles := Progress.processedFiles p;
            Progress.currentFile := Progress.currentFile p; Progress.status := StatusError;
            Progress.error := Some errorMessage |});;;
       emitLog LogError (js "审查过程出错") (Some (str errorMessage));;;
       throw errorMessage).

End Orchestrator.

Section ProgressAccess.
Context {engine : JsEngine}.

(** [getProgress] and [resetProgress], lines 385-397: the reset replaces
    the record without telling the subscribers. *)
Definition getProgress : M ReviewProgress := gets progress.

Definition resetProgress : M unit :=
  modify (fun s =>
    {| service := service s;
       progress := {| Progress.totalFiles := 0; Progress.processedFiles := 0;
                      Progress.currentFile := []; Progress.status := Idle;
                      Progress.error := None |};
       progressEvents := progressEvents s; logEvents := logEvents s;
       clock := clock s; requests := requests s |}).

End ProgressAccess.

(** ** A reference engine

    An engine to run the services on concrete inputs: numbers are exact
    decimals [m * 10^e] (no rounding to doubles), [JSON.parse] follows the
    JSON grammar, and [JSON.stringify] prints without white space.  It is
    no model of a particular engine: [Number(s)] reads the number syntax of
    JSON only, and the messages of the errors and the text of an inherited
    function are placeholders.  The closed statements that run on it use
    none of these. *)

Module Reference.

Inductive Decimal := DNaN | Dec (m : Z) (e : Z).

Definition isZero (d : Decimal) : bool :=
  match d with
  | DNaN => true
  | Dec m _ => (m =? 0)%Z
  end.

Definition digitsValue (ds : jsstring) : Z :=
  fold_left (fun acc c => (acc * 10 + Z.of_N (c - 48))%Z) ds 0%Z.

Fixpoint takeWhileUnits (p : N -> bool) (s : jsstring) : jsstring :=
  match s with
  | c :: r => if p c then c :: takeWhileUnits p r else []
  | [] => []
  end.

(** A number of the JSON grammar at the head of [s] *)
Definition parseNumber (s : jsstring) : option (Decimal * jsstring) :=
  let (neg, s1) := match s with
                   | 45%N :: r => (true, r)
                   | _ => (false, s)
                   end in
  let int := takeWhileUnits isDigit s1 in
  let s2 := dropWhile isDigit s1 in
  match int with
  | [] => None
  | d :: more =>
      if (d =? 48)%N && negb (bool_decide (more = [])) then None
      else
        let '(frac, s3, okFrac) :=
          match s2 with
          | 46%N :: r =>
              let f := takeWhileUnits isDigit r in
              (f, dropWhile isDigit r, negb (bool_decide (f = [])))
          | _ => ([], s2, true)
          end in
        let '(ex, s4, okExp) :=
          match s3 with
          | c :: r =>
              if (c =? 101)%N || (c =? 69)%N then
                let '(eneg, r1) := match r with
                                   | 45%N :: r' => (true, r')
                                   | 43%N :: r' => (false, r')
                                   | _ => (false, r)
                                   end in
                let ds := takeWhileUnits isDigit r1 in
                ((if eneg then - digitsValue ds else digitsValue ds)%Z,
                 dropWhile isDigit r1, negb (bool_decide (ds = [])))
              else (0%Z, s3, true)
          | [] => (0%Z, s3, true)
          end in
        if okFrac && okExp then
          let m := digitsValue (int ++ frac) in
          Some (Dec (if neg then - m else m)%Z (ex - Z.of_nat (length frac))%Z, s4)
        else None
  end.

Definition hexValue (c : N) : option N :=
  if isDigit c then Some (c - 48)%N
  else if ((97 <=? c) && (c <=? 102))%N then Some (c - 87)%N
  else if ((65 <=? c) && (c <=? 70))%N then Some (c - 55)%N
  else None.

(** The units of a string literal after its opening quote mark *)
Fixpoint parseChars (s : jsstring) : option (jsstring * jsstring) :=
  match s with
  | [] => None
  | 34%N :: r => Some ([], r)
  | 92%N :: e :: r =>
      let simple (c : N) (rest : jsstring) :=
        match parseChars rest with
        | Some (t, out) => Some (c :: t, out)
        | None => None
        end in
      match e with
      | 34%N => simple 34%N r
      | 92%N => simple 92%N r
      | 47%N => simple 47%N r
      | 98%N => simple 8%N r
      | 102%N => simple 12%N r
      | 110%N => simple 10%N r
      | 114%N => simple 13%N r
      | 116%N => simple 9%N r
      | 117%N =>
          match r with
          | h1 :: h2 :: h3 :: h4 :: r' =>
              match hexValue h1, hexValue h2, hexValue h3, hexValue h4 with
              | Some a, Some b, Some c, Some d =>
                  match parseChars r' with
                  | Some (t, out) => Some ((a * 4096 + b * 256 + c * 16 + d)%N :: t, out)
                  | None => None
                  end
              | _, _, _, _ => None
              end
          | _ => None
          end
      | _ => None
      end
  | c :: r =>
      if (c <? 32)%N || (c =? 92)%N then None
      else match parseChars r with
           | Some (t, out) => Some (c :: t, out)
           | None => None
           end
  end.

Definition isJsonSpace (c : N) : bool :=
  ((c =? 32) || (c =? 9) || (c =? 10) || (c =? 13))%N.
Definition ws (s : jsstring) : jsstring := dropWhile isJsonSpace s.

Abbreviation V := (JSValue Decimal).

Fixpoint parseValue (fuel : nat) (s : jsstring) : option (V * jsstring) :=
  match fuel with
  | 0 => None
  | S f =>
      let elements :=
        fix elements (n : nat) (s : jsstring) : option (list V * jsstring) :=
          match n with
          | 0 => None
          | S n' =>
              match parseValue f s with
              | Some (v, r) =>
                  match ws r with
                  | 44%N :: r' =>
                      match elements n' r' with
                      | Some (vs, out) => Some (v :: vs, out)
                      | None => None
                      end
                  | 93%N :: r' => Some ([v], r')
                  | _ => None
                  end
              | None => None
              end
          end in
      let members :=
        fix members (n : nat) (s : jsstring) : option (list (jsstring * V) * jsstring) :=
          match n with
          | 0 => None
          | S n' =>
              match ws s with
              | 34%N :: r0 =>
                  match parseChars r0 with
                  | Some (k, r1) =>
                      match ws r1 with
                      | 58%N :: r2 =>
                          match parseValue f r2 with
                          | Some (v, r3) =>
                              match ws r3 with
                              | 44%N :: r4 =>
                                  match members n' r4 with
                                  | Some (ms, out) => Some ((k, v) :: ms, out)
                                  | None => None
                                  end
                              | 125%N :: r4 => Some ([(k, v)], r4)
                              | _ => None
                              end
                          | None => None
                          end
                      | _ => None
                      end
                  | None => None
                  end
              | _ => None
              end
          end in
      match ws s with
      | 34%N :: r => match parseChars r with
                     | Some (t, out) => Some (JStr t, out)
                     | None => None
                     end
      | 91%N :: r =>
          match ws r with
          | 93%N :: r' => Some (JArr [], r')
          | _ => match elements (length r) r with
                 | Some (vs, out) => Some (JArr vs, out)
                 | None => None
                 end
          end
      | 123%N :: r =>
          match ws r with
          | 125%N :: r' => Some (JObj [], r')
          | _ => match members (length r) r with
                 | Some (ms, out) => Some (JObj ms, out)
                 | None => None
                 end
          end
      | c :: r =>
          if startsWith (js "null") (c :: r) then Some (JNull, drop 4 (c :: r))
          else if startsWith (js "true") (c :: r) then Some (JBool true, drop 4 (c :: r))
          else if startsWith (js "false") (c :: r) then Some (JBool false, drop 5 (c :: r))
          else match parseNumber (c :: r) with
               | Some (d, out) => Some (JNum d, out)
               | None => None
               end
      | [] => None
      end
  end.

Definition parse (s : jsstring) : Outcome V :=
  match parseValue (S (length s)) s with
  | Some (v, r) =>
      match ws r with
      | [] => Ok v
      | _ => Throw (js "Unexpected non-whitespace character after JSON")
      end
  | None => Throw (js "Unexpected token in JSON")
  end.

Definition printZ (z : Z) : jsstring :=
  if (z <? 0)%Z then 45%N :: decimal (Z.to_nat (- z)) else decimal (Z.to_nat z).

Definition printNumber (d : Decimal) : jsstring :=
  match d with
  | DNaN => js "NaN"
  | Dec m e =>
      if (0 <=? e)%Z then printZ (m * 10 ^ e)
      else printZ m ++ js "e" ++ printZ e
  end.

Definition hexDigit (n : N) : N := if (n <? 10)%N then (48 + n)%N else (87 + n)%N.

Definition quoteUnit (c : N) : jsstring :=
  if (c =? 34)%N then js "\" ++ [34%N]
  else if (c =? 92)%N then js "\\"
  else if (c =? 10)%N then js "\n"
  else if (c =? 13)%N then js "\r"
  else if (c =? 9)%N then js "\t"
  else if (c =? 8)%N then js "\b"
  else if (c =? 12)%N then js "\f"
  else if (c <? 32)%N then js "\u00" ++ [hexDigit (c / 16); hexDigit (c mod 16)]
  else [c].

Definition quote (s : jsstring) : jsstring := [34%N] ++ flat_map quoteUnit s ++ [34%N].

Definition commas (parts : list jsstring) : jsstring :=
  match parts with
  | [] => []
  | p :: ps => p ++ flat_map (fun q => 44%N :: q) ps
  end.

Fixpoint stringify (v : V) : jsstring :=
  match v with
  | JNull => js "null"
  | JBool b => if b then js "true" else js "false"
  | JNum DNaN => js "null"
  | JNum d => printNumber d
  | JStr s => quote s
  | JArr l => [91%N] ++ commas (map stringify l) ++ [93%N]
  | JObj ps =>
      [123%N]
        ++ commas ((fix members (ps : list (jsstring * V)) : list jsstring :=
                      match ps with
                      | [] => []
                      | (k, w) :: r => (quote k ++ [58%N] ++ stringify w) :: members r
                      end) ps)
        ++ [125%N]
  end.

(** [Number(s)] on the decimal integers; the empty string is zero. *)
Definition stringToNumber (s : jsstring) : Decimal :=
  match trim s with
  | [] => Dec 0 0
  | t => match parseNumber t with
         | Some (d, []) => d
         | _ => DNaN
         end
  end.

#[export] Instance engine : JsEngine := {|
  JsNumber := Decimal;
  ofNat n := Dec (Z.of_nat n) 0;
  NaN := DNaN;
  numberTruthy d := negb (isZero d);
  StringToNumber := stringToNumber;
  NumberToString := printNumber;
  JSON_parse := parse;
  notAFunction e := e ++ js " is not a function";
  inheritedText name :=
    if bool_decide (name = js "__proto__") then js "[object Object]"
    else js "function " ++ name ++ js "() { [native code] }";
  JSON_stringify := stringify;
  NaN_falsy := eq_refl
|}.

End Reference.

(** ** Vocabulary of the properties *)

Section Vocabulary.
Context {engine : JsEngine}.

(** All issues of a session, file by file. *)
Definition allIssues (rs : list CodeReview) : list CodeIssue := flat_map issues rs.

(** How many issues of [l] carry the name [k] under [key]. *)
Definition occurrences (key : CodeIssue -> jsstring) (k : jsstring) (l : list CodeIssue) : nat :=
  length (filter (fun i => key i = k) l).

Definition kindOf (i : CodeIssue) : jsstring := typeName (type i).
Definition categoryOf (i : CodeIssue) : jsstring := categoryName (category i).

(** The entry of a tally for a name seen [n] times: absent when [n = 0]. *)
Definition entry (n : nat) : option nat :=
  match n with
  | 0 => None
  | S _ => Some n
  end.

(** Seeing a name [n] more times on top of an existing entry [o]. *)
Definition bump (n : nat) (o : option nat) : option nat :=
  match n with
  | 0 => o
  | S _ => Some (default 0 o + n)
  end.

Definition hasIssues (r : CodeReview) : Prop := issues r <> [].

#[global] Instance hasIssues_dec r : Decision (hasIssues r).
Proof. unfold hasIssues. apply _. Defined.

(** The window of two lines before to two lines after line [idx], read off
    the positions: the lines whose index [j] has [idx - 2 <= j <= idx + 2]. *)
Definition nearby (idx j : nat) : bool := (idx <=? j + 2) && (j <=? idx + 2).

Fixpoint windowFrom (idx j : nat) (ls : list jsstring) : list jsstring :=
  match ls with
  | [] => []
  | l :: r => if nearby idx j then l :: windowFrom idx (S j) r else windowFrom idx (S j) r
  end.

Definition window (ls : list jsstring) (idx : nat) : list jsstring := windowFrom idx 0 ls.

End Vocabulary.

(** * Properties *)

(** ** The session monad *)

Section MonadLaws.
Context {engine : JsEngine}.

Lemma bind_Ok {A B} (m : M A) (k : A -> M B) s b s' :
  bind m k s = (Ok b, s') ->
  exists a s1, m s = (Ok a, s1) /\ k a s1 = (Ok b, s').
Proof.
  unfold bind. destruct (m s) as [[a|e] s1]; intros H; [eauto | discriminate].
Qed.

Lemma bind_Throw {A B} (m : M A) (k : A -> M B) s e s' :
  bind m k s = (Throw e, s') ->
  m s = (Throw e, s') \/ exists a s1, m s = (Ok a, s1) /\ k a s1 = (Throw e, s').
Proof.
  unfold bind. destruct (m s) as [[a|e0] s1]; intros H; [right; eauto | left].
  injection H as -> ->. reflexivity.
Qed.

Lemma bind_step {A B} (m : M A) (k : A -> M B) s a s1 :
  m s = (Ok a, s1) -> bind m k s = k a s1.
Proof. unfold bind. intros ->. reflexivity. Qed.


Lemma tryCatch_Ok {A} (m : M A) h s a s1 :
  m s = (Ok a, s1) -> tryCatch m h s = (Ok a, s1).
Proof. unfold tryCatch. intros ->. reflexivity. Qed.

Lemma tryCatch_Throw {A} (m : M A) h s e s1 :
  m s = (Throw e, s1) -> tryCatch m h s = h e s1.
Proof. unfold tryCatch. intros ->. reflexivity. Qed.

End MonadLaws.

(** ** Aggregator *)

Section AggregatorFacts.
Context {engine : JsEngine}.

Lemma tally_lookup key m k :
  tally key m !! k = if decide (key = k) then Some (default 0 (m !! k) + 1) else m !! k.
Proof.
  unfold tally. destruct (decide (key = k)) as [->|Hne].
  - apply lookup_insert_eq.
  - by apply lookup_insert_ne.
Qed.

Lemma fold_tally (key : CodeIssue -> jsstring) l m k :
  fold_left (fun m i => tally (key i) m) l m !! k = bump (occurrences key k l) (m !! k).
Proof.
  revert m. induction l as [|a l IH]; intros m; [reflexivity|].
  simpl. rewrite IH, tally_lookup. unfold occurrences.
  rewrite filter_cons. destruct (decide (key a = k)) as [Heq|Hne]; [|reflexivity].
  simpl. destruct (length (filter _ l)); simpl; f_equal; lia.
Qed.

Lemma countIssue_fold l acc :
  fold_left countIssue l acc =
  {| totalFiles := totalFiles acc; totalIssues := totalIssues acc;
     issuesByType := fold_left (fun m i => tally (kindOf i) m) l (issuesByType acc);
     issuesByCategory := fold_left (fun m i => tally (categoryOf i) m) l (issuesByCategory acc);
     filesWithIssues := filesWithIssues acc |}.
Proof.
  revert acc. induction l as [|a l IH]; intros acc; [by destruct acc|].
  simpl. rewrite IH. reflexivity.
Qed.

Lemma countReview_spec acc r :
  countReview acc r =
  {| totalFiles := totalFiles acc;
     totalIssues := totalIssues acc + length (issues r);
     issuesByType := fold_left (fun m i => tally (kindOf i) m) (issues r) (issuesByType acc);
     issuesByCategory :=
       fold_left (fun m i => tally (categoryOf i) m) (issues r) (issuesByCategory acc);
     filesWithIssues := filesWithIssues acc + length (filter hasIssues [r]) |}.
Proof.
  unfold countReview. destruct (issues r) as [|i l] eqn:E.
  - simpl. rewrite filter_cons_False by (unfold hasIssues; rewrite E; tauto).
    simpl. destruct acc; simpl; f_equal; lia.
  - cbn [length Nat.ltb Nat.leb]. rewrite countIssue_fold.
    rewrite filter_cons_True by (unfold hasIssues; rewrite E; discriminate).
    reflexivity.
Qed.

Lemma fold_countReview rs acc :
  let out := fold_left countReview rs acc in
  totalFiles out = totalFiles acc
  /\ totalIssues out = totalIssues acc + length (allIssues rs)
  /\ filesWithIssues out = filesWithIssues acc + length (filter hasIssues rs)
  /\ (forall k, issuesByType out !! k
                = bump (occurrences kindOf k (allIssues rs)) (issuesByType acc !! k))
  /\ (forall k, issuesByCategory out !! k
                = bump (occurrences categoryOf k (allIssues rs)) (issuesByCategory acc !! k)).
Proof.
  revert acc. induction rs as [|r rs IH]; intros acc; simpl.
  - repeat split; lia.
  - destruct (IH (countReview acc r)) as (H1 & H2 & H3 & H4 & H5).
    pose proof (f_equal totalFiles (countReview_spec acc r)) as E1.
    pose proof (f_equal totalIssues (countReview_spec acc r)) as E2.
    pose proof (f_equal filesWithIssues (countReview_spec acc r)) as E3.
    pose proof (f_equal issuesByType (countReview_spec acc r)) as E4.
    pose proof (f_equal issuesByCategory (countReview_spec acc r)) as E5.
    cbn [totalFiles totalIssues filesWithIssues issuesByType issuesByCategory] in E1, E2, E3, E4, E5.
    unfold allIssues in *. cbn [flat_map].
    split; [congruence|]. split; [rewrite H2, E2, length_app; lia|].
    split.
    { rewrite H3, E3. rewrite (filter_cons _ r rs).
      destruct (decide (hasIssues r)).
      - rewrite filter_cons_True by done. simpl. lia.
      - rewrite filter_cons_False by done. simpl. lia. }
    unfold occurrences in *.
    split; intros k; [rewrite H4, E4 | rewrite H5, E5]; rewrite fold_tally; unfold occurrences;
      rewrite filter_app, length_app;
      destruct (length (filter _ (issues r))), (length (filter _ (flat_map issues rs)));
      simpl; try reflexivity; f_equal; lia.
Qed.

(** The summary of a list of reviews, field by field. *)
Lemma generateSummary_spec rs :
  totalFiles (generateSummary rs) = length rs
  /\ totalIssues (generateSummary rs) = length (allIssues rs)
  /\ filesWithIssues (generateSummary rs) = length (filter hasIssues rs)
  /\ (forall k, issuesByType (generateSummary rs) !! k
                = entry (occurrences kindOf k (allIssues rs)))
  /\ (forall k, issuesByCategory (generateSummary rs) !! k
                = entry (occurrences categoryOf k (allIssues rs))).
Proof.
  unfold generateSummary.
  destruct (fold_countReview rs
    {| totalFiles := length rs; totalIssues := 0; issuesByType := ∅;
       issuesByCategory := ∅; filesWithIssues := 0 |}) as (H1 & H2 & H3 & H4 & H5).
  simpl in *. repeat split; try done.
Qed.

End AggregatorFacts.

(** ** Relations that every step of a session maintains *)

Section Keeps.
Context {engine : JsEngine}.
Variable R : Session -> Session -> Prop.
Hypothesis R_refl : forall s, R s s.
Hypothesis R_trans : forall a b c, R a b -> R b c -> R a c.

(** [m] relates the state it starts from to the state it ends in,
    whether it returns or throws. *)
Definition Keeps {A} (m : M A) : Prop := forall s o s', m s = (o, s') -> R s s'.

Lemma Keeps_ret {A} (a : A) : Keeps (ret a).
Proof. intros s o s' [= _ <-]. apply R_refl. Qed.

Lemma Keeps_throw {A} e : Keeps (@throw _ A e).
Proof. intros s o s' [= _ <-]. apply R_refl. Qed.

Lemma Keeps_gets {A} (f : Session -> A) : Keeps (gets f).
Proof. intros s o s' [= _ <-]. apply R_refl. Qed.

Lemma Keeps_lift {A} (o : Outcome A) : Keeps (lift o).
Proof. intros s o' s' [= _ <-]. apply R_refl. Qed.

Lemma Keeps_modify f : (forall s, R s (f s)) -> Keeps (modify f).
Proof. intros H s o s' [= _ <-]. apply H. Qed.

Lemma Keeps_bind {A B} (m : M A) (k : A -> M B) :
  Keeps m -> (forall a, Keeps (k a)) -> Keeps (bind m k).
Proof.
  intros Hm Hk s o s'. unfold bind. destruct (m s) as [[a|e] s1] eqn:E.
  - intros H. eapply R_trans; [eapply Hm, E | eapply Hk, H].
  - intros [= _ <-]. eapply Hm, E.
Qed.

Lemma Keeps_tryCatch {A} (m : M A) (h : jsstring -> M A) :
  Keeps m -> (forall e, Keeps (h e)) -> Keeps (tryCatch m h).
Proof.
  intros Hm Hh s o s'. unfold tryCatch. destruct (m s) as [[a|e] s1] eqn:E.
  - intros [= _ <-]. eapply Hm, E.
  - intros H. eapply R_trans; [eapply Hm, E | eapply Hh, H].
Qed.

End Keeps.

Create HintDb keeps.

(** Splits a goal [Keeps R m] along the structure of [m]; the hint database
    [keeps] holds the proofs that [R] is a preorder. *)
Ltac keeps_side := solve [assumption | eauto with keeps].
Ltac keeps_step :=
  lazymatch goal with
  | |- Keeps _ (bind _ _) => apply Keeps_bind; [keeps_side | | intros ?]
  | |- Keeps _ (tryCatch _ _) => apply Keeps_tryCatch; [keeps_side | | intros ?]
  | |- Keeps _ (ret _) => apply Keeps_ret; keeps_side
  | |- Keeps _ (throw _) => apply Keeps_throw; keeps_side
  | |- Keeps _ (gets _) => apply Keeps_gets; keeps_side
  | |- Keeps _ (lift _) => apply Keeps_lift; keeps_side
  | |- Keeps _ (match ?x with _ => _ end) => destruct x
  end.

Section Quiet.
Context {engine : JsEngine}.

(** A logger that does nothing but hand its arguments to the log
    subscribers, as the one [analyzeFile] passes does. *)
Definition Quiet (log : Logger) : Prop :=
  match log with
  | None => True
  | Some f => forall phase info s, exists e, f phase info s = (Ok tt, addLog e s)
  end.

Lemma logWith_quiet log phase info s :
  Quiet log ->
  exists s', logWith log phase info s = (Ok tt, s')
             /\ service s' = service s /\ requests s' = requests s
             /\ clock s' = clock s /\ progress s' = progress s
             /\ progressEvents s' = progressEvents s
             /\ logEvents s `prefix_of` logEvents s'.
Proof.
  destruct log as [f|]; simpl; intros H.
  - destruct (H phase (Some info) s) as [e ->]. eexists; split; [reflexivity|].
    simpl. repeat split; try reflexivity. by apply prefix_app_r.
  - exists s. repeat split; reflexivity.
Qed.

End Quiet.

(** ** Remote review client: what a review leaves as it was *)

Section Harmless.
Context {engine : JsEngine}.

(** An update of the client that leaves its configuration and its
    counters alone. *)
Definition Harmless (f : AIService -> AIService) : Prop :=
  forall a, stats (f a) = stats a /\ apiKey (f a) = apiKey a /\ model (f a) = model a
            /\ connectionMode (f a) = connectionMode a /\ proxyUrl (f a) = proxyUrl a.

(** Between [s] and [s'] the configuration and the counters of the client
    are the same, and the logs and the requests have only grown. *)
Definition Stable (s s' : Session) : Prop :=
  stats (service s') = stats (service s)
  /\ apiKey (service s') = apiKey (service s)
  /\ model (service s') = model (service s)
  /\ connectionMode (service s') = connectionMode (service s)
  /\ proxyUrl (service s') = proxyUrl (service s)
  /\ logEvents s `prefix_of` logEvents s'
  /\ requests s `prefix_of` requests s'.

(** Between [s] and [s'] the logs and the requests have only grown, and
    the progress record says the same about the session as a whole. *)
Definition Orderly (s s' : Session) : Prop :=
  logEvents s `prefix_of` logEvents s'
  /\ requests s `prefix_of` requests s'
  /\ Progress.totalFiles (progress s') = Progress.totalFiles (progress s)
  /\ Progress.status (progress s') = Progress.status (progress s).

End Harmless.

Abbreviation Steady := (Keeps Stable).

(** The steps of the client keep every preorder that its four ways of
    touching the session keep. *)
Section ClientKeeps.
Context {engine : JsEngine}.
Variable network : nat -> Request -> Fetched.
Variable R : Session -> Session -> Prop.
Hypothesis R_refl : forall s, R s s.
Hypothesis R_trans : forall a b c, R a b -> R b c -> R a c.
Hypothesis R_addLog : forall e s, R s (addLog e s).
Hypothesis R_advance : forall ms s, R s (advance ms s).
Hypothesis R_addRequest : forall r s, R s (addRequest r s).
Hypothesis R_service : forall f s, Harmless f -> R s (setService f s).

Lemma Keeps_logWith log phase info : Quiet log -> Keeps R (logWith log phase info).
Proof.
  intros Q s o s' H. destruct log as [f|]; simpl in *.
  - destruct (Q phase (Some info) s) as [e E]. rewrite E in H. injection H as _ <-.
    apply R_addLog.
  - injection H as _ <-. apply R_refl.
Qed.

Lemma Keeps_fetch r : Keeps R (fetch network r).
Proof.
  unfold fetch. repeat keeps_step; apply Keeps_modify; intros s; auto.
Qed.

Lemma Keeps_json res : Keeps R (json res).
Proof. unfold json, text. repeat keeps_step. Qed.

Lemma Keeps_sleep ms : Keeps R (sleep ms).
Proof. apply Keeps_modify. auto. Qed.

Lemma Keeps_enforceRateLimit modelId : Keeps R (enforceRateLimit modelId).
Proof.
  unfold enforceRateLimit, updateService.
  repeat keeps_step; try apply Keeps_sleep.
  apply Keeps_modify. intros s. apply R_service. intros ?. repeat split.
Qed.

Lemma Keeps_warn modelId : Keeps R (warn modelId).
Proof. apply Keeps_modify. intros s. apply R_service. intros ?. repeat split. Qed.

Ltac client_step Q :=
  first [ apply Keeps_logWith; exact Q | apply Keeps_fetch | apply Keeps_json
        | apply Keeps_warn | keeps_step ].

Lemma Keeps_tryEndpoint log cfg key body u :
  Quiet log -> Keeps R (tryEndpoint network log cfg key body u).
Proof. intros Q. unfold tryEndpoint, text. repeat client_step Q. Qed.

Lemma Keeps_doDirectFrom log cfg key body lastErr us :
  Quiet log -> Keeps R (doDirectFrom network log cfg key body lastErr us).
Proof.
  intros Q. revert lastErr. induction us as [|u us IH]; intros lastErr; simpl.
  - repeat keeps_step.
  - keeps_step; [by apply Keeps_tryEndpoint|]. destruct a; [keeps_step | apply IH].
Qed.

Lemma Keeps_doProxy log key body : Quiet log -> Keeps R (doProxy network log key body).
Proof. intros Q. unfold doProxy, text. repeat client_step Q. Qed.

Lemma Keeps_dispatchChat log cfg key body :
  Quiet log -> Keeps R (dispatchChat network log cfg key body).
Proof.
  intros Q. unfold dispatchChat, doDirect.
  repeat first [ apply Keeps_doProxy; exact Q | apply Keeps_doDirectFrom; exact Q
               | client_step Q ].
Qed.

Lemma Keeps_dispatchMessages log cfg m key prompt :
  Quiet log -> Keeps R (dispatchMessages network log cfg m key prompt).
Proof. intros Q. unfold dispatchMessages. repeat client_step Q. Qed.

Lemma Keeps_requestReply log m key prompt :
  Quiet log -> Keeps R (requestReply network log m key prompt).
Proof.
  intros Q. unfold requestReply.
  repeat first [ apply Keeps_dispatchChat; exact Q | apply Keeps_dispatchMessages; exact Q
               | client_step Q ].
Qed.

(** With the counters free to move, the whole of [reviewCode] keeps [R]. *)
Hypothesis R_any : forall f s, R s (setService f s).

Lemma Keeps_reviewCode filePath code_ language standards_ log :
  Quiet log -> Keeps R (reviewCode network filePath code_ language standards_ log).
Proof.
  intros Q. unfold reviewCode, reviewTry, acceptReply, countSuccess, countFailure,
    setStats, updateService.
  repeat first [ apply Keeps_requestReply; exact Q | apply Keeps_enforceRateLimit
               | apply Keeps_modify; intros ?; apply R_any
               | client_step Q ].
Qed.

End ClientKeeps.

Section Stable.
Context {engine : JsEngine}.
Variable network : nat -> Request -> Fetched.

Lemma Stable_refl s : Stable s s.
Proof. repeat split; reflexivity. Qed.

Lemma Stable_trans a b c : Stable a b -> Stable b c -> Stable a c.
Proof.
  intros (H1 & H2 & H3 & H4 & H5 & H6 & H7) (G1 & G2 & G3 & G4 & G5 & G6 & G7).
  repeat split; try congruence; etrans; eassumption.
Qed.

Lemma Stable_addLog e s : Stable s (addLog e s).
Proof. repeat split; simpl; try reflexivity. by apply prefix_app_r. Qed.

Lemma Stable_advance ms s : Stable s (advance ms s).
Proof. repeat split; reflexivity. Qed.

Lemma Stable_addRequest r s : Stable s (addRequest r s).
Proof. repeat split; simpl; try reflexivity. by apply prefix_app_r. Qed.

Lemma Stable_service f s : Harmless f -> Stable s (setService f s).
Proof. intros H. destruct (H (service s)) as (?&?&?&?&?). repeat split; simpl; done. Qed.

Lemma Steady_logWith log phase info : Quiet log -> Steady (logWith log phase info).
Proof. apply Keeps_logWith; [apply Stable_refl | apply Stable_addLog]. Qed.

Lemma Steady_enforceRateLimit modelId : Steady (enforceRateLimit modelId).
Proof.
  apply Keeps_enforceRateLimit;
    [apply Stable_refl | apply Stable_trans | apply Stable_advance | apply Stable_service].
Qed.

Lemma Steady_requestReply log m key prompt :
  Quiet log -> Steady (requestReply network log m key prompt).
Proof.
  apply Keeps_requestReply;
    [ apply Stable_refl | apply Stable_trans | apply Stable_addLog | apply Stable_advance
    | apply Stable_addRequest | apply Stable_service ].
Qed.

End Stable.

(** ** Remote review client: the outcome of [reviewCode] *)

Section ReviewCode.
Context {engine : JsEngine}.
Variable network : nat -> Request -> Fetched.

#[local] Hint Resolve Stable_refl Stable_trans : keeps.

(** [this.stats.success++] and the two assignments of the [catch] block *)
Definition succeeded (st : Stats) : Stats :=
  {| success := success st + 1; fail := fail st; lastError := lastError st |}.
Definition failed (e : jsstring) (st : Stats) : Stats :=
  {| success := success st; fail := fail st + 1; lastError := Some e |}.

(** As [Stable], but for the counters, which went through [f]. *)
Definition Tallied (f : Stats -> Stats) (s s' : Session) : Prop :=
  stats (service s') = f (stats (service s))
  /\ apiKey (service s') = apiKey (service s)
  /\ model (service s') = model (service s)
  /\ connectionMode (service s') = connectionMode (service s)
  /\ proxyUrl (service s') = proxyUrl (service s)
  /\ logEvents s `prefix_of` logEvents s'
  /\ requests s `prefix_of` requests s'.

Lemma Tallied_after f a b c : Stable a b -> Tallied f b c -> Tallied f a c.
Proof.
  intros (H1 & H2 & H3 & H4 & H5 & H6 & H7) (G1 & G2 & G3 & G4 & G5 & G6 & G7).
  repeat split; try congruence; etrans; eassumption.
Qed.

Lemma Tallied_before f a b c : Tallied f a b -> Stable b c -> Tallied f a c.
Proof.
  intros (H1 & H2 & H3 & H4 & H5 & H6 & H7) (G1 & G2 & G3 & G4 & G5 & G6 & G7).
  repeat split; try congruence; etrans; eassumption.
Qed.

Lemma bind_inv {A B} (m : M A) (k : A -> M B) s o s' :
  bind m k s = (o, s') ->
  (exists e, m s = (Throw e, s') /\ o = Throw e)
  \/ (exists a s1, m s = (Ok a, s1) /\ k a s1 = (o, s')).
Proof.
  unfold bind. destruct (m s) as [[a|e] s1]; intros H.
  - right. eauto.
  - left. injection H as <- <-. eauto.
Qed.

Lemma countSuccess_spec s :
  exists s', countSuccess s = (Ok tt, s') /\ Tallied succeeded s s'.
Proof. eexists. split; [reflexivity|]. repeat split; reflexivity. Qed.

Lemma countFailure_spec e s :
  exists s', countFailure e s = (Ok tt, s') /\ Tallied (failed e) s s'.
Proof. eexists. split; [reflexivity|]. repeat split; reflexivity. Qed.

(** What [acceptReply] returns when it returns. *)
Definition accepted (filePath code_ : jsstring) (responseText : Value) : CodeReview :=
  let l := normalizeIssuesFromText responseText filePath code_ in
  {| file := filePath; issues := l;
     summary := js "审查完成，发现" ++ decimal (length l) ++ js "个问题" |}.

(** What the [catch] block of [reviewCode] returns. *)
Definition degraded (filePath code_ : jsstring) : CodeReview :=
  {| file := filePath; issues := [failIssue code_];
     summary := js "AI调用失败，返回降级结果" |}.

Lemma acceptReply_spec log filePath code_ start responseText s o s' :
  Quiet log ->
  acceptReply log filePath code_ start responseText s = (o, s') ->
  (exists e, o = Throw e /\ Stable s s')
  \/ (o = Ok (accepted filePath code_ responseText) /\ Tallied succeeded s s').
Proof.
  intros Q. unfold acceptReply.
  change (bind (gets clock) ?k s) with (k (clock s) s). cbv beta.
  intros H. apply bind_inv in H as [(e & H & ->)|([] & s1 & H1 & H)].
  { left. eexists. split; [reflexivity|]. eapply Steady_logWith; eassumption. }
  apply Steady_logWith in H1 as S1; [|assumption].
  apply bind_inv in H as [(e & H & ->)|([] & s2 & H2 & H)].
  { left. eexists. split; [reflexivity|]. eapply Stable_trans; [exact S1|].
    revert H. destruct log; [|discriminate].
    intros H. apply bind_inv in H as [(e' & H & _)|(v & s3 & H3 & H)].
    - unfold lift in H. injection H as _ <-. apply Stable_refl.
    - unfold lift in H3. injection H3 as _ <-. eapply Steady_logWith; eassumption. }
  assert (Stable s1 s2) as S2.
  { revert H2. destruct log; [|intros [= <-]; apply Stable_refl].
    intros H2. apply bind_inv in H2 as [(e' & H2 & [=])|(v & s3 & H3 & H2)].
    unfold lift in H3. injection H3 as _ <-. eapply Steady_logWith; eassumption. }
  destruct (countSuccess_spec s2) as (s3 & E3 & T3).
  rewrite (bind_step _ _ _ _ _ E3) in H.
  apply bind_inv in H as [(e & H & ->)|([] & s4 & H4 & H)].
  { destruct (logWith_quiet log (js "AI结果生成")
                (str (js "审查完成，发现"
                      ++ decimal (length (normalizeIssuesFromText responseText filePath code_))
                      ++ js "个问题")) s3 Q) as (s5 & E5 & _).
    rewrite E5 in H. discriminate. }
  apply Steady_logWith in H4 as S4; [|assumption].
  injection H as <- <-. right. split; [reflexivity|].
  eapply Tallied_before; [|exact S4].
  eapply Tallied_after; [|exact T3].
  eapply Stable_trans; eassumption.
Qed.

Lemma reviewTry_spec log m key filePath code_ prompt start s o s' :
  Quiet log ->
  reviewTry network log m key filePath code_ prompt start s = (o, s') ->
  (exists e, o = Throw e /\ Stable s s')
  \/ (exists responseText,
        o = Ok (accepted filePath code_ responseText) /\ Tallied succeeded s s').
Proof.
  intros Q H. unfold reviewTry in H.
  apply bind_inv in H as [(e & H & ->)|(rt & s1 & H1 & H)].
  { left. eexists. split; [reflexivity|]. eapply Steady_requestReply; eassumption. }
  apply Steady_requestReply in H1 as S1; [|assumption].
  destruct (acceptReply_spec _ _ _ _ _ _ _ _ Q H) as [(e & -> & S2)|(-> & T2)].
  - left. eexists. split; [reflexivity|]. eapply Stable_trans; eassumption.
  - right. eexists. split; [reflexivity|]. eapply Tallied_after; eassumption.
Qed.

Lemma logWith_bind {B} log phase info (k : unit -> M B) s o s' :
  Quiet log ->
  bind (logWith log phase info) k s = (o, s') ->
  exists s1, Stable s s1 /\ k tt s1 = (o, s').
Proof.
  intros Q H. destruct (logWith_quiet log phase info s Q) as (s1 & E & _).
  rewrite (bind_step _ _ _ _ _ E) in H. exists s1. split; [|exact H].
  eapply Steady_logWith; eassumption.
Qed.

Lemma enforceRateLimit_returns modelId s :
  exists s1, enforceRateLimit modelId s = (Ok tt, s1) /\ Stable s s1.
Proof.
  destruct (enforceRateLimit modelId s) as [o s1] eqn:E. exists s1.
  pose proof (Steady_enforceRateLimit modelId s o s1 E) as S1.
  split; [|exact S1]. revert E. unfold enforceRateLimit, bind, gets, sleep, updateService, modify, ret.
  destruct (_ <? _); intros [= <- _]; reflexivity.
Qed.

(** The two ways [reviewCode] comes back once it is past its guard, and
    the one way it does not. *)
Lemma reviewCode_outcome filePath code_ language standards_ log s o s' :
  Quiet log ->
  reviewCode network filePath code_ language standards_ log s = (o, s') ->
  match apiKey (service s), model (service s) with
  | _ :: _, Some m =>
      (exists responseText,
         o = Ok (accepted filePath code_ responseText) /\ Tallied succeeded s s')
      \/ (exists e, o = Ok (degraded filePath code_) /\ Tallied (failed e) s s')
  | _, _ => o = Throw (js "请先设置API密钥和选择模型") /\ s' = s
  end.
Proof.
  intros Q. unfold reviewCode.
  change (bind (gets ?f) ?k s) with (k (f s) s). cbv beta.
  change (bind (gets ?f) ?k s) with (k (f s) s). cbv beta.
  destruct (apiKey (service s)) as [|c key] eqn:Ek.
  { destruct (model (service s)); intros [= <- <-]; split; reflexivity. }
  destruct (model (service s)) as [m|] eqn:Em; [|intros [= <- <-]; split; reflexivity].
  intros H.
  apply logWith_bind in H as (s1 & S1 & H); [|assumption].
  change (bind (gets ?f) ?k s1) with (k (f s1) s1) in H. cbv beta in H.
  apply logWith_bind in H as (s2 & S2 & H); [|assumption].
  destruct (enforceRateLimit_returns (model_id m) s2) as (s3 & E3 & S3).
  rewrite (bind_step _ _ _ _ _ E3) in H.
  change (bind (gets ?f) ?k s3) with (k (f s3) s3) in H. cbv beta in H.
  apply logWith_bind in H as (s4 & S4 & H); [|assumption].
  assert (Stable s s4) as S by (repeat (eapply Stable_trans; [eassumption|]); apply Stable_refl).
  unfold tryCatch in H.
  destruct (reviewTry _ _ _ _ _ _ _ _ s4) as [[r|e] s5] eqn:E5.
  - injection H as <- <-.
    destruct (reviewTry_spec _ _ _ _ _ _ _ _ _ _ Q E5) as [(e & [=] & _)|(rt & [= ->] & T)].
    left. exists rt. split; [reflexivity|]. eapply Tallied_after; eassumption.
  - destruct (reviewTry_spec _ _ _ _ _ _ _ _ _ _ Q E5) as [(e' & [= <-] & S5)|(rt & [=] & _)].
    apply logWith_bind in H as (s6 & S6 & H); [|assumption].
    destruct (countFailure_spec e s6) as (s7 & E7 & T7).
    rewrite (bind_step _ _ _ _ _ E7) in H. injection H as <- <-.
    right. exists e. split; [reflexivity|].
    eapply Tallied_after; [|exact T7].
    repeat (eapply Stable_trans; [eassumption|]). apply Stable_refl.
Qed.

End ReviewCode.

(** ** Orchestrator: one review per file that is not blank *)

Section Pipeline.
Context {engine : JsEngine}.
Variable gitService : GitService.
Variable network : nat -> Request -> Fetched.
Variable standardsContent : jsstring.

(** The logger that [analyzeFile] hands to [reviewCode]. *)
Definition forwardLog : Logger := Some (fun phase info => emitLog LogInfo phase info).

(** A file whose content was read and is empty or white space only. *)
Definition isBlank (filePath : jsstring) : bool :=
  match readFileContent gitService filePath with
  | Ok content => bool_decide (trim content = [])
  | Throw _ => false
  end.

(** The heuristic findings for a file. *)
Definition heuristicIssues (filePath content : jsstring) : list CodeIssue :=
  performBasicCodeCheck filePath content (detectLanguage filePath).

(** The four reviews the loop can push for a file. *)
Definition unreadable (filePath msg : jsstring) : CodeReview :=
  {| file := filePath; issues := []; summary := js "审查失败: " ++ msg |}.

Definition oversized (filePath : jsstring) : CodeReview :=
  {| file := filePath; issues := []; summary := js "文件过大，跳过分析" |}.

Definition merged (filePath content : jsstring) (aiReview : CodeReview) : CodeReview :=
  let allIssues := heuristicIssues filePath content ++ issues aiReview in
  {| file := filePath; issues := allIssues;
     summary := js "发现" ++ decimal (length allIssues) ++ js "个问题" |}.

Definition heuristicOnly (filePath content : jsstring) : CodeReview :=
  {| file := filePath; issues := heuristicIssues filePath content;
     summary := js "基础检查完成，发现" ++ decimal (length (heuristicIssues filePath content))
                ++ js "个问题 (AI分析失败)" |}.

Definition logged (lvl : LogLevel) (msg info : jsstring) : LogEvent :=
  {| level := lvl; logMessage := msg; details := Some (str info) |}.

(** The turn of the loop for [filePath], the [i]-th file of the listing,
    taken from the session state [s]: the state after the progress update
    that opens the turn (line 111), after the log event about the language
    (line 124), and the one in which [analyzeFile] calls the remote client,
    after its own log event about the heuristic findings (line 203). *)
Definition opened (filePath : jsstring) (i : nat) (s : Session) : Session :=
  setProgress
    {| Progress.totalFiles := Progress.totalFiles (progress s);
       Progress.processedFiles := i; Progress.currentFile := filePath;
       Progress.status := Progress.status (progress s);
       Progress.error := Progress.error (progress s) |} s.

Definition detected (filePath : jsstring) (i : nat) (s : Session) : Session :=
  addLog (logged LogInfo (js "语言检测") (filePath ++ js " -> " ++ detectLanguage filePath))
    (opened filePath i s).

Definition atRemoteCall (filePath content : jsstring) (i : nat) (s : Session) : Session :=
  addLog (logged LogInfo (js "基础检查")
            (filePath ++ js " -> " ++ decimal (length (heuristicIssues filePath content))
             ++ js " 问题"))
    (detected filePath i s).

(** The end of a turn in which [analyzeFile] returned [r]: the log event
    and the pause of lines 129-132. *)
Definition closed (filePath : jsstring) (r : CodeReview) (s : Session) : Session :=
  advance 500
    (addLog (logged LogInfo (js "分析完成")
               (filePath ++ js " -> 问题 " ++ decimal (length (issues r)))) s).

(** The turn of a blank file: the warning, and no review. *)
Definition skipped (filePath : jsstring) (i : nat) (s : Session) : Session :=
  addLog (logged LogWarning (js "空文件跳过") filePath) (opened filePath i s).

(** [Reviewed filePath i s review s']: the turn of the loop for [filePath],
    the [i]-th file, taken from the state [s], pushes [review] and leaves
    the session in [s'].  The remote client is the one call of [reviewCode]
    that [analyzeFile] makes, in the state [atRemoteCall filePath content i s]. *)
Inductive Reviewed (filePath : jsstring) (i : nat) (s : Session)
  : CodeReview -> Session -> Prop :=
| ReadFailed msg :
    readFileContent gitService filePath = Throw msg ->
    Reviewed filePath i s (unreadable filePath msg)
      (addLog (logged LogError (js "文件审查失败") (filePath ++ js " - " ++ msg))
         (opened filePath i s))
| TooLarge content :
    readFileContent gitService filePath = Ok content ->
    trim content <> [] ->
    MAX_CONTENT < length content ->
    Reviewed filePath i s (oversized filePath)
      (closed filePath (oversized filePath)
         (addLog (logged LogWarning (js "文件过大跳过")
                    (filePath ++ js " (" ++ kilobytes (length content) ++ js "KB)"))
            (detected filePath i s)))
| Merged content aiReview s2 :
    readFileContent gitService filePath = Ok content ->
    trim content <> [] ->
    length content <= MAX_CONTENT ->
    reviewCode network filePath content (detectLanguage filePath) standardsContent
      forwardLog (atRemoteCall filePath content i s) = (Ok aiReview, s2) ->
    Reviewed filePath i s (merged filePath content aiReview)
      (closed filePath (merged filePath content aiReview) s2)
| RemoteThrew content e s2 :
    readFileContent gitService filePath = Ok content ->
    trim content <> [] ->
    length content <= MAX_CONTENT ->
    reviewCode network filePath content (detectLanguage filePath) standardsContent
      forwardLog (atRemoteCall filePath content i s) = (Throw e, s2) ->
    Reviewed filePath i s (heuristicOnly filePath content)
      (closed filePath (heuristicOnly filePath content)
         (addLog (logged LogError (js "AI分析失败") filePath) s2)).

(** [Reviews files i s reviews s']: the loop over [files], whose first file
    has index [i], taken from the state [s], pushes [reviews], in this
    order, and leaves the session in [s']; each turn starts in the state
    the turn before it has left. *)
Inductive Reviews : list jsstring -> nat -> Session -> list CodeReview -> Session -> Prop :=
| Reviews_done i s : Reviews [] i s [] s
| Reviews_skip filePath files i s reviews_ s' :
    isBlank filePath = true ->
    Reviews files (S i) (skipped filePath i s) reviews_ s' ->
    Reviews (filePath :: files) i s reviews_ s'
| Reviews_push filePath files i s review s1 reviews_ s' :
    isBlank filePath = false ->
    Reviewed filePath i s review s1 ->
    Reviews files (S i) s1 reviews_ s' ->
    Reviews (filePath :: files) i s (review :: reviews_) s'.

Lemma forwardLog_quiet : Quiet forwardLog.
Proof. intros phase info s. eexists. reflexivity. Qed.

Lemma Orderly_refl s : Orderly s s.
Proof. repeat split; reflexivity. Qed.

Lemma Orderly_trans a b c : Orderly a b -> Orderly b c -> Orderly a c.
Proof.
  intros (H1 & H2 & H3 & H4) (G1 & G2 & G3 & G4).
  repeat split; try congruence; etrans; eassumption.
Qed.

Lemma Orderly_addLog e s : Orderly s (addLog e s).
Proof. repeat split; simpl; try reflexivity. by apply prefix_app_r. Qed.

Lemma Orderly_advance ms s : Orderly s (advance ms s).
Proof. repeat split; reflexivity. Qed.

Lemma Orderly_addRequest r s : Orderly s (addRequest r s).
Proof. repeat split; simpl; try reflexivity. by apply prefix_app_r. Qed.

Lemma Orderly_service f s : Orderly s (setService f s).
Proof. repeat split; reflexivity. Qed.

#[local] Hint Resolve Orderly_refl Orderly_trans : keeps.

Lemma Orderly_emitLog lvl msg info : Keeps Orderly (emitLog lvl msg info).
Proof. apply Keeps_modify. intros s. apply Orderly_addLog. Qed.

Lemma Orderly_reviewCode filePath content language :
  Keeps Orderly (reviewCode network filePath content language standardsContent forwardLog).
Proof.
  apply Keeps_reviewCode;
    [ apply Orderly_refl | apply Orderly_trans | apply Orderly_addLog | apply Orderly_advance
    | apply Orderly_addRequest | intros; apply Orderly_service | apply Orderly_service
    | apply forwardLog_quiet ].
Qed.

Lemma Orderly_analyzeFile filePath content language :
  Keeps Orderly (analyzeFile network filePath content language standardsContent).
Proof.
  unfold analyzeFile.
  repeat first [ apply Orderly_emitLog | apply Orderly_reviewCode | keeps_step ].
Qed.

Lemma Orderly_reviewFile filePath i :
  Keeps Orderly (reviewFile gitService network filePath standardsContent i).
Proof.
  unfold reviewFile, reviewFileTry, updateProgress.
  repeat first [ apply Orderly_emitLog | apply Orderly_analyzeFile
               | apply Keeps_sleep; [apply Orderly_advance]
               | apply Keeps_modify; intros ?; repeat split; reflexivity
               | keeps_step ].
Qed.

Lemma Orderly_reviewFiles files i acc :
  Keeps Orderly (reviewFiles gitService network files standardsContent i acc).
Proof.
  revert i acc. induction files as [|f files IH]; intros i acc; simpl.
  - keeps_step.
  - keeps_step; [apply Orderly_reviewFile|apply IH].
Qed.

(** [analyzeFile], path by path: the remote client is called once, after
    the log event about the heuristic findings, and what it returns or
    throws decides between the merge and the heuristic findings alone. *)
Lemma analyzeFile_spec filePath content s :
  analyzeFile network filePath content (detectLanguage filePath) standardsContent s
  = if MAX_CONTENT <? length content then
      (Ok (oversized filePath),
       addLog (logged LogWarning (js "文件过大跳过")
                 (filePath ++ js " (" ++ kilobytes (length content) ++ js "KB)")) s)
    else
      match reviewCode network filePath content (detectLanguage filePath) standardsContent
              forwardLog
              (addLog (logged LogInfo (js "基础检查")
                         (filePath ++ js " -> "
                          ++ decimal (length (heuristicIssues filePath content))
                          ++ js " 问题")) s) with
      | (Ok aiReview, s2) => (Ok (merged filePath content aiReview), s2)
      | (Throw _, s2) =>
          (Ok (heuristicOnly filePath content),
           addLog (logged LogError (js "AI分析失败") filePath) s2)
      end.
Proof.
  unfold analyzeFile, tryCatch.
  destruct (MAX_CONTENT <? length content); [reflexivity|].
  unfold bind at 1. unfold emitLog at 1. unfold modify at 1.
  unfold bind at 1. fold forwardLog. fold (heuristicIssues filePath content).
  unfold logged, str.
  destruct (reviewCode _ _ _ _ _ forwardLog _) as [[ai|e] s2]; reflexivity.
Qed.

(** One turn of the loop, path by path. *)
Lemma reviewFile_spec filePath i s :
  reviewFile gitService network filePath standardsContent i s
  = match readFileContent gitService filePath with
    | Throw msg =>
        (Ok (Some (unreadable filePath msg)),
         addLog (logged LogError (js "文件审查失败") (filePath ++ js " - " ++ msg))
           (opened filePath i s))
    | Ok content =>
        match trim content with
        | [] => (Ok None, skipped filePath i s)
        | _ :: _ =>
            match analyzeFile network filePath content (detectLanguage filePath)
                    standardsContent (detected filePath i s) with
            | (Ok review, s2) => (Ok (Some review), closed filePath review s2)
            | (Throw msg, s2) =>
                (Ok (Some (unreadable filePath msg)),
                 addLog (logged LogError (js "文件审查失败") (filePath ++ js " - " ++ msg)) s2)
            end
        end
    end.
Proof.
  unfold reviewFile.
  unfold bind at 1. unfold updateProgress at 1. unfold modify at 1.
  fold (opened filePath i s). unfold tryCatch, reviewFileTry.
  unfold bind at 1. unfold lift at 1.
  destruct (readFileContent gitService filePath) as [content|msg]; [|reflexivity].
  destruct (trim content) as [|c t]; [reflexivity|].
  unfold bind at 1. unfold emitLog at 1. unfold modify at 1.
  change (addLog _ (opened filePath i s)) with (detected filePath i s).
  unfold bind at 1.
  destruct (analyzeFile _ _ _ _ _ (detected filePath i s)) as [[review|msg] s2]; reflexivity.
Qed.

(** A turn pushes nothing for a blank file and one review, as [Reviewed]
    has it, for any other; it never throws. *)
Lemma reviewFile_turn filePath i s :
  (isBlank filePath = true
   /\ reviewFile gitService network filePath standardsContent i s
      = (Ok None, skipped filePath i s))
  \/ (isBlank filePath = false
      /\ exists review s1,
           reviewFile gitService network filePath standardsContent i s = (Ok (Some review), s1)
           /\ Reviewed filePath i s review s1).
Proof.
  rewrite reviewFile_spec. unfold isBlank.
  destruct (readFileContent gitService filePath) as [content|msg] eqn:Er.
  - destruct (trim content) as [|c t] eqn:Et.
    + left. split; [by apply bool_decide_eq_true|reflexivity].
    + right. split; [apply bool_decide_eq_false; congruence|].
      assert (trim content <> []) as Hne by (rewrite Et; discriminate).
      rewrite analyzeFile_spec.
      destruct (MAX_CONTENT <? length content) eqn:E.
      * apply Nat.ltb_lt in E. eexists _, _. split; [reflexivity|].
        eapply TooLarge; eassumption.
      * apply Nat.ltb_ge in E. fold (atRemoteCall filePath content i s).
        destruct (reviewCode _ _ _ _ _ forwardLog _) as [[ai|e] s2] eqn:E2.
        -- eexists _, _. split; [reflexivity|]. eapply Merged; eassumption.
        -- eexists _, _. split; [reflexivity|]. eapply RemoteThrew; eassumption.
  - right. split; [reflexivity|]. eexists _, _. split; [reflexivity|].
    by apply ReadFailed.
Qed.

Lemma reviewFile_returns filePath i s :
  exists r s1, reviewFile gitService network filePath standardsContent i s = (Ok r, s1).
Proof.
  destruct (reviewFile_turn filePath i s) as [(_ & E)|(_ & r & s1 & E & _)]; eauto.
Qed.

(** The loop never throws, and its turns are those of [Reviews]. *)
Lemma reviewFiles_spec files i acc s :
  exists rs s',
    reviewFiles gitService network files standardsContent i acc s = (Ok (acc ++ rs), s')
    /\ Reviews files i s rs s'.
Proof.
  revert i acc s. induction files as [|f files IH]; intros i acc s; simpl.
  - exists [], s. rewrite app_nil_r. split; [reflexivity|constructor].
  - destruct (reviewFile_turn f i s) as [(Hb & E)|(Hb & r & s1 & E & Hr)];
      rewrite (bind_step _ _ _ _ _ E).
    + destruct (IH (S i) acc (skipped f i s)) as (rs & s' & E' & HR).
      exists rs, s'. split; [exact E'|]. by apply Reviews_skip.
    + destruct (IH (S i) (acc ++ [r]) s1) as (rs & s' & E' & HR).
      exists (r :: rs), s'. split; [by rewrite E', <- app_assoc|].
      eapply Reviews_push; eassumption.
Qed.

(** The files that get a review: those not skipped as blank. *)
Definition reviewable (files : list jsstring) : list jsstring :=
  filter (fun f => isBlank f = false) files.

Lemma Reviewed_file filePath i s r s' : Reviewed filePath i s r s' -> file r = filePath.
Proof. intros []; reflexivity. Qed.

(** Each review of the loop belongs to a turn, file by file. *)
Lemma Reviews_each files i s rs s' :
  Reviews files i s rs s' ->
  Forall2 (fun f r => exists j sj sj', Reviewed f j sj r sj') (reviewable files) rs.
Proof.
  unfold reviewable. induction 1 as [i s|f files i s rs s' Hb _ IH|f files i s r s1 rs s' Hb Hr _ IH].
  - constructor.
  - rewrite filter_cons. destruct (decide (isBlank f = false)); [congruence|exact IH].
  - rewrite filter_cons. destruct (decide (isBlank f = false)); [|congruence].
    constructor; [eauto|exact IH].
Qed.

Lemma Reviews_files files i s rs s' :
  Reviews files i s rs s' -> map file rs = reviewable files.
Proof.
  intros H. apply Reviews_each in H.
  induction H as [|f r fs rs (j & sj & sj' & Hr) _ IH]; [reflexivity|].
  simpl. rewrite IH. f_equal. eapply Reviewed_file, Hr.
Qed.

End Pipeline.

Section Execute.
Context {engine : JsEngine}.
Variable gitService : GitService.
Variable network : nat -> Request -> Fetched.

(** The session state in which the loop starts, for a session taken from
    [s] whose repository was fetched with the message [cloneResult] and
    lists [files]: the four progress updates and the two log events of
    lines 81-105. *)
Definition started (cloneResult : jsstring) (files : list jsstring) (s : Session) : Session :=
  let n := length files in
  let e := Progress.error (progress s) in
  let found := js "找到" ++ decimal n ++ js "个代码文件" in
  let s1 := setProgress {| Progress.totalFiles := 0; Progress.processedFiles := 0;
                           Progress.currentFile := js "正在获取仓库代码...";
                           Progress.status := Cloning; Progress.error := e |} s in
  let s2 := addLog (logged LogInfo (js "代码获取") cloneResult) s1 in
  let s3 := setProgress {| Progress.totalFiles := 0; Progress.processedFiles := 0;
                           Progress.currentFile := js "正在扫描代码文件...";
                           Progress.status := Cloning; Progress.error := e |} s2 in
  let s4 := setProgress {| Progress.totalFiles := n; Progress.processedFiles := 0;
                           Progress.currentFile := found;
                           Progress.status := Cloning; Progress.error := e |} s3 in
  let s5 := addLog (logged LogInfo (js "文件列表") (decimal n ++ js " 个文件")) s4 in
  setProgress {| Progress.totalFiles := n; Progress.processedFiles := 0;
                 Progress.currentFile := found;
                 Progress.status := Analyzing; Progress.error := e |} s5.

(** What a session that returns has gone through. *)
Lemma executeReview_spec repositoryUrl branch_ standardsContent s result s' :
  executeReview gitService network repositoryUrl branch_ standardsContent s = (Ok result, s') ->
  exists cloneResult files s3,
    cloneRepository gitService repositoryUrl branch_ (js "./temp_repo") = Ok cloneResult
    /\ getCodeFiles gitService (js "./temp_repo") = Ok files
    /\ files <> []
    /\ Reviews gitService network standardsContent files 0 (started cloneResult files s)
         (reviews result) s3
    /\ resultSummary result = generateSummary (reviews result)
    /\ Progress.totalFiles (progress s') = length files
    /\ Progress.status (progress s') = Completed.
Proof.
  unfold executeReview.
  change (bind (gets ?f) ?k s) with (k (f s) s). cbv beta.
  unfold tryCatch.
  destruct (executeTry _ _ _ _ _ _ s) as [[r|e] s1] eqn:E; [|discriminate].
  intros [= -> ->]. revert E. unfold executeTry.
  unfold bind at 1. unfold updateProgress at 1. unfold modify at 1.
  unfold bind at 1. unfold lift at 1.
  destruct (cloneRepository _ _ _ _) as [cloneResult|e]; [|discriminate].
  unfold bind at 1. unfold emitLog at 1. unfold modify at 1.
  unfold bind at 1. unfold updateProgress at 1. unfold modify at 1.
  unfold bind at 1. unfold lift at 1.
  destruct (getCodeFiles _ _) as [files|e]; [|discriminate].
  destruct files as [|f files]; [discriminate|].
  set (fs := f :: files) in *.
  unfold bind at 1. unfold updateProgress at 1. unfold modify at 1.
  unfold bind at 1. unfold emitLog at 1. unfold modify at 1.
  unfold bind at 1. unfold updateProgress at 1. unfold modify at 1.
  change (setProgress _ (addLog _ (setProgress _ _))) with (started cloneResult fs s).
  unfold bind at 1.
  destruct (reviewFiles_spec gitService network standardsContent fs 0 []
              (started cloneResult fs s)) as (rs & s3 & E3 & HR).
  rewrite E3. simpl app.
  pose proof (Orderly_reviewFiles _ _ _ _ _ _ _ _ _ E3) as (_ & _ & T3 & _).
  intros [= <- <-]. exists cloneResult, fs, s3.
  split; [reflexivity|]. split; [reflexivity|]. split; [discriminate|].
  split; [exact HR|]. split; [reflexivity|].
  cbn [progress setProgress addLog Progress.totalFiles Progress.status].
  split; [|reflexivity]. rewrite T3. reflexivity.
Qed.

End Execute.

(** ** Concrete sessions *)

Module Scenario.
Import Reference.

Definition idle : ReviewProgress :=
  {| Progress.totalFiles := 0; Progress.processedFiles := 0; Progress.currentFile := [];
     Progress.status := Idle; Progress.error := None |}.

(** A session about to start, with the client in state [a]. *)
Definition fresh (a : AIService) : Session :=
  {| service := a; progress := idle; progressEvents := []; logEvents := [];
     clock := 0; requests := [] |}.

Definition model_ (id_ name_ provider_ : jsstring) : AIModel :=
  {| model_id := id_; model_name := name_; provider := provider_; description := [];
     maxTokens := 8192; supported := true |}.

Definition gpt4 : AIModel := model_ (js "gpt-4") (js "GPT-4") (js "OpenAI").
Definition claude : AIModel :=
  model_ (js "claude-3-sonnet") (js "Claude 3 Sonnet") (js "Anthropic").

(** A client with a key, a model and a relay, in mode [auto]. *)
Definition configured (m : AIModel) : AIService :=
  {| apiKey := js "sk-test"; model := Some m; connectionMode := Auto;
     proxyUrl := js "https://relay.example/";
     requestCountByModel := ∅; lastRequestAtByModel := ∅; warnedProviders := ∅;
     stats := {| success := 0; fail := 0; lastError := None |} |}.

(** Three files; the second one ends in a blank. *)
Definition threeFiles : GitService :=
  {| cloneRepository := fun _ _ _ => Ok (js "cloned");
     getCodeFiles := fun _ => Ok [js "a.ts"; js "b.ts"; js "c.ts"];
     readFileContent := fun p =>
       if bool_decide (p = js "b.ts") then Ok (js "let x = 1; ")
       else Ok (js "ok" ++ [LF]) |}.

(** Three files, of which the second is empty. *)
Definition oneBlank : GitService :=
  {| cloneRepository := fun _ _ _ => Ok (js "cloned");
     getCodeFiles := fun _ => Ok [js "a.ts"; js "b.ts"; js "c.ts"];
     readFileContent := fun p =>
       if bool_decide (p = js "b.ts") then Ok [] else Ok (js "ok" ++ [LF]) |}.

(** One line of 50,001 letters. *)
Definition longContent : jsstring := replicate 50001 97%N.

Definition oneLongFile : GitService :=
  {| cloneRepository := fun _ _ _ => Ok (js "cloned");
     getCodeFiles := fun _ => Ok [js "big.ts"];
     readFileContent := fun _ => Ok longContent |}.

(** No request gets through. *)
Definition offline : nat -> Request -> Fetched :=
  fun _ _ => {| response := Throw (js "Failed to fetch"); elapsed := 30 |}.

(** A chat completion whose text is a JSON array with one issue. *)
Definition reply : jsstring :=
  stringify (JObj [(js "choices",
    JArr [JObj [(js "message",
      JObj [(js "content",
        JStr (stringify (JArr [JObj [(js "line", JNum (Dec 2 0));
                                     (js "type", JStr (js "warning"))]])))])]])]).

(** Only the relay answers. *)
Definition relayOnly : nat -> Request -> Fetched :=
  fun _ r =>
    if startsWith (js "https://relay.example") (url r)
    then {| response := Ok {| ok := true; httpStatus := 200; responseBody := Ok reply |};
            elapsed := 40 |}
    else {| response := Throw (js "Failed to fetch"); elapsed := 30 |}.

End Scenario.

(** ** C1, C10: the summary of a session *)

Section SummaryClaims.
Context {engine : JsEngine}.
Variable gitService : GitService.
Variable network : nat -> Request -> Fetched.

Lemma length_allIssues (rs : list CodeReview) :
  length (allIssues rs) = sum_list (map (fun r => length (issues r)) rs).
Proof.
  unfold allIssues. induction rs as [|r rs IH]; [reflexivity|].
  simpl. rewrite length_app, IH. reflexivity.
Qed.

Lemma occurrences_pos key k (l : list CodeIssue) n :
  entry (occurrences key k l) = Some n -> 0 < n /\ exists i, i ∈ l /\ key i = k.
Proof.
  unfold occurrences. destruct (filter _ l) as [|i t] eqn:E; [discriminate|].
  simpl. intros [= <-]. split; [lia|].
  assert (i ∈ filter (fun i => key i = k) l) as Hi by (rewrite E; left).
  apply list_elem_of_filter in Hi as [? ?]. eauto.
Qed.

(** C1.  In the result of every session that returns, [totalIssues] is
    the sum of the lengths of the findings of the reviews,
    [filesWithIssues] is the number of reviews with at least one finding,
    and the two tallies hold, for each kind and each category, the number
    of findings that carry it, with no entry at all where that number is
    zero. *)
Theorem summary_counts_match_reviews repositoryUrl branch_ standardsContent s result s' :
  executeReview gitService network repositoryUrl branch_ standardsContent s = (Ok result, s') ->
  let sm := resultSummary result in
  let found := allIssues (reviews result) in
  totalIssues sm = sum_list (map (fun r => length (issues r)) (reviews result))
  /\ filesWithIssues sm = length (filter hasIssues (reviews result))
  /\ (forall k, issuesByType sm !! k = entry (occurrences kindOf k found))
  /\ (forall k, issuesByCategory sm !! k = entry (occurrences categoryOf k found))
  /\ (forall k n, issuesByType sm !! k = Some n ->
                  0 < n /\ exists i, i ∈ found /\ typeName (type i) = k)
  /\ (forall k n, issuesByCategory sm !! k = Some n ->
                  0 < n /\ exists i, i ∈ found /\ categoryName (category i) = k).
Proof.
  intros H. apply executeReview_spec in H as (cloneResult & files & s3 & _ & _ & _ & _ & -> & _).
  destruct (generateSummary_spec (reviews result)) as (_ & H2 & H3 & H4 & H5).
  cbv zeta. rewrite H2, H3, length_allIssues.
  repeat split; try done.
  - rewrite H4 in H. by apply occurrences_pos in H as [? _].
  - rewrite H4 in H. by apply occurrences_pos in H as [_ ?].
  - rewrite H5 in H. by apply occurrences_pos in H as [? _].
  - rewrite H5 in H. by apply occurrences_pos in H as [_ ?].
Qed.

End SummaryClaims.

(** A session over three files, with only the relay answering. *)
Lemma summary_counts_match_reviews_witness :
  let out := executeReview Scenario.threeFiles Scenario.relayOnly (js "repo") (js "main") []
               (Scenario.fresh (Scenario.configured Scenario.gpt4)) in
  exists result,
    out = (Ok result, out.2)
    /\ totalIssues (resultSummary result)
       = sum_list (map (fun r => length (issues r)) (reviews result))
    /\ filesWithIssues (resultSummary result) = length (filter hasIssues (reviews result)).
Proof.
  cbv zeta.
  destruct (executeReview Scenario.threeFiles Scenario.relayOnly (js "repo") (js "main") []
              (Scenario.fresh (Scenario.configured Scenario.gpt4))) as [[result|e] s'] eqn:E.
  - exists result. split; [reflexivity|].
    destruct (summary_counts_match_reviews _ _ _ _ _ _ _ _ E) as (H1 & H2 & _).
    split; [exact H1|exact H2].
  - apply (f_equal (fun o => match o.1 with Ok _ => true | Throw _ => false end)) in E.
    vm_compute in E. discriminate.
Defined.

Example summary_of_three_files :
  match (executeReview Scenario.threeFiles Scenario.relayOnly (js "repo") (js "main") []
           (Scenario.fresh (Scenario.configured Scenario.gpt4))).1 with
  | Ok result =>
      let sm := resultSummary result in
      (totalFiles sm, totalIssues sm, filesWithIssues sm,
       issuesByType sm !! js "warning", issuesByType sm !! js "style",
       issuesByType sm !! js "error")
  | Throw _ => (0, 0, 0, None, None, None)
  end = (3, 5, 3, Some 3, Some 2, None).
Proof. vm_compute. reflexivity. Qed.

Section SkippedFiles.
Context {engine : JsEngine}.
Variable gitService : GitService.
Variable network : nat -> Request -> Fetched.

Lemma reviewable_length files :
  length (reviewable gitService files)
  + length (filter (fun f => isBlank gitService f = true) files) = length files.
Proof.
  unfold reviewable. induction files as [|f files IH]; [reflexivity|].
  rewrite !filter_cons. destruct (isBlank gitService f) eqn:E.
  - destruct (decide (true = false)); [discriminate|].
    destruct (decide (true = true)); [|congruence]. simpl. lia.
  - destruct (decide (false = false)); [|congruence].
    destruct (decide (false = true)); [discriminate|]. simpl. lia.
Qed.

(** C10.  A file whose content is empty or white space only gets no
    review: the reviews of a session are those of the other files, in
    order; [summary.totalFiles] is the number of reviews, while the
    progress record counts every file of the listing; so [totalFiles] of
    the summary is strictly smaller as soon as one file is blank. *)
Theorem blank_files_are_skipped repositoryUrl branch_ standardsContent s result s' :
  executeReview gitService network repositoryUrl branch_ standardsContent s = (Ok result, s') ->
  exists files,
    getCodeFiles gitService (js "./temp_repo") = Ok files
    /\ map file (reviews result) = filter (fun f => isBlank gitService f = false) files
    /\ totalFiles (resultSummary result) = length (reviews result)
    /\ length (reviews result)
       + length (filter (fun f => isBlank gitService f = true) files) = length files
    /\ Progress.totalFiles (progress s') = length files
    /\ ((exists f, f ∈ files /\ isBlank gitService f = true) ->
        totalFiles (resultSummary result) < Progress.totalFiles (progress s')).
Proof.
  intros H. apply executeReview_spec in H
    as (cloneResult & files & s3 & _ & Hf & _ & HR & -> & Hp & _).
  exists files. destruct (generateSummary_spec (reviews result)) as (H1 & _).
  pose proof (Reviews_files _ _ _ _ _ _ _ _ HR) as Hm.
  assert (length (reviews result) = length (reviewable gitService files)) as Hl.
  { rewrite <- Hm. by rewrite length_map. }
  pose proof (reviewable_length files) as Hsum.
  repeat split; try done.
  - lia.
  - intros (f & Hin & Hb). rewrite H1, Hp.
    assert (0 < length (filter (fun f => isBlank gitService f = true) files)); [|lia].
    assert (f ∈ filter (fun f => isBlank gitService f = true) files) as Hf'
      by (apply list_elem_of_filter; done).
    destruct (filter _ files); [by apply not_elem_of_nil in Hf'|simpl; lia].
Qed.

End SkippedFiles.

(** A session over three files of which the second is empty. *)
Lemma blank_files_are_skipped_witness :
  let out := executeReview Scenario.oneBlank Scenario.offline (js "repo") (js "main") []
               (Scenario.fresh newAIService) in
  exists result,
    out = (Ok result, out.2)
    /\ map file (reviews result) = [js "a.ts"; js "c.ts"]
    /\ totalFiles (resultSummary result) = 2
    /\ Progress.totalFiles (progress out.2) = 3.
Proof.
  cbv zeta.
  destruct (executeReview Scenario.oneBlank Scenario.offline (js "repo") (js "main") []
              (Scenario.fresh newAIService)) as [[result|e] s'] eqn:E.
  - exists result. split; [reflexivity|].
    destruct (blank_files_are_skipped _ _ _ _ _ _ _ _ E)
      as (files & Hf & Hm & Ht & _ & Hp & _).
    injection Hf as <-.
    split; [rewrite Hm; vm_compute; reflexivity|].
    split; [rewrite Ht, <- (length_map file), Hm; vm_compute; reflexivity|].
    cbn [snd]. rewrite Hp. reflexivity.
  - apply (f_equal (fun o => match o.1 with Ok _ => true | Throw _ => false end)) in E.
    vm_compute in E. discriminate.
Defined.

(** ** C5: files over 50,000 units *)

Section Oversized.
Context {engine : JsEngine}.
Variable network : nat -> Request -> Fetched.

(** C5, as the code has it.  For a content of more than 50,000 units
    [analyzeFile] returns at once: the review has no findings at all (the
    heuristic analyzer is not run either) and the note [文件过大，跳过分析];
    one warning is logged, no request is sent and the client is not
    touched. *)
Theorem oversized_file_skips_analysis filePath content language standardsContent s :
  MAX_CONTENT < length content ->
  exists r s',
    analyzeFile network filePath content language standardsContent s = (Ok r, s')
    /\ file r = filePath /\ issues r = [] /\ summary r = js "文件过大，跳过分析"
    /\ requests s' = requests s /\ service s' = service s
    /\ logEvents s'
       = logEvents s ++ [logged LogWarning (js "文件过大跳过")
                           (filePath ++ js " (" ++ kilobytes (length content) ++ js "KB)")].
Proof.
  intros H. apply Nat.ltb_lt in H. unfold analyzeFile, tryCatch. rewrite H.
  eexists _, _. split; [reflexivity|]. repeat split.
Qed.

End Oversized.

(** Closed statements below run on the reference engine. *)
#[local] Existing Instance Reference.engine.

Lemma longContent_length : MAX_CONTENT < length Scenario.longContent.
Proof. unfold Scenario.longContent. rewrite length_replicate. apply Nat.ltb_lt. reflexivity. Qed.

Lemma oversized_file_skips_analysis_witness :
  MAX_CONTENT < length Scenario.longContent
  /\ exists r s',
       analyzeFile Scenario.offline (js "big.ts") Scenario.longContent (js "typescript") []
         (Scenario.fresh newAIService) = (Ok r, s')
       /\ issues r = [] /\ requests s' = [].
Proof.
  split; [exact longContent_length|].
  destruct (oversized_file_skips_analysis Scenario.offline (js "big.ts") Scenario.longContent
              (js "typescript") [] (Scenario.fresh newAIService) longContent_length)
    as (r & s' & E & _ & Hi & _ & Hr & _).
  exists r, s'. split; [exact E|]. split; [exact Hi|exact Hr].
Defined.

(** The heuristic analyzer does have something to say about the long file. *)
Lemma longContent_heuristics :
  exists i rest,
    heuristicIssues (engine := Reference.engine) (js "big.ts") Scenario.longContent = i :: rest.
Proof.
  assert (match heuristicIssues (engine := Reference.engine) (js "big.ts")
                  Scenario.longContent with
          | [] => false
          | _ :: _ => true
          end = true) as H by (vm_compute; reflexivity).
  destruct (heuristicIssues (engine := Reference.engine) (js "big.ts") Scenario.longContent)
    as [|i rest];
    [discriminate | eauto].
Qed.

(** C5, as stated, fails: for a single line of 50,001 letters the review
    that [analyzeFile] returns has no findings, while the heuristic
    analyzer finds something in that content. *)
Lemma oversized_file_loses_heuristics :
  let filePath := js "big.ts" in
  let out := analyzeFile (engine := Reference.engine) Scenario.offline filePath
               Scenario.longContent (detectLanguage filePath) [] (Scenario.fresh newAIService) in
  MAX_CONTENT < length Scenario.longContent
  /\ exists r, out.1 = Ok r /\ issues r = []
               /\ issues r <> heuristicIssues filePath Scenario.longContent.
Proof.
  cbv zeta. split; [exact longContent_length|].
  pose proof longContent_length as H. apply Nat.ltb_lt in H.
  unfold analyzeFile, tryCatch. rewrite H. eexists. split; [reflexivity|].
  split; [reflexivity|]. simpl issues.
  destruct longContent_heuristics as (i & rest & ->). discriminate.
Qed.

(** ** C8, C2: what the review of a file holds *)

Lemma startsWith_app p s : startsWith p (p ++ s) = true.
Proof. induction p as [|c p IH]; [reflexivity|]. simpl. by rewrite N.eqb_refl. Qed.

Lemma includes_head p s : startsWith p s = true -> includes p s = true.
Proof. intros H. destruct s; simpl; rewrite H; reflexivity. Qed.

Lemma includes_app p a s : includes p s = true -> includes p (a ++ s) = true.
Proof.
  intros H. induction a as [|c a IH]; [exact H|].
  simpl. rewrite IH. apply orb_true_r.
Qed.

Section ReviewContents.
Context {engine : JsEngine}.
Variable gitService : GitService.
Variable network : nat -> Request -> Fetched.

(** C8, as the code has it.  The reviews of a session that returns are
    those of the turns of its loop, in order, each turn taken from the
    state the turn before it has left, the first one from the state in
    which the loop starts.  The findings of the review of a turn are: none
    when the file could not be read or has more than 50,000 units;
    otherwise the heuristic findings for the file, followed by the findings
    of the review that the remote client returns on the one call that
    [analyzeFile] makes in that turn, and by nothing when that call
    throws. *)
Theorem findings_are_heuristic_then_remote repositoryUrl branch_ standardsContent s result s' :
  executeReview gitService network repositoryUrl branch_ standardsContent s = (Ok result, s') ->
  exists cloneResult files s3,
    cloneRepository gitService repositoryUrl branch_ (js "./temp_repo") = Ok cloneResult
    /\ getCodeFiles gitService (js "./temp_repo") = Ok files
    /\ Reviews gitService network standardsContent files 0 (started cloneResult files s)
         (reviews result) s3
    /\ forall f i si r si',
         Reviewed gitService network standardsContent f i si r si' ->
         file r = f
         /\ match readFileContent gitService f with
            | Throw _ => issues r = []
            | Ok content =>
                if MAX_CONTENT <? length content then issues r = []
                else
                  match reviewCode network f content (detectLanguage f) standardsContent
                          forwardLog (atRemoteCall f content i si) with
                  | (Ok aiReview, _) =>
                      issues r = heuristicIssues f content ++ issues aiReview
                  | (Throw _, _) => issues r = heuristicIssues f content
                  end
            end.
Proof.
  intros H. apply executeReview_spec in H
    as (cloneResult & files & s3 & Hc & Hf & _ & HR & _).
  exists cloneResult, files, s3.
  split; [exact Hc|]. split; [exact Hf|]. split; [exact HR|].
  intros f i si r si' Hrev. split; [eapply Reviewed_file, Hrev|].
  destruct Hrev as [msg Hread|content Hread _ Hbig|content ai s2 Hread _ Hsmall Hai
                   |content e s2 Hread _ Hsmall He]; rewrite Hread.
  - reflexivity.
  - apply Nat.ltb_lt in Hbig. rewrite Hbig. reflexivity.
  - apply Nat.ltb_ge in Hsmall. rewrite Hsmall, Hai. reflexivity.
  - apply Nat.ltb_ge in Hsmall. rewrite Hsmall, He. reflexivity.
Qed.

(** C2, as the code has it.  When reading the content throws, the turn of
    the loop logs the error and pushes a review without findings under the
    note [审查失败: ...].  When the remote client throws on the call that
    [analyzeFile] makes for a file that was read, is not blank and has at
    most 50,000 units, [analyzeFile] logs the error and the turn pushes a
    review that keeps the heuristic findings for the file, under a note
    that ends in [(AI分析失败)]; the client throws exactly when it has no
    key or no model.  Either way the turn returns, so the loop goes on to
    the next file: it never throws and pushes one review for each file that
    is not blank, in the order of the listing, and [summary.totalFiles] of
    a session that returns is their number. *)
Theorem per_file_failure_is_isolated standardsContent :
  (forall filePath i s msg,
     readFileContent gitService filePath = Throw msg ->
     reviewFile gitService network filePath standardsContent i s
     = (Ok (Some {| file := filePath; issues := []; summary := js "审查失败: " ++ msg |}),
        addLog (logged LogError (js "文件审查失败") (filePath ++ js " - " ++ msg))
          (opened filePath i s)))
  /\ (forall filePath i s content e s2,
        readFileContent gitService filePath = Ok content ->
        trim content <> [] ->
        length content <= MAX_CONTENT ->
        reviewCode network filePath content (detectLanguage filePath) standardsContent
          forwardLog (atRemoteCall filePath content i s) = (Throw e, s2) ->
        let found := heuristicIssues filePath content in
        let review :=
          {| file := filePath; issues := found;
             summary := (js "基础检查完成，发现" ++ decimal (length found) ++ js "个问题 ")
                        ++ js "(AI分析失败)" |} in
        reviewFile gitService network filePath standardsContent i s
        = (Ok (Some review),
           closed filePath review (addLog (logged LogError (js "AI分析失败") filePath) s2)))
  /\ (forall filePath content language log s,
        Quiet log ->
        (exists e s2,
           reviewCode network filePath content language standardsContent log s = (Throw e, s2))
        <-> apiKey (service s) = [] \/ model (service s) = None)
  /\ (forall files i acc s,
        exists rs s1,
          reviewFiles gitService network files standardsContent i acc s = (Ok (acc ++ rs), s1)
          /\ map file rs = reviewable gitService files)
  /\ (forall repositoryUrl branch_ s result s',
        executeReview gitService network repositoryUrl branch_ standardsContent s
        = (Ok result, s') ->
        exists files,
          getCodeFiles gitService (js "./temp_repo") = Ok files
          /\ map file (reviews result) = reviewable gitService files
          /\ totalFiles (resultSummary result) = length (reviews result)).
Proof.
  split; [|split; [|split; [|split]]].
  - intros filePath i s msg Hread. rewrite reviewFile_spec, Hread. reflexivity.
  - intros filePath i s content e s2 Hread Hne Hsmall He. cbv zeta.
    rewrite reviewFile_spec, Hread.
    destruct (trim content) as [|c t]; [done|].
    rewrite analyzeFile_spec. apply Nat.ltb_ge in Hsmall. rewrite Hsmall.
    fold (atRemoteCall filePath content i s). rewrite He.
    assert (heuristicOnly filePath content
            = {| file := filePath; issues := heuristicIssues filePath content;
                 summary := (js "基础检查完成，发现"
                             ++ decimal (length (heuristicIssues filePath content))
                             ++ js "个问题 ") ++ js "(AI分析失败)" |}) as <-.
    { unfold heuristicOnly. f_equal. rewrite <- !app_assoc. reflexivity. }
    reflexivity.
  - intros filePath content language log s Q.
    destruct (reviewCode network filePath content language standardsContent log s)
      as [o s1] eqn:E.
    pose proof (reviewCode_outcome network _ _ _ _ _ _ _ _ Q E) as H. split.
    + intros (e & s2 & [= -> <-]).
      destruct (apiKey (service s)); [by left|].
      destruct (model (service s)); [|by right].
      destruct H as [(rt & [=] & _)|(e' & [=] & _)].
    + intros Hno.
      destruct (apiKey (service s)) as [|c key].
      * destruct H as [-> ->]. eauto.
      * destruct (model (service s)); [by destruct Hno|]. destruct H as [-> ->]. eauto.
  - intros files i acc s.
    destruct (reviewFiles_spec gitService network standardsContent files i acc s)
      as (rs & s1 & E & HR).
    exists rs, s1. split; [exact E|]. eapply Reviews_files, HR.
  - intros repositoryUrl branch_ s result s' H.
    apply executeReview_spec in H as (cloneResult & files & s3 & _ & Hf & _ & HR & -> & _).
    exists files. split; [exact Hf|]. split; [eapply Reviews_files, HR|].
    by destruct (generateSummary_spec (reviews result)) as (-> & _).
Qed.

End ReviewContents.

(** A session over three files, with only the relay answering. *)
Lemma findings_are_heuristic_then_remote_witness :
  let s := Scenario.fresh (Scenario.configured Scenario.gpt4) in
  let files := [js "a.ts"; js "b.ts"; js "c.ts"] in
  let out := executeReview Scenario.threeFiles Scenario.relayOnly (js "repo") (js "main") [] s in
  exists result s3,
    out = (Ok result, out.2)
    /\ Reviews Scenario.threeFiles Scenario.relayOnly [] files 0
         (started (js "cloned") files s) (reviews result) s3.
Proof.
  cbv zeta.
  destruct (executeReview Scenario.threeFiles Scenario.relayOnly (js "repo") (js "main") []
              (Scenario.fresh (Scenario.configured Scenario.gpt4))) as [[result|e] s'] eqn:E.
  - destruct (findings_are_heuristic_then_remote _ _ _ _ _ _ _ _ E)
      as (cloneResult & files & s3 & [= <-] & [= <-] & HR & _).
    exists result, s3. split; [reflexivity|exact HR].
  - apply (f_equal (fun o => match o.1 with Ok _ => true | Throw _ => false end)) in E.
    vm_compute in E. discriminate.
Defined.

(** C8, as stated, fails: the session over the single file of one line of
    50,001 letters returns one review, without findings, while the
    heuristic findings for that file are not empty; so the findings of the
    review are not the heuristic findings followed by anything. *)
Lemma oversized_review_is_not_the_merge :
  match (executeReview Scenario.oneLongFile Scenario.offline (js "repo") (js "main") []
           (Scenario.fresh newAIService)).1 with
  | Ok result =>
      exists r, reviews result = [r] /\ file r = js "big.ts" /\ issues r = []
                /\ readFileContent Scenario.oneLongFile (file r) = Ok Scenario.longContent
                /\ forall remote,
                     issues r <> heuristicIssues (file r) Scenario.longContent ++ remote
  | Throw _ => False
  end.
Proof.
  destruct (executeReview Scenario.oneLongFile Scenario.offline (js "repo") (js "main") []
              (Scenario.fresh newAIService)) as [[result|e] s'] eqn:E; cbn [fst].
  - apply executeReview_spec in E as (cloneResult & files & s3 & _ & [= <-] & _ & HR & _).
    pose proof longContent_length as Hlen.
    assert (forall content, readFileContent Scenario.oneLongFile (js "big.ts") = Ok content ->
                            length content <= MAX_CONTENT -> False) as Hno.
    { intros content [= <-] Hsmall. exact (Nat.lt_irrefl _ (Nat.lt_le_trans _ _ _ Hlen Hsmall)). }
    inversion HR as [|f fs i s0 rs s1 Hb _|f fs i s0 r s1 rs s2 Hb Hr Hrest]; subst.
    { exfalso.
      assert (isBlank Scenario.oneLongFile (js "big.ts") = false) as Hb'
        by (vm_compute; reflexivity).
      rewrite Hb' in Hb. discriminate Hb. }
    inversion Hrest; subst.
    exists r. split; [reflexivity|].
    destruct Hr as [msg Hread|content Hread _ Hbig|content ai s2' Hread _ Hsmall Hai
                   |content e s2' Hread _ Hsmall He].
    + exfalso. revert Hread. intros [=].
    + unfold oversized. cbn [file issues]. repeat split.
      intros remote. destruct longContent_heuristics as (i' & rest & Hh).
      rewrite Hh. intros [=].
    + exfalso. eapply Hno; eassumption.
    + exfalso. eapply Hno; eassumption.
  - apply (f_equal (fun o => match o.1 with Ok _ => true | Throw _ => false end)) in E.
    vm_compute in E. discriminate.
Qed.

(** A session over three files with a client that has no key: the remote
    client throws on the second file, the turn pushes the review with the
    heuristic findings, and the session returns three reviews. *)
Lemma per_file_failure_is_isolated_witness :
  let s := Scenario.fresh newAIService in
  let content := js "let x = 1; " in
  let out := executeReview Scenario.threeFiles Scenario.offline (js "repo") (js "main") [] s in
  (exists e s2,
     reviewCode Scenario.offline (js "b.ts") content (detectLanguage (js "b.ts")) []
       forwardLog (atRemoteCall (js "b.ts") content 1 s) = (Throw e, s2)
     /\ exists s1,
          reviewFile Scenario.threeFiles Scenario.offline (js "b.ts") [] 1 s
          = (Ok (Some {| file := js "b.ts"; issues := heuristicIssues (js "b.ts") content;
                         summary := (js "基础检查完成，发现"
                                     ++ decimal (length (heuristicIssues (js "b.ts") content))
                                     ++ js "个问题 ") ++ js "(AI分析失败)" |}), s1))
  /\ exists result,
       out = (Ok result, out.2)
       /\ map file (reviews result) = [js "a.ts"; js "b.ts"; js "c.ts"]
       /\ totalFiles (resultSummary result) = 3.
Proof.
  cbv zeta.
  destruct (per_file_failure_is_isolated Scenario.threeFiles Scenario.offline [])
    as (_ & Hremote & Hthrows & _ & Hsession).
  split.
  - destruct (proj2 (Hthrows (js "b.ts") (js "let x = 1; ") (detectLanguage (js "b.ts"))
                       forwardLog
                       (atRemoteCall (js "b.ts") (js "let x = 1; ") 1
                          (Scenario.fresh newAIService))
                       forwardLog_quiet) (or_introl eq_refl)) as (e & s2 & He).
    exists e, s2. split; [exact He|]. eexists.
    apply (Hremote (js "b.ts") 1 (Scenario.fresh newAIService) (js "let x = 1; ") e s2);
      [reflexivity| |apply Nat.leb_le; reflexivity|exact He].
    intros Hb. apply (f_equal length) in Hb. vm_compute in Hb. discriminate.
  - destruct (executeReview Scenario.threeFiles Scenario.offline (js "repo") (js "main") []
                (Scenario.fresh newAIService)) as [[result|e] s'] eqn:E.
    + exists result. split; [reflexivity|].
      destruct (Hsession _ _ _ _ _ E) as (files & [= <-] & Hm & Ht).
      split; [rewrite Hm; vm_compute; reflexivity|].
      rewrite Ht, <- (length_map file), Hm. vm_compute. reflexivity.
    + apply (f_equal (fun o => match o.1 with Ok _ => true | Throw _ => false end)) in E.
      vm_compute in E. discriminate.
Defined.

(** C2, as stated, fails: in the session over three files with a client
    that has no credential, [reviewCode] throws for each file, and each
    file still has its review; but the review of the second file has two
    findings, not none. *)
Lemma remote_exception_keeps_heuristic_findings :
  match (reviewCode Scenario.offline (js "b.ts") (js "let x = 1; ") (detectLanguage (js "b.ts"))
           [] forwardLog (Scenario.fresh newAIService)).1 with
  | Throw msg => msg = js "请先设置API密钥和选择模型"
  | Ok _ => False
  end
  /\ match (executeReview Scenario.threeFiles Scenario.offline (js "repo") (js "main") []
              (Scenario.fresh newAIService)).1 with
     | Ok result =>
         map (fun r => (file r, length (issues r), includes (js "失败") (summary r)))
             (reviews result)
         = [(js "a.ts", 0, true); (js "b.ts", 2, true); (js "c.ts", 0, true)]
         /\ totalFiles (resultSummary result) = 3
     | Throw _ => False
     end.
Proof. split; vm_compute; [reflexivity | split; reflexivity]. Qed.

(** ** C4: how [reviewCode] reports a failure *)

(** The [try] block of [reviewCode] and what surrounds it. *)

Lemma getProviderConfig_Configured modelId cfg :
  getProviderConfig modelId = Configured cfg <-> (modelId, cfg) ∈ providerTable.
Proof.
  unfold getProviderConfig. split.
  - destruct (find _ providerTable) as [e|] eqn:E; [|by destruct (bool_decide _)].
    apply find_some in E as [Hin He]. apply bool_decide_eq_true in He.
    intros [= <-]. subst modelId. apply list_elem_of_In in Hin. by destruct e.
  - unfold providerTable. rewrite !elem_of_cons, elem_of_nil.
    intros [H|[H|[H|[H|[H|[]]]]]]; injection H as -> ->; reflexivity.
Qed.


Section RemoteFailure.
Context {engine : JsEngine}.
Variable network : nat -> Request -> Fetched.


















(** In mode [auto] the chat-style dispatch is the direct one when that
    returns; when it throws, the dispatch is the relay's if a relay is
    configured, and the direct failure otherwise. *)
Lemma auto_mode_dispatch log cfg key body s :
  Quiet log ->
  connectionMode (service s) = Auto ->
  match doDirect network log cfg key body s with
  | (Ok reply, s1) => dispatchChat network log cfg key body s = (Ok reply, s1)
  | (Throw e, s1) =>
      match proxyUrl (service s) with
      | [] => dispatchChat network log cfg key body s = (Throw e, s1)
      | _ :: _ =>
          exists s2, logWith log (js "自动切换到代理") (str e) s1 = (Ok tt, s2)
                     /\ dispatchChat network log cfg key body s = doProxy network log key body s2
      end
  end.
Proof.
  intros Q Hmode. unfold dispatchChat.
  change (bind (gets ?f) ?k s) with (k (f s) s). cbv beta. rewrite Hmode.
  unfold tryCatch. destruct (doDirect network log cfg key body s) as [[reply|e] s1] eqn:E.
  - reflexivity.
  - assert (Stable s s1) as (_ & _ & _ & _ & Hp & _).
    { unfold doDirect in E.
      eapply (Keeps_doDirectFrom network Stable);
        [ apply Stable_refl | apply Stable_trans | apply Stable_addLog | apply Stable_advance
        | apply Stable_addRequest | exact Q | exact E ]. }
    change (bind (gets ?f) ?k s1) with (k (f s1) s1). cbv beta. rewrite Hp.
    destruct (proxyUrl (service s)) as [|c p]; [reflexivity|].
    destruct (logWith_quiet log (js "自动切换到代理") (str e) s1 Q) as (s2 & E2 & _).
    exists s2. split; [exact E2|]. unfold bind. rewrite E2. reflexivity.
Qed.

End RemoteFailure.



(** The three failures the specification names, on the chat-style
    provider: every endpoint fails in mode [direct], no relay is configured
    in mode [proxy], and the relay cannot be reached in mode [auto].  Each
    time the review is the one [error] issue and [fail] is 1. *)
Example failures_inside_the_try_block :
  let run (mode : ConnectionMode) (relay : jsstring) :=
    let a := Scenario.configured Scenario.gpt4 in
    let out := reviewCode Scenario.offline (js "a.ts") (js "x") (js "typescript") [] None
      (Scenario.fresh
         {| apiKey := apiKey a; model := model a; connectionMode := mode; proxyUrl := relay;
            requestCountByModel := ∅; lastRequestAtByModel := ∅; warnedProviders := ∅;
            stats := stats a |}) in
    (match out.1 with
     | Ok r => Some (map kindOf (issues r))
     | Throw _ => None
     end,
     fail (stats (service out.2)), lastError (stats (service out.2)),
     length (requests out.2)) in
  run Direct [] = (Some [js "error"], 1, Some (js "Failed to fetch"), 1)
  /\ run Proxy [] = (Some [js "error"], 1, Some (js "未配置代理地址"), 0)
  /\ run Auto (js "https://relay.example") = (Some [js "error"], 1, Some (js "Failed to fetch"), 2).
Proof. vm_compute. repeat split. Qed.

(** ** C7: mode [auto] and the relay *)

(** Scenario D on a chat-style provider: the direct request fails, the
    relay is asked, and the review holds the normalized reply. *)
Example relay_fallback_on_chat_provider :
  let out := reviewCode Scenario.relayOnly (js "a.ts") (js "x") (js "typescript") [] None
               (Scenario.fresh (Scenario.configured Scenario.gpt4)) in
  map url (requests out.2)
  = [js "https://api.openai.com/v1/chat/completions";
     js "https://relay.example/v1/chat/completions"]
  /\ match out.1 with
     | Ok r => map (fun i => (kindOf i, categoryOf i)) (issues r)
               = [(js "warning", js "maintainability")]
     | Throw _ => False
     end
  /\ success (stats (service out.2)) = 1.
Proof. vm_compute. repeat split. Qed.

(** C7 on the message-style provider.  The client is in mode [auto], a
    relay is configured and would answer, and the one direct request fails;
    no request goes to the relay, and the review is the [error] issue of
    the [catch] block.  The branch for this provider (lines 317-337) never
    reads [connectionMode] or [proxyUrl]. *)
Theorem messages_provider_ignores_relay :
  let s := Scenario.fresh (Scenario.configured Scenario.claude) in
  let out := reviewCode Scenario.relayOnly (js "a.ts") (js "x") (js "typescript") [] None s in
  connectionMode (service s) = Auto
  /\ proxyUrl (service s) = js "https://relay.example/"
  /\ map url (requests out.2) = [js "https://api.anthropic.com/v1/messages"]
  /\ match out.1 with
     | Ok r => map kindOf (issues r) = [js "error"]
     | Throw _ => False
     end
  /\ fail (stats (service out.2)) = 1.
Proof. vm_compute. repeat split. Qed.

(** ** C3: normalization of the response text *)

Section Normalization.
Context {engine : JsEngine}.

(** What the callback of [arr.map] makes of one element: the fields that
    have a default. *)
Definition Coerced (x : Value) (issue : CodeIssue) : Prop :=
  (forall c, get (js "category") x = Some (JStr (categoryName c)) -> category issue = c)
  /\ ((forall c, get (js "category") x <> Some (JStr (categoryName c))) ->
      category issue = Maintainability)
  /\ (forall t, get (js "type") x = Some (JStr (typeName t)) -> type issue = t)
  /\ ((forall t, get (js "type") x <> Some (JStr (typeName t))) -> type issue = TypeInfo)
  /\ (get (js "line") x = None -> line issue = ofNat 1)
  /\ (get (js "context") x = None -> context issue = []).

Lemma categoryOfValue_Some v c :
  categoryOfValue v = Some c <-> v = Some (JStr (categoryName c)).
Proof.
  split.
  - destruct v as [[| | |s| |]|]; try discriminate. unfold categoryOfValue. intros H.
    apply find_some in H as [_ H]. apply bool_decide_eq_true in H. by subst.
  - intros ->. destruct c; vm_compute; reflexivity.
Qed.

Lemma typeOfValue_Some v t :
  typeOfValue v = Some t <-> v = Some (JStr (typeName t)).
Proof.
  split.
  - destruct v as [[| | |s| |]|]; try discriminate. unfold typeOfValue. intros H.
    apply find_some in H as [_ H]. apply bool_decide_eq_true in H. by subst.
  - intros ->. destruct t; vm_compute; reflexivity.
Qed.

Lemma issueOfValue_Coerced x issue : issueOfValue x = Some issue -> Coerced x issue.
Proof.
  intros H.
  assert (exists n col msg sug cod ctx,
            ToNumber (get (js "line") x) = Some n
            /\ match get (js "context") x with
               | Some (JArr elems) => mapM ToString elems
               | _ => Some []
               end = Some ctx
            /\ issue = {| line := if numberTruthy n then n else ofNat 1; column := col;
                          type := default TypeInfo (typeOfValue (get (js "type") x));
                          category := default Maintainability
                                        (categoryOfValue (get (js "category") x));
                          message := msg; suggestion := sug; code := cod; context := ctx |})
    as (n & col & msg & sug & cod & ctx & Hn & Hctx & ->).
  { unfold issueOfValue in H. destruct x as [|b0|n0|s0|elems0|props0]; try discriminate;
      apply bind_Some in H as (n & Hn & H);
      apply bind_Some in H as (col & _ & H);
      apply bind_Some in H as (msg & _ & H);
      apply bind_Some in H as (sug & _ & H);
      apply bind_Some in H as (cod & _ & H);
      apply bind_Some in H as (ctx & Hctx & H);
      injection H as <-; eauto 10. }
  unfold Coerced. cbn [category type line context]. repeat split.
  - intros c Hc. apply categoryOfValue_Some in Hc. by rewrite Hc.
  - intros Hno. destruct (categoryOfValue _) as [c|] eqn:E; [|reflexivity].
    apply categoryOfValue_Some in E. by apply Hno in E.
  - intros t Ht. apply typeOfValue_Some in Ht. by rewrite Ht.
  - intros Hno. destruct (typeOfValue _) as [t|] eqn:E; [|reflexivity].
    apply typeOfValue_Some in E. by apply Hno in E.
  - intros Hl. rewrite Hl in Hn. injection Hn as <-. by rewrite NaN_falsy.
  - intros Hc. rewrite Hc in Hctx. by injection Hctx as <-.
Qed.

Lemma mapM_Coerced arr l :
  mapM issueOfValue arr = Some l -> Forall2 Coerced arr l.
Proof.
  intros H. apply mapM_Some in H.
  eapply Forall2_impl; [exact H|]. intros x i. apply issueOfValue_Coerced.
Qed.

Lemma indexOf_absent c s : c ∉ s -> indexOf c s = None.
Proof.
  induction s as [|d s IH]; [reflexivity|]. intros H. simpl.
  apply not_elem_of_cons in H as [Hne H]. apply N.eqb_neq in Hne. rewrite Hne.
  by rewrite IH.
Qed.

Lemma lastIndexOf_absent c s : c ∉ s -> lastIndexOf c s = None.
Proof.
  induction s as [|d s IH]; [reflexivity|]. intros H. simpl.
  apply not_elem_of_cons in H as [Hne H]. apply N.eqb_neq in Hne. rewrite Hne.
  by rewrite IH.
Qed.

(** The text after [trim] has a [[] before its last []]. *)
Definition bracketed (t : jsstring) : option jsstring :=
  match indexOf 91 (trim t), lastIndexOf 93 (trim t) with
  | Some i, Some j => if i <? j then Some (slice i (j + 1) (trim t)) else None
  | _, _ => None
  end.

(** A property that is absent or holds [null], a boolean, a number or a
    string. *)
Definition primitive (v : option Value) : Prop :=
  match v with
  | Some (JArr _) | Some (JObj _) => False
  | _ => True
  end.

(** An element of the array as a response is meant to hold it: not [null],
    with [line], [column], [message], [suggestion] and [code] absent or
    primitive, and with a [context] that, if it is an array, holds
    primitives. *)
Definition Plain (x : Value) : Prop :=
  x <> JNull
  /\ primitive (get (js "line") x) /\ primitive (get (js "column") x)
  /\ primitive (get (js "message") x) /\ primitive (get (js "suggestion") x)
  /\ primitive (get (js "code") x)
  /\ match get (js "context") x with
     | Some (JArr elems) => Forall (fun e => primitive (Some e)) elems
     | _ => True
     end.

Lemma ToString_primitive v : primitive (Some v) -> is_Some (ToString v).
Proof. destruct v; simpl; intros H; try done; eauto. Qed.

Lemma ToNumber_primitive v : primitive v -> is_Some (ToNumber v).
Proof. destruct v as [[| | | | |]|]; simpl; intros H; try done; eauto. Qed.

Lemma stringOr_primitive dflt v : primitive v -> is_Some (stringOr dflt v).
Proof.
  intros H. unfold stringOr. destruct v as [w|]; [|eauto].
  destruct (truthy (Some w)); [|eauto]. by apply ToString_primitive.
Qed.

Lemma issueOfValue_Plain x : Plain x -> is_Some (issueOfValue x).
Proof.
  intros (Hnull & Hline & Hcol & Hmsg & Hsug & Hcod & Hctx).
  assert (is_Some (n ← ToNumber (get (js "line") x);
                   col ← (if truthy (get (js "column") x)
                          then Some <$> ToNumber (get (js "column") x) else Some None);
                   msg ← stringOr (js "问题") (get (js "message") x);
                   sug ← stringOr [] (get (js "suggestion") x);
                   cod ← stringOr [] (get (js "code") x);
                   ctx ← match get (js "context") x with
                         | Some (JArr elems) => mapM ToString elems
                         | _ => Some []
                         end;
                   Some {| line := if numberTruthy n then n else ofNat 1;
                           column := col;
                           type := default TypeInfo (typeOfValue (get (js "type") x));
                           category := default Maintainability
                                         (categoryOfValue (get (js "category") x));
                           message := msg; suggestion := sug; code := cod;
                           context := ctx |})) as H.
  { destruct (ToNumber_primitive _ Hline) as [n ->].
    destruct (ToNumber_primitive _ Hcol) as [c Hc].
    destruct (stringOr_primitive (js "问题") _ Hmsg) as [msg ->].
    destruct (stringOr_primitive [] _ Hsug) as [sug ->].
    destruct (stringOr_primitive [] _ Hcod) as [cod ->].
    assert (is_Some match get (js "context") x with
                    | Some (JArr elems) => mapM ToString elems
                    | _ => Some []
                    end) as [ctx ->].
    { destruct (get (js "context") x) as [[| | | |elems|]|]; try by eexists.
      apply mapM_is_Some. eapply Forall_impl; [exact Hctx|].
      intros e. apply ToString_primitive. }
    destruct (truthy (get (js "column") x)); [rewrite Hc|]; simpl; eauto. }
  unfold issueOfValue. destruct x; [done|exact H..].
Qed.

Lemma mapM_Plain arr : Forall Plain arr -> is_Some (mapM issueOfValue arr).
Proof.
  intros H. apply mapM_is_Some. eapply Forall_impl; [exact H|].
  intros x. apply issueOfValue_Plain.
Qed.

Lemma mapM_null arr : JNull ∈ arr -> mapM issueOfValue arr = None.
Proof.
  intros Hin. destruct (mapM issueOfValue arr) as [l|] eqn:E; [|reflexivity].
  assert (is_Some (mapM issueOfValue arr)) as H by (rewrite E; eauto).
  apply mapM_is_Some in H. rewrite Forall_forall in H.
  destruct (H _ Hin) as [i Hi]. discriminate Hi.
Qed.

(** The result for a response that encloses an array. *)
Lemma normalize_array t enclosed arr filePath code_ :
  bracketed t = Some enclosed ->
  JSON_parse enclosed = Ok (JArr arr) ->
  normalizeIssuesFromText (JStr t) filePath code_
  = match mapM issueOfValue arr with
    | Some l => l
    | None => [unstructured code_]
    end.
Proof.
  unfold normalizeIssuesFromText, normalizeTry, bracketed.
  destruct (indexOf 91 (trim t)) as [i|]; [|discriminate].
  destruct (lastIndexOf 93 (trim t)) as [j|]; [|discriminate].
  destruct (i <? j); [|discriminate]. intros [= <-] ->.
  by destruct (mapM issueOfValue arr).
Qed.

(** C3, as the code has it.  [normalizeIssuesFromText] is a total function:
    whatever the response holds, it returns a list of findings.  That list
    is the single finding [unstructured code_] -- of kind [info] and
    category [readability], saying that the response was unstructured, its
    source line the first line of the reviewed code and its context the
    first three lines at most -- when the response is not a string, when
    its text has no [[] before a later []], when what is between them does
    not parse or parses to something that is not an array, and when it
    parses to an array for one of whose elements the callback of [map]
    throws, as it does for [null].  When the callback throws for no
    element, as is the case when every element is [Plain], the result holds
    one finding per element, in order, with [maintainability] for an element
    without a valid [category], [info] without a valid [type], line 1
    without a [line] and no context without a [context]. *)
Theorem normalization_never_raises (text : Value) (filePath code_ : jsstring) :
  let result := normalizeIssuesFromText text filePath code_ in
  let fallback := unstructured code_ in
  ((forall t, text <> JStr t) -> result = [fallback])
  /\ (forall t, text = JStr t -> 91%N ∉ trim t \/ 93%N ∉ trim t -> result = [fallback])
  /\ (forall t, text = JStr t -> bracketed t = None -> result = [fallback])
  /\ (forall t enclosed, text = JStr t -> bracketed t = Some enclosed ->
        match JSON_parse enclosed with
        | Throw _ => result = [fallback]
        | Ok (JArr arr) =>
            match mapM issueOfValue arr with
            | Some l => result = l /\ Forall2 Coerced arr l
            | None => result = [fallback]
            end
            /\ (Forall Plain arr -> Forall2 Coerced arr result)
            /\ (JNull ∈ arr -> result = [fallback])
        | Ok _ => result = [fallback]
        end)
  /\ type fallback = TypeInfo
  /\ category fallback = Readability
  /\ message fallback = js "AI返回非结构化内容，已记录文本"
  /\ code fallback = default [] (head (split LF code_))
  /\ context fallback = take 3 (split LF code_)
  /\ head (context fallback) = Some (code fallback).
Proof.
  cbv zeta. unfold normalizeIssuesFromText, normalizeTry, bracketed.
  split; [|split; [|split; [|split]]].
  - intros Hno. destruct text; try reflexivity. by destruct (Hno s).
  - intros t -> [H|H].
    + by rewrite (indexOf_absent _ _ H).
    + rewrite (lastIndexOf_absent _ _ H). by destruct (indexOf 91 (trim t)).
  - intros t -> H.
    destruct (indexOf 91 (trim t)) as [i|]; [|reflexivity].
    destruct (lastIndexOf 93 (trim t)) as [j|]; [|reflexivity].
    destruct (i <? j); [discriminate|reflexivity].
  - intros t enclosed -> H.
    destruct (indexOf 91 (trim t)) as [i|]; [|discriminate].
    destruct (lastIndexOf 93 (trim t)) as [j|]; [|discriminate].
    destruct (i <? j); [|discriminate]. injection H as <-.
    destruct (JSON_parse _) as [[| | | |arr|]|e]; try reflexivity.
    split; [|split].
    + destruct (mapM issueOfValue arr) as [l|] eqn:E; [|reflexivity].
      split; [reflexivity|]. by apply mapM_Coerced.
    + intros Hplain. destruct (mapM_Plain arr Hplain) as [l E]. rewrite E.
      by apply mapM_Coerced.
    + intros Hnull. by rewrite (mapM_null arr Hnull).
  - repeat split. unfold unstructured, slice. cbn [context code]. rewrite drop_0.
    destruct (split LF code_) as [|l ls] eqn:E; [|reflexivity].
    destruct code_ as [|c r]; [discriminate|]. simpl in E.
    destruct (c =? LF)%N; [discriminate|]. destruct (split LF r); discriminate.
Qed.

End Normalization.

(** A reply whose one object has a [line] and nothing else. *)
Lemma normalization_never_raises_witness :
  let arr := [JObj [(js "line", JNum (Reference.Dec 3 0))]] in
  let t := Reference.stringify (JArr arr) in
  bracketed t = Some t
  /\ JSON_parse t = Ok (JArr arr)
  /\ Forall Plain arr
  /\ exists issue,
       normalizeIssuesFromText (JStr t) [] (js "x") = [issue]
       /\ category issue = Maintainability /\ type issue = TypeInfo
       /\ context issue = [].
Proof.
  cbv zeta.
  assert (bracketed (Reference.stringify (JArr [JObj [(js "line", JNum (Reference.Dec 3 0))]]))
          = Some (Reference.stringify (JArr [JObj [(js "line", JNum (Reference.Dec 3 0))]])))
    as Hb by (vm_compute; reflexivity).
  assert (JSON_parse (Reference.stringify (JArr [JObj [(js "line", JNum (Reference.Dec 3 0))]]))
          = Ok (JArr [JObj [(js "line", JNum (Reference.Dec 3 0))]])) as Hp
    by (vm_compute; reflexivity).
  assert (Forall Plain [JObj [(js "line", JNum (Reference.Dec 3 0))]]) as Hplain.
  { constructor; [|constructor]. split; [discriminate|]. vm_compute. tauto. }
  split; [exact Hb|]. split; [exact Hp|]. split; [exact Hplain|].
  destruct (normalization_never_raises
              (JStr (Reference.stringify (JArr [JObj [(js "line", JNum (Reference.Dec 3 0))]])))
              [] (js "x")) as (_ & _ & _ & H & _).
  specialize (H _ _ eq_refl Hb). rewrite Hp in H. destruct H as (_ & H & _).
  apply H in Hplain.
  apply Forall2_cons_inv_l in Hplain as (issue & rest & (_ & Hc & _ & Ht & _ & Hx) & Hnil & ->).
  apply Forall2_nil_inv_l in Hnil as ->. exists issue. split; [reflexivity|].
  split; [|split]; [apply Hc|apply Ht|apply Hx];
    try (intros k; vm_compute; discriminate); vm_compute; reflexivity.
Defined.

(** C3, as stated, fails: the response [[{}, null]] parses to an array
    whose first element is an object without a [category]; the callback
    throws on [null], so the result is the single finding for an
    unstructured response, whose category is [readability], and no finding
    of category [maintainability] is returned. *)
Lemma null_element_discards_the_defaults :
  let t := js "[{}, null]" in
  bracketed t = Some t
  /\ JSON_parse t = Ok (JArr [JObj []; JNull])
  /\ get (js "category") (JObj []) = None
  /\ normalizeIssuesFromText (JStr t) [] (js "x") = [unstructured (js "x")]
  /\ category (unstructured (js "x")) = Readability.
Proof.
  cbv zeta.
  assert (bracketed (js "[{}, null]") = Some (js "[{}, null]")) as Hb
    by (vm_compute; reflexivity).
  assert (JSON_parse (js "[{}, null]") = Ok (JArr [JObj []; JNull])) as Hp
    by (vm_compute; reflexivity).
  split; [exact Hb|]. split; [exact Hp|]. split; [reflexivity|]. split; [|reflexivity].
  rewrite (normalize_array _ _ _ _ _ Hb Hp), mapM_null; [reflexivity|].
  apply list_elem_of_further, list_elem_of_here.
Qed.

(** ** C9: the context lines of a heuristic finding *)

Lemma windowFrom_slice idx j ls :
  windowFrom idx j ls
  = take (Nat.min (length ls) (idx + 3 - j) - (idx - 2 - j)) (drop (idx - 2 - j) ls).
Proof.
  revert j. induction ls as [|l ls IH]; intros j.
  - simpl. by rewrite drop_nil, take_nil.
  - cbn [windowFrom]. unfold nearby. rewrite IH. cbn [length].
    destruct (idx <=? j + 2) eqn:E1; [apply Nat.leb_le in E1|apply Nat.leb_gt in E1].
    + replace (idx - 2 - j) with 0 by lia. replace (idx - 2 - S j) with 0 by lia.
      rewrite !drop_0, !Nat.sub_0_r.
      destruct (j <=? idx + 2) eqn:E2; [apply Nat.leb_le in E2|apply Nat.leb_gt in E2];
        cbn [andb].
      * replace (Nat.min (S (length ls)) (idx + 3 - j))
          with (S (Nat.min (length ls) (idx + 3 - S j))) by lia.
        reflexivity.
      * replace (idx + 3 - j) with 0 by lia. replace (idx + 3 - S j) with 0 by lia.
        by rewrite !Nat.min_0_r.
    + cbn [andb]. destruct (idx - 2 - j) as [|a] eqn:Ea; [lia|].
      replace (idx - 2 - S j) with a by lia. cbn [drop]. f_equal. lia.
Qed.

(** [getContextLines] returns the lines at most two away from [lineIndex]. *)
Lemma getContextLines_window {engine : JsEngine} lines idx :
  getContextLines lines idx = window lines idx.
Proof.
  unfold getContextLines, window, slice. rewrite windowFrom_slice.
  rewrite Nat.max_0_l, !Nat.sub_0_r. f_equal. lia.
Qed.

Lemma split_nonempty sep s : 0 < length (split sep s).
Proof.
  induction s as [|c s IH]; simpl; [lia|].
  destruct (c =? sep)%N; [simpl; lia|]. destruct (split sep s); simpl in *; lia.
Qed.

Section Contexts.
Context {engine : JsEngine}.

(** A finding anchored at line [idx + 1] with the window around it. *)
Definition Windowed (lines : list jsstring) (issue : CodeIssue) : Prop :=
  exists idx, idx < length lines /\ line issue = ofNat (idx + 1)
              /\ context issue = window lines idx.

(** The message of the rule on the final newline, line 299. *)
Definition noFinalNewline : jsstring := js "文件末尾缺少空行".

Lemma checkLine_windowed lines idx l issue :
  idx < length lines -> issue ∈ checkLine lines idx l ->
  Windowed lines issue /\ message issue <> noFinalNewline.
Proof.
  intros Hidx. unfold checkLine, trailingWhitespace, longLine, todoComment, consoleStatement.
  rewrite !elem_of_app.
  intros [H|[H|[H|H]]];
    match type of H with
    | _ ∈ (if ?b then _ else _) => destruct b; [|by apply not_elem_of_nil in H]
    end;
    apply list_elem_of_singleton in H as ->;
    (split; [exists idx; (split; [exact Hidx|]); (split; [reflexivity|]);
             apply getContextLines_window
            |cbn [message]; intros Hm; vm_compute in Hm; discriminate Hm]).
Qed.

Lemma forEachLine_windowed lines idx rest issue :
  idx + length rest = length lines ->
  issue ∈ forEachLine lines idx rest ->
  Windowed lines issue /\ message issue <> noFinalNewline.
Proof.
  revert idx. induction rest as [|l rest IH]; intros idx Hlen; simpl.
  - intros H. by apply not_elem_of_nil in H.
  - rewrite elem_of_app. intros [H|H].
    + eapply checkLine_windowed; [|exact H]. simpl in Hlen. lia.
    + apply (IH (S idx)); [simpl in Hlen; lia|exact H].
Qed.

Lemma tooManyDefinitions_windowed content issue :
  issue ∈ tooManyDefinitions content (split LF content) ->
  Windowed (split LF content) issue /\ message issue <> noFinalNewline.
Proof.
  intros H. unfold tooManyDefinitions in H.
  destruct (_ <? _); [|by apply not_elem_of_nil in H].
  apply list_elem_of_singleton in H as ->. split.
  - exists 0. split; [apply split_nonempty|]. split; [reflexivity|]. cbn [context].
    unfold window, slice. rewrite windowFrom_slice. cbn [drop Nat.sub Nat.add].
    rewrite Nat.sub_0_r. destruct (split LF content) as [|a [|b [|c ls]]]; try reflexivity.
    cbn [length]. replace (Nat.min (S (S (S (length ls)))) 3) with 3 by lia. reflexivity.
  - cbn [message]. intros Hm. vm_compute in Hm. discriminate Hm.
Qed.

(** The last two lines are the window around the last line only in a file
    of at most two lines. *)
Lemma last_two_window (lines : list jsstring) :
  sliceLast 2 lines = window lines (length lines - 1) <-> length lines <= 2.
Proof.
  unfold sliceLast, window. rewrite windowFrom_slice. split.
  - intros H. apply (f_equal length) in H.
    rewrite length_take, !length_drop in H. lia.
  - intros H. destruct lines as [|a [|b [|c ls]]]; simpl in *; try lia; reflexivity.
Qed.

(** C9, as the code has it.  Every finding of a per-line detector, and the
    finding of the rule on the number of definitions, has for context the
    lines at most two before and two after its line, within the file.  The
    finding for the missing final newline, which is there exactly when the
    content is not empty and does not end in a newline, is anchored at the
    last line and has for context the last two lines of the file; these
    are the window around the last line only when the file has no more
    than two lines. *)
Theorem context_is_window_except_final_newline filePath content language :
  let lines := split LF content in
  let found := performBasicCodeCheck filePath content language in
  (forall issue, issue ∈ found -> message issue <> noFinalNewline -> Windowed lines issue)
  /\ (forall issue, issue ∈ found -> message issue = noFinalNewline ->
        line issue = ofNat (length lines)
        /\ context issue = sliceLast 2 lines
        /\ (context issue = window lines (length lines - 1) <-> length lines <= 2))
  /\ ((exists issue, issue ∈ found /\ message issue = noFinalNewline)
      <-> content <> [] /\ endsWithUnit LF content = false).
Proof.
  cbv zeta. unfold performBasicCodeCheck. split; [|split].
  - intros issue. rewrite !elem_of_app. intros [H|[H|H]] Hm.
    + eapply forEachLine_windowed; [|exact H]. reflexivity.
    + exfalso. unfold missingFinalNewline in H.
      destruct (_ && _); [|by apply not_elem_of_nil in H].
      apply list_elem_of_singleton in H as ->. by apply Hm.
    + by apply tooManyDefinitions_windowed.
  - intros issue. rewrite !elem_of_app. intros [H|[H|H]] Hm.
    + exfalso. eapply forEachLine_windowed; [|exact H|exact Hm]. reflexivity.
    + unfold missingFinalNewline in H.
      destruct (_ && _); [|by apply not_elem_of_nil in H].
      apply list_elem_of_singleton in H as ->. cbn [line context].
      split; [reflexivity|]. split; [reflexivity|]. apply last_two_window.
    + exfalso. by eapply tooManyDefinitions_windowed.
  - split.
    + intros (issue & Hin & Hm). rewrite !elem_of_app in Hin.
      destruct Hin as [H|[H|H]].
      * exfalso. eapply forEachLine_windowed; [|exact H|exact Hm]. reflexivity.
      * unfold missingFinalNewline in H.
        destruct (0 <? length content) eqn:Hlen; [|by apply not_elem_of_nil in H].
        destruct (endsWithUnit LF content); [by apply not_elem_of_nil in H|].
        split; [|reflexivity]. intros ->. discriminate Hlen.
      * exfalso. by eapply tooManyDefinitions_windowed.
    + intros [Hne Hend]. eexists. split.
      * rewrite !elem_of_app. right. left. unfold missingFinalNewline. rewrite Hend.
        destruct content; [done|]. cbn [length Nat.ltb Nat.leb andb negb].
        apply list_elem_of_singleton. reflexivity.
      * reflexivity.
Qed.

End Contexts.

(** Three lines, the last one without a newline. *)
Definition threeLines : jsstring := js "a" ++ [LF] ++ js "b" ++ [LF] ++ js "c".

(** C9, as stated, fails: on three lines without a final newline, the
    finding for the missing newline is anchored at line 3 and its context
    is the last two lines, while the window around line 3 holds all three. *)
Lemma final_newline_context_is_two_lines :
  let lines := split LF threeLines in
  match last (performBasicCodeCheck [] threeLines []) with
  | Some issue =>
      message issue = js "文件末尾缺少空行"
      /\ line issue = ofNat 3
      /\ context issue = [js "b"; js "c"]
      /\ window lines 2 = [js "a"; js "b"; js "c"]
      /\ forall idx, line issue = ofNat (idx + 1) -> context issue <> window lines idx
  | None => False
  end.
Proof.
  cbv zeta.
  destruct (last (performBasicCodeCheck [] threeLines [])) as [issue|] eqn:E.
  - pose proof (f_equal (fmap message) E) as Hm. vm_compute in Hm. injection Hm as Hm.
    match type of Hm with ?a = _ => change (a = message issue) in Hm end.
    pose proof (f_equal (fmap line) E) as Hl. vm_compute in Hl. injection Hl as Hl.
    match type of Hl with ?a = _ => change (a = line issue) in Hl end.
    pose proof (f_equal (fmap context) E) as Hc. vm_compute in Hc. injection Hc as Hc.
    match type of Hc with ?a = _ => change (a = context issue) in Hc end.
    rewrite <- Hm, <- Hl, <- Hc.
    split; [vm_compute; reflexivity|]. split; [reflexivity|].
    split; [vm_compute; reflexivity|]. split; [vm_compute; reflexivity|].
    intros idx H. injection H as H. assert (idx = 2) as -> by lia.
    vm_compute. discriminate.
  - apply (f_equal (fun o => match o with Some _ => true | None => false end)) in E.
    vm_compute in E. discriminate.
Qed.

(** Three lines without a final newline: the finding of the rule is there,
    its context is the last two lines, and these are not the window around
    the last line. *)
Lemma context_is_window_except_final_newline_witness :
  let lines := split LF threeLines in
  exists issue,
    issue ∈ performBasicCodeCheck [] threeLines []
    /\ message issue = noFinalNewline
    /\ context issue = [js "b"; js "c"]
    /\ context issue <> window lines (length lines - 1).
Proof.
  cbv zeta.
  destruct (context_is_window_except_final_newline [] threeLines []) as (_ & Hlast & Hthere).
  destruct (proj2 Hthere) as (issue & Hin & Hm).
  { split; [discriminate|reflexivity]. }
  destruct (Hlast issue Hin Hm) as (_ & Hc & Hw).
  exists issue. split; [exact Hin|]. split; [exact Hm|].
  split; [rewrite Hc; vm_compute; reflexivity|].
  intros H. apply Hw in H. vm_compute in H. lia.
Defined.

(** ** C6: secret redaction *)

Module MaskFacts.
Import Mask.

(** *** Lookbehind assertions do not look past a mask *)

(** [k] holds before a position only by what lies between the position
    and the nearest [*] to its left. *)
Definition Local (k : Behind) : Prop :=
  forall l r r', k (l ++ STAR :: r) = true -> k (l ++ r') = true.

(** [k] is local and needs at least one unit that is not [*]. *)
Definition Strict (k : Behind) : Prop :=
  Local k /\ forall r, k (STAR :: r) = false.

Lemma Local_accept : Local accept.
Proof. intros l r r' _. reflexivity. Qed.

Lemma Strict_Local k : Strict k -> Local k.
Proof. by intros [H _]. Qed.

Lemma Strict_one p k : p STAR = false -> Local k -> Strict (one p k).
Proof.
  intros Hp Hk. split.
  - intros [|c l] r r'; simpl.
    + rewrite Hp. discriminate.
    + intros H. apply andb_prop in H as [-> H]. simpl. eapply Hk, H.
  - intros r. simpl. by rewrite Hp.
Qed.

Lemma Strict_maybe p k : p STAR = false -> Strict k -> Strict (maybe p k).
Proof.
  intros Hp [Hk Hs]. split.
  - intros [|c l] r r'; simpl.
    + rewrite Hp, Hs. discriminate.
    + destruct (p c); [apply Hk|]. apply (Hk (c :: l)).
  - intros r. simpl. by rewrite Hp.
Qed.

Lemma Strict_skip p k : p STAR = false -> Strict k -> Strict (skip p k).
Proof.
  intros Hp [Hk Hs]. split.
  - intros l r r'. unfold skip. induction l as [|c l IH]; simpl.
    + rewrite Hp, Hs. discriminate.
    + destruct (p c); [exact IH|]. apply (Hk (c :: l)).
  - intros r. unfold skip. simpl. by rewrite Hp.
Qed.

Lemma Local_wordBack w k :
  Forall (fun a => sameLetter a STAR = false) w -> Local k -> Local (wordBack w k).
Proof.
  intros Hw Hk. induction Hw as [|a w Ha _ IH]; [exact Hk|].
  simpl. by apply Strict_Local, Strict_one.
Qed.

Lemma Strict_wordBack w k :
  w <> [] -> Forall (fun a => sameLetter a STAR = false) w -> Local k ->
  Strict (wordBack w k).
Proof.
  intros Hne Hw Hk. destruct Hw as [|a w Ha Hw]; [done|].
  simpl. apply Strict_one; [exact Ha|]. by apply Local_wordBack.
Qed.

Lemma Strict_word w k :
  w <> [] -> forallb (fun a => negb (sameLetter a STAR)) w = true -> Local k ->
  Strict (word w k).
Proof.
  intros Hne Hw Hk. unfold word. apply Strict_wordBack; [|  |exact Hk].
  - intros H. apply Hne. rewrite <- (rev_involutive w), H. reflexivity.
  - apply Forall_forall. intros a Ha. apply list_elem_of_In, in_rev in Ha.
    rewrite forallb_forall in Hw. apply Hw in Ha. by apply negb_true_iff in Ha.
Qed.

Lemma Strict_assigned key :
  (forall k, Local k -> Strict (key k)) -> Strict (assigned key).
Proof.
  intros Hkey. unfold assigned.
  apply Strict_skip; [reflexivity|]. apply Strict_one; [reflexivity|].
  apply Strict_Local, Strict_skip; [reflexivity|]. apply Hkey, Local_accept.
Qed.

Lemma Strict_afterAccessKey : Strict afterAccessKey.
Proof.
  apply Strict_assigned. intros k Hk.
  apply Strict_word; [discriminate|reflexivity|].
  apply Strict_Local, Strict_maybe; [reflexivity|].
  apply Strict_word; [discriminate|reflexivity|exact Hk].
Qed.

Lemma Strict_afterSecretKey : Strict afterSecretKey.
Proof.
  apply Strict_assigned. intros k Hk.
  apply Strict_word; [discriminate|reflexivity|].
  apply Strict_Local, Strict_maybe; [reflexivity|].
  apply Strict_word; [discriminate|reflexivity|exact Hk].
Qed.

Lemma Strict_afterToken : Strict afterToken.
Proof.
  apply Strict_assigned. intros k Hk. apply Strict_word; [discriminate|reflexivity|exact Hk].
Qed.

Lemma Strict_afterPassword : Strict afterPassword.
Proof.
  apply Strict_assigned. intros k Hk. apply Strict_word; [discriminate|reflexivity|exact Hk].
Qed.

(** *** Prefixes before and after a replacement *)

(** [o] and [i] are the text before a position (nearest unit first) in the
    output and in the input of a replacement: they are the same, or they
    agree up to a [*] of the output. *)
Definition Rel (o i : jsstring) : Prop :=
  o = i \/ exists l r1 r2, o = l ++ STAR :: r1 /\ i = l ++ r2.

Lemma Rel_refl s : Rel s s.
Proof. by left. Qed.

Lemma Rel_star r i : Rel (STAR :: r) i.
Proof. right. by exists [], r, i. Qed.

Lemma Rel_cons c o i : Rel o i -> Rel (c :: o) (c :: i).
Proof.
  intros [->|(l & r1 & r2 & -> & ->)]; [by left|].
  right. by exists (c :: l), r1, r2.
Qed.

Lemma Rel_site k o i : Local k -> Rel o i -> k o = true -> k i = true.
Proof.
  intros Hk [->|(l & r1 & r2 & -> & ->)]; [done|]. apply Hk.
Qed.

Lemma Rel_site_false k o i : Local k -> Rel o i -> k i = false -> k o = false.
Proof.
  intros Hk HR Hi. destruct (k o) eqn:Ho; [|done].
  apply (Rel_site k o i Hk HR) in Ho. congruence.
Qed.

(** *** What a global replacement by the mask does to a text *)

(** [Masks ok inRun s t]: [t] is [s] with some runs of [ok] units each
    replaced by one mask; [inRun] says that [s] starts inside such a run,
    whose mask is already written. *)
Inductive Masks (ok : N -> bool) : bool -> jsstring -> jsstring -> Prop :=
| Masks_nil b : Masks ok b [] []
| Masks_copy b c s t : Masks ok false s t -> Masks ok b (c :: s) (c :: t)
| Masks_start b c s t : ok c = true -> Masks ok true s t -> Masks ok b (c :: s) (MASK ++ t)
| Masks_more c s t : ok c = true -> Masks ok true s t -> Masks ok true (c :: s) t.

Lemma Masks_weaken ok b s t : Masks ok b s t -> Masks ok true s t.
Proof.
  inversion 1; subst;
    [apply Masks_nil|by apply Masks_copy|by apply Masks_start|by apply Masks_more].
Qed.

Lemma Masks_replaceBehind site cls before inMatch s :
  Masks cls inMatch s (replaceBehind site cls before inMatch s).
Proof.
  revert before inMatch. induction s as [|c r IH]; intros before inMatch; simpl.
  - constructor.
  - destruct (cls c) eqn:Hc; [|by constructor].
    destruct inMatch; [by apply Masks_more|].
    destruct (site before); [by apply Masks_start|by constructor].
Qed.

Lemma matchUnits_take ok ps s :
  Forall (fun p : N -> bool => forall c, p c = true -> ok c = true) ps ->
  matchUnits ps s = true -> Forall (fun c => ok c = true) (take (length ps) s).
Proof.
  intros Hps. revert s. induction Hps as [|p ps Hp _ IH]; intros s; simpl.
  - intros _. rewrite take_0. constructor.
  - destruct s as [|c r]; [discriminate|]. intros H.
    apply andb_prop in H as [Hc H]. simpl. constructor; [by apply Hp|by apply IH].
Qed.

Lemma keyIdPattern_units :
  Forall (fun p : N -> bool => forall c, p c = true -> isKeyIdUnit c = true) keyIdPattern.
Proof.
  unfold keyIdPattern. apply Forall_app. split.
  - repeat constructor; intros c Hc; apply N.eqb_eq in Hc; by subst.
  - apply Forall_replicate. done.
Qed.

Lemma keyIdAt_units s :
  keyIdAt s = true -> Forall (fun c => isKeyIdUnit c = true) (take 20 s).
Proof. apply (matchUnits_take isKeyIdUnit keyIdPattern s keyIdPattern_units). Qed.

Lemma Masks_replaceKeyId k s :
  Forall (fun c => isKeyIdUnit c = true) (take k s) ->
  Masks isKeyIdUnit (negb (Nat.eqb k 0)) s (replaceKeyId k s).
Proof.
  revert k. induction s as [|c r IH]; intros k Hk.
  - destruct k; constructor.
  - destruct k as [|k]; simpl.
    + destruct (keyIdAt (c :: r)) eqn:Hat.
      * apply keyIdAt_units in Hat. simpl in Hat. inversion Hat; subst.
        apply Masks_start; [done|]. by apply (IH 19).
      * apply Masks_copy. apply (IH 0). rewrite take_0. constructor.
    + simpl in Hk. inversion Hk; subst.
      apply Masks_more; [done|]. apply Masks_weaken with (b := negb (Nat.eqb k 0)).
      by apply IH.
Qed.

(** *** Texts on which a lookbehind replacement has nothing left to do *)

Section Masked.
Variable site : Behind.
Variable cls : N -> bool.
Hypothesis site_strict : Strict site.

(** A match stops at the end of the text or at a unit outside the class. *)
Definition ended (rest : jsstring) : bool :=
  match rest with
  | [] => true
  | d :: _ => negb (cls d)
  end.

(** [Masked before s]: wherever in [s] (which follows [before]) the
    pattern matches, what it matches is exactly one mask. *)
Inductive Masked : jsstring -> jsstring -> Prop :=
| Masked_nil before : Masked before []
| Masked_copy before c s :
    site before && cls c = false -> Masked (c :: before) s -> Masked before (c :: s)
| Masked_mask before rest :
    site before = true -> cls STAR = true -> ended rest = true ->
    Masked (STAR :: STAR :: STAR :: before) rest ->
    Masked before (STAR :: STAR :: STAR :: rest).

Lemma replaceBehind_start before c r :
  cls c = true -> site before = true ->
  replaceBehind site cls before false (c :: r)
  = MASK ++ replaceBehind site cls (c :: before) true r.
Proof. intros Hc Hs. simpl. by rewrite Hc, Hs. Qed.

Lemma replaceBehind_copy before c r :
  site before && cls c = false ->
  replaceBehind site cls before false (c :: r)
  = c :: replaceBehind site cls (c :: before) false r.
Proof.
  intros H. simpl. destruct (cls c); [|done].
  rewrite andb_true_r in H. by rewrite H.
Qed.

Lemma replaceBehind_more before c r :
  cls c = true ->
  replaceBehind site cls before true (c :: r) = replaceBehind site cls (c :: before) true r.
Proof. intros Hc. simpl. by rewrite Hc. Qed.

Lemma replaceBehind_ended before rest :
  ended rest = true ->
  replaceBehind site cls before true rest = replaceBehind site cls before false rest.
Proof.
  destruct rest as [|d r]; [done|]. simpl. intros H.
  apply negb_true_iff in H. by rewrite H.
Qed.

(** On a masked text the replacement changes nothing. *)
Lemma Masked_fixed before s :
  Masked before s -> replaceBehind site cls before false s = s.
Proof.
  induction 1 as [before|before c s H _ IH|before rest Hs Hc He _ IH].
  - done.
  - rewrite replaceBehind_copy by done. by rewrite IH.
  - rewrite replaceBehind_start by done.
    rewrite !replaceBehind_more by done.
    rewrite replaceBehind_ended by done. by rewrite IH.
Qed.

Lemma Masked_block before rest :
  ended rest = true -> Masked (STAR :: STAR :: STAR :: before) rest ->
  Masked before (STAR :: STAR :: STAR :: rest).
Proof.
  intros He HM. destruct site_strict as [_ Hstar].
  destruct (site before && cls STAR) eqn:H.
  - apply andb_prop in H as [Hs Hc]. by apply Masked_mask.
  - apply Masked_copy; [done|].
    apply Masked_copy; [by rewrite Hstar|].
    apply Masked_copy; [by rewrite Hstar|]. done.
Qed.

(** The replacement produces a masked text. *)
Lemma Masked_replaceBehind s :
  forall i o,
    (Rel o i -> Masked o (replaceBehind site cls i false s)) /\
    (forall r, o = STAR :: r ->
               Masked o (replaceBehind site cls i true s) /\
               ended (replaceBehind site cls i true s) = true).
Proof.
  destruct site_strict as [Hlocal _].
  induction s as [|c s IH]; intros i o.
  - split; [intros _; constructor|]. intros r _. split; [constructor|done].
  - split.
    + intros HR. destruct (site i && cls c) eqn:H.
      * apply andb_prop in H as [Hs Hc]. rewrite replaceBehind_start by done.
        destruct (IH (c :: i) (STAR :: STAR :: STAR :: o)) as [_ IH'].
        destruct (IH' (STAR :: STAR :: o) eq_refl) as [HM He].
        by apply Masked_block.
      * rewrite replaceBehind_copy by done. apply Masked_copy.
        -- apply andb_false_iff in H as [H|H]; [|by rewrite H, andb_false_r].
           by rewrite (Rel_site_false site o i Hlocal HR H).
        -- apply IH. by apply Rel_cons.
    + intros r ->. destruct (cls c) eqn:Hc.
      * rewrite replaceBehind_more by done.
        by apply (proj2 (IH (c :: i) (STAR :: r)) r).
      * simpl. rewrite Hc. split; [|simpl; by rewrite Hc].
        apply Masked_copy; [by rewrite Hc, andb_false_r|].
        apply IH. apply Rel_cons, Rel_star.
Qed.

(** A later replacement keeps the text masked, when the mask is outside
    the class of this pattern, or when the later pattern only replaces
    units of this class. *)
Lemma Masked_Masks ok :
  cls STAR = false \/ (forall c, ok c = true -> cls c = true /\ c <> STAR) ->
  forall bs s, Masked bs s ->
  forall b t bt, Masks ok b s t ->
    (if b then exists r, bt = STAR :: r else Rel bt bs) -> Masked bt t.
Proof.
  intros Hcase. destruct site_strict as [Hlocal Hstar].
  assert (Hrel : forall (b : bool) bt bs,
             (if b then exists r, bt = STAR :: r else Rel bt bs) -> Rel bt bs).
  { intros [] bt bs; [intros [r ->]; apply Rel_star|done]. }
  induction 1 as [bs|bs c s H _ IH|bs rest Hs Hc He _ IH]; intros b t bt HMs Hinv.
  - inversion HMs; subst. constructor.
  - apply Hrel in Hinv as HR. inversion HMs; subst.
    + apply Masked_copy.
      * apply andb_false_iff in H as [H|H]; [|by rewrite H, andb_false_r].
        by rewrite (Rel_site_false site bt bs Hlocal HR H).
      * apply (IH false); [done|]. by apply Rel_cons.
    + simpl. apply Masked_copy; [|apply Masked_copy; [by rewrite Hstar|]].
      * destruct Hcase as [Hc|Hc]; [by rewrite Hc, andb_false_r|].
        destruct (Hc c) as [Hc' _]; [done|]. rewrite Hc', andb_true_r in H.
        by rewrite (Rel_site_false site bt bs Hlocal HR H).
      * apply Masked_copy; [by rewrite Hstar|].
        apply (IH true); [done|]. by eexists.
    + apply (IH true); [done|]. done.
  - apply Hrel in Hinv as HR.
    destruct Hcase as [Hc'|Hok]; [congruence|].
    assert (HnS : ok STAR = false).
    { destruct (ok STAR) eqn:E; [|done]. by destruct (Hok STAR E). }
    assert (Hhead : forall b' r t', Masks ok b' (STAR :: r) t' ->
                      exists t'', t' = STAR :: t'' /\ Masks ok false r t'').
    { intros b' r t' HM'. inversion HM'; subst; [by eexists|congruence|congruence]. }
    apply Hhead in HMs as (t1 & -> & HMs).
    apply Hhead in HMs as (t2 & -> & HMs).
    apply Hhead in HMs as (t3 & -> & HMs).
    apply Masked_block.
    + destruct rest as [|d r]; inversion HMs; subst; [done|done|].
      simpl in He. apply negb_true_iff in He.
      destruct (Hok d) as [Hd _]; [done|]. congruence.
    + apply (IH false); [done|]. by do 3 apply Rel_cons.
Qed.

(** A match of the pattern in [l ++ m ++ r]: the lookbehind holds at the
    end of [l], and [m] is the longest run of the class from there. *)
Definition Occurs (l m r : jsstring) : Prop :=
  site (reverse l) = true /\ m <> [] /\ forallb cls m = true /\ ended r = true.

Lemma Masked_occurrence before s :
  Masked before s ->
  forall l m r, s = l ++ m ++ r -> site (reverse l ++ before) = true ->
                m <> [] -> forallb cls m = true -> ended r = true -> m = MASK.
Proof.
  destruct site_strict as [_ Hstar].
  induction 1 as [before|before c s H _ IH|before rest Hs Hc He _ IH];
    intros l m r Heq Hsite Hm Hcls Hr.
  - destruct l, m; done.
  - destruct l as [|a l].
    + destruct m as [|a m]; [done|]. simpl in *. injection Heq as <- _.
      apply andb_prop in Hcls as [Ha _]. by rewrite Hsite, Ha in H.
    + simpl in Heq. injection Heq as <- ->. apply (IH l m r); try done.
      by rewrite reverse_cons, <- app_assoc in Hsite.
  - destruct l as [|a [|b [|c l]]]; simpl in Heq.
    + simpl in Hsite. destruct m as [|x [|y [|z m]]]; [done|..]; simpl in *.
      * injection Heq as _ <-. simpl in Hr. by rewrite Hc in Hr.
      * injection Heq as _ _ <-. simpl in Hr. by rewrite Hc in Hr.
      * injection Heq as <- <- <- ->. destruct m as [|w m]; [done|].
        simpl in He, Hcls. rewrite !andb_true_iff in Hcls.
        destruct Hcls as (_ & _ & _ & Hw & _). by rewrite Hw in He.
    + injection Heq as <- _.
      change (site (STAR :: before) = true) in Hsite. by rewrite Hstar in Hsite.
    + injection Heq as <- <- _.
      change (site (STAR :: STAR :: before) = true) in Hsite. by rewrite Hstar in Hsite.
    + injection Heq as <- <- <- ->. apply (IH l m r); try done.
      rewrite !reverse_cons, <- !app_assoc in Hsite. exact Hsite.
Qed.

End Masked.

(** *** The key-id pattern *)

(** No key id starts anywhere in [s]. *)
Definition NoKeyId (s : jsstring) : Prop :=
  forall l r, s = l ++ r -> keyIdAt r = false.

Lemma NoKeyId_fixed s : NoKeyId s -> replaceKeyId 0 s = s.
Proof.
  induction s as [|c s IH]; intros H; [done|]. simpl.
  change (matchUnits keyIdPattern (c :: s)) with (keyIdAt (c :: s)).
  rewrite (H [] (c :: s) eq_refl). f_equal. apply IH.
  intros l r ->. by apply (H (c :: l) r).
Qed.

Lemma matchUnits_replaceKeyId ps :
  Forall (fun p : N -> bool => p STAR = false) ps ->
  forall s, matchUnits ps (replaceKeyId 0 s) = true -> matchUnits ps s = true.
Proof.
  induction 1 as [|p ps Hp _ IH]; intros s; [done|].
  destruct s as [|c s]; [done|]. simpl replaceKeyId.
  destruct (keyIdAt (c :: s)); simpl.
  - by rewrite Hp.
  - intros H. apply andb_prop in H as [-> H]. by apply IH.
Qed.

Lemma keyIdPattern_star : Forall (fun p : N -> bool => p STAR = false) keyIdPattern.
Proof.
  unfold keyIdPattern. apply Forall_app. split.
  - by repeat constructor.
  - by apply Forall_replicate.
Qed.

Lemma keyIdAt_star r : keyIdAt (STAR :: r) = false.
Proof. done. Qed.

Lemma NoKeyId_replaceKeyId s : forall k, NoKeyId (replaceKeyId k s).
Proof.
  induction s as [|c s IH]; intros k.
  - simpl. intros l r H. symmetry in H. apply app_eq_nil in H as [_ ->]. done.
  - destruct k as [|k]; [|apply IH]. simpl replaceKeyId.
    destruct (keyIdAt (c :: s)) eqn:Hat.
    + intros l r Heq. simpl in Heq.
      destruct l as [|a [|b [|d l]]]; simpl in Heq.
      * subst r. apply keyIdAt_star.
      * injection Heq as _ <-. apply keyIdAt_star.
      * injection Heq as _ _ <-. apply keyIdAt_star.
      * injection Heq as _ _ _ Heq. by apply (IH 19 l r).
    + intros l r Heq. destruct l as [|a l]; simpl in Heq.
      * subst r. destruct (keyIdAt (c :: replaceKeyId 0 s)) eqn:Hout; [|done].
        assert (Hin : matchUnits keyIdPattern (replaceKeyId 0 (c :: s)) = true).
        { simpl replaceKeyId. by rewrite Hat. }
        apply (matchUnits_replaceKeyId _ keyIdPattern_star) in Hin.
        unfold keyIdAt in Hat. congruence.
      * injection Heq as _ Heq. by apply (IH 0 l r).
Qed.

(** *** The five replacements in sequence *)

Lemma maskSensitive_passes text :
  maskSensitive text
  = replaceKeyId 0
      (replaceBehind afterPassword passwordUnit [] false
         (replaceBehind afterToken tokenUnit [] false
            (replaceBehind afterSecretKey keyUnit [] false
               (replaceBehind afterAccessKey keyUnit [] false text)))).
Proof. reflexivity. Qed.

Lemma Masked_first site cls text :
  Strict site -> Masked site cls [] (replaceBehind site cls [] false text).
Proof. intros H. apply (Masked_replaceBehind site cls H text [] []), Rel_refl. Qed.

Lemma Masked_then site cls site' cls' s :
  Strict site -> cls STAR = false ->
  Masked site cls [] s -> Masked site cls [] (replaceBehind site' cls' [] false s).
Proof.
  intros H Hc HM.
  apply (Masked_Masks site cls H cls' (or_introl Hc) [] s HM false _ []);
    [apply Masks_replaceBehind|apply Rel_refl].
Qed.

Lemma Masked_keyId site cls s :
  Strict site ->
  cls STAR = false \/ (forall c, isKeyIdUnit c = true -> cls c = true /\ c <> STAR) ->
  Masked site cls [] s -> Masked site cls [] (replaceKeyId 0 s).
Proof.
  intros H Hc HM.
  apply (Masked_Masks site cls H isKeyIdUnit Hc [] s HM false _ []); [|apply Rel_refl].
  apply (Masks_replaceKeyId 0 s). rewrite take_0. constructor.
Qed.

Lemma keyId_is_passwordUnit c :
  isKeyIdUnit c = true -> passwordUnit c = true /\ c <> STAR.
Proof.
  unfold isKeyIdUnit, isDigit, isUpper, passwordUnit, isWhiteSpace, isQuote, STAR.
  intros H. assert (Hc : (48 <= c <= 90)%N).
  { apply orb_prop in H as [H|H]; apply andb_prop in H as [H1 H2];
      apply N.leb_le in H1, H2; lia. }
  split; [|lia].
  repeat match goal with
         | |- context [(?a =? ?b)%N] => destruct (N.eqb_spec a b); [lia|]
         | |- context [(?a <=? ?b)%N] => destruct (N.leb_spec a b)
         end; try lia; reflexivity.
Qed.

(** What the five replacements leave behind. *)
Record Redacted (s : jsstring) : Prop := {
  accessKey_masked : Masked afterAccessKey keyUnit [] s;
  secretKey_masked : Masked afterSecretKey keyUnit [] s;
  token_masked : Masked afterToken tokenUnit [] s;
  password_masked : Masked afterPassword passwordUnit [] s;
  keyId_masked : NoKeyId s
}.

Lemma maskSensitive_Redacted text : Redacted (maskSensitive text).
Proof.
  rewrite maskSensitive_passes. split.
  - apply Masked_keyId; [apply Strict_afterAccessKey|by left|].
    do 3 (apply Masked_then; [apply Strict_afterAccessKey|done|]).
    apply Masked_first, Strict_afterAccessKey.
  - apply Masked_keyId; [apply Strict_afterSecretKey|by left|].
    do 2 (apply Masked_then; [apply Strict_afterSecretKey|done|]).
    apply Masked_first, Strict_afterSecretKey.
  - apply Masked_keyId; [apply Strict_afterToken|by left|].
    apply Masked_then; [apply Strict_afterToken|done|].
    apply Masked_first, Strict_afterToken.
  - apply Masked_keyId; [apply Strict_afterPassword|right; apply keyId_is_passwordUnit|].
    apply Masked_first, Strict_afterPassword.
  - apply NoKeyId_replaceKeyId.
Qed.

Lemma Redacted_fixed s : Redacted s -> Forall (fun rx => rx s = s) patterns.
Proof.
  intros [H1 H2 H3 H4 H5]. unfold patterns.
  repeat constructor;
    [by apply Masked_fixed..|by apply NoKeyId_fixed].
Qed.

Lemma Redacted_maskSensitive s : Redacted s -> maskSensitive s = s.
Proof.
  intros [H1 H2 H3 H4 H5]. rewrite maskSensitive_passes.
  rewrite (Masked_fixed _ _ _ _ H1), (Masked_fixed _ _ _ _ H2),
    (Masked_fixed _ _ _ _ H3), (Masked_fixed _ _ _ _ H4).
  by apply NoKeyId_fixed.
Qed.

(** The four lookbehind patterns: where a value starts, and its units. *)
Definition lookbehinds : list (Behind * (N -> bool)) :=
  [ (afterAccessKey, keyUnit); (afterSecretKey, keyUnit);
    (afterToken, tokenUnit); (afterPassword, passwordUnit) ].

Lemma Redacted_lookbehind s site cls :
  Redacted s -> (site, cls) ∈ lookbehinds -> Strict site /\ Masked site cls [] s.
Proof.
  intros [H1 H2 H3 H4 _] Hin. unfold lookbehinds in Hin.
  repeat (apply elem_of_cons in Hin as [Hin|Hin]; [injection Hin as -> ->|]).
  - split; [apply Strict_afterAccessKey|done].
  - split; [apply Strict_afterSecretKey|done].
  - split; [apply Strict_afterToken|done].
  - split; [apply Strict_afterPassword|done].
  - by apply elem_of_nil in Hin.
Qed.

(** *** Line structure *)

Lemma split_cons_length sep c r :
  length (split sep (c :: r))
  = if (c =? sep)%N then S (length (split sep r)) else length (split sep r).
Proof.
  simpl. destruct (c =? sep)%N; [done|].
  destruct r as [|d r]; [done|]. simpl.
  destruct (d =? sep)%N; [done|]. by destruct (split sep r).
Qed.

Lemma Masks_lines ok b s t :
  ok LF = false -> Masks ok b s t -> length (split LF t) = length (split LF s).
Proof.
  intros Hok. induction 1 as [b|b c s t _ IH|b c s t Hc _ IH|c s t Hc _ IH].
  - done.
  - rewrite !split_cons_length. by rewrite IH.
  - change (MASK ++ t) with (STAR :: STAR :: STAR :: t).
    rewrite !split_cons_length. change (STAR =? LF)%N with false. cbv iota.
    destruct (N.eqb_spec c LF) as [->|_]; [congruence|done].
  - rewrite split_cons_length.
    destruct (N.eqb_spec c LF) as [->|_]; [congruence|done].
Qed.

(** *** Texts without an assignment *)

Lemma dropWhile_Forall (P : N -> Prop) p s : Forall P s -> Forall P (dropWhile p s).
Proof.
  induction 1 as [|c s Hc Hs IH]; simpl; [constructor|].
  destruct (p c); [done|by constructor].
Qed.

Lemma assigned_without key s :
  Forall (fun c => isAssign c = false) s -> assigned key s = false.
Proof.
  intros H. unfold assigned, skip at 1, one.
  apply (dropWhile_Forall _ isWhiteSpace) in H.
  destruct H as [|c r Hc _]; [done|]. by rewrite Hc.
Qed.

Lemma Masked_without key cls s :
  forall before,
    Forall (fun c => isAssign c = false) before ->
    Forall (fun c => isAssign c = false) s ->
    Masked (assigned key) cls before s.
Proof.
  induction s as [|c s IH]; intros before Hb Hs; [constructor|].
  inversion Hs; subst. apply Masked_copy.
  - by rewrite assigned_without.
  - apply IH; [by constructor|done].
Qed.

Lemma matchUnits_startsWith p q r :
  matchUnits (map (fun a c => (c =? a)%N) p ++ q) r = true -> startsWith p r = true.
Proof.
  revert r. induction p as [|a p IH]; intros r; [done|].
  destruct r as [|c r]; [done|]. simpl. intros H.
  apply andb_prop in H as [Hc H]. rewrite N.eqb_sym, Hc. by apply IH.
Qed.

Lemma keyIdAt_startsWith r : keyIdAt r = true -> startsWith (js "AKIA") r = true.
Proof. apply matchUnits_startsWith. Qed.

Lemma NoKeyId_without s : includes (js "AKIA") s = false -> NoKeyId s.
Proof.
  intros H l r ->. destruct (keyIdAt r) eqn:Hat; [|done].
  apply keyIdAt_startsWith, includes_head in Hat.
  apply (includes_app _ l) in Hat. congruence.
Qed.

End MaskFacts.

(** X1. Redaction is idempotent: masking a masked text changes nothing. *)
Theorem maskSensitive_idempotent (text : jsstring) :
  Mask.maskSensitive (Mask.maskSensitive text) = Mask.maskSensitive text.
Proof. apply MaskFacts.Redacted_maskSensitive, MaskFacts.maskSensitive_Redacted. Qed.

(** X2. In a masked text every match of one of the four lookbehind patterns
    (the lookbehind holds at the end of [l], and [m] is the longest run of
    value units from there) is the mask itself. *)
Theorem masked_text_has_no_unmasked_match (text l m r : jsstring) site cls :
  (site, cls) ∈ MaskFacts.lookbehinds ->
  Mask.maskSensitive text = l ++ m ++ r ->
  MaskFacts.Occurs site cls l m r ->
  m = Mask.MASK.
Proof.
  intros Hin Heq (Hsite & Hm & Hcls & Hr).
  pose proof (MaskFacts.maskSensitive_Redacted text) as HR.
  destruct (MaskFacts.Redacted_lookbehind _ site cls HR Hin) as [Hstrict HM].
  apply (MaskFacts.Masked_occurrence site cls Hstrict [] _ HM l m r); try done.
  by rewrite app_nil_r.
Qed.

Lemma masked_text_has_no_unmasked_match_witness : Mask.MASK = Mask.MASK.
Proof.
  apply (masked_text_has_no_unmasked_match
           (js "password = hunter2 next") (js "password = ") Mask.MASK (js " next")
           Mask.afterPassword Mask.passwordUnit).
  - unfold MaskFacts.lookbehinds. set_solver.
  - vm_compute. reflexivity.
  - unfold MaskFacts.Occurs. split; [vm_compute; reflexivity|].
    split; [discriminate|]. split; vm_compute; reflexivity.
Defined.

(** X3. No key id ([AKIA] and sixteen digits or capitals) starts at any
    position of a masked text. *)
Theorem masked_text_has_no_key_id (text : jsstring) (n : nat) :
  Mask.keyIdAt (drop n (Mask.maskSensitive text)) = false.
Proof.
  apply (MaskFacts.keyId_masked _ (MaskFacts.maskSensitive_Redacted text)
           (take n (Mask.maskSensitive text))).
  by rewrite take_drop.
Qed.

(** X4. Masking keeps the line structure: the masked text has as many
    lines as the text, so line numbers of the code sent for review are
    those of the file. *)
Theorem maskSensitive_keeps_line_count (text : jsstring) :
  length (split LF (Mask.maskSensitive text)) = length (split LF text).
Proof.
  rewrite MaskFacts.maskSensitive_passes.
  rewrite (MaskFacts.Masks_lines Mask.isKeyIdUnit false _ _ eq_refl
             (MaskFacts.Masks_replaceKeyId 0 _ ltac:(rewrite take_0; constructor))).
  rewrite (MaskFacts.Masks_lines _ _ _ _ eq_refl (MaskFacts.Masks_replaceBehind _ Mask.passwordUnit _ _ _)).
  rewrite (MaskFacts.Masks_lines _ _ _ _ eq_refl (MaskFacts.Masks_replaceBehind _ Mask.tokenUnit _ _ _)).
  rewrite (MaskFacts.Masks_lines _ _ _ _ eq_refl (MaskFacts.Masks_replaceBehind _ Mask.keyUnit _ _ _)).
  apply (MaskFacts.Masks_lines _ _ _ _ eq_refl (MaskFacts.Masks_replaceBehind _ Mask.keyUnit _ _ _)).
Qed.

(** X5. A text with neither [:] nor [=] and without the letters [AKIA] is
    sent as it is. *)
Theorem maskSensitive_leaves_plain_text (text : jsstring) :
  Forall (fun c => Mask.isAssign c = false) text ->
  includes (js "AKIA") text = false ->
  Mask.maskSensitive text = text.
Proof.
  intros Hassign Hkey. apply MaskFacts.Redacted_maskSensitive.
  split; try (apply MaskFacts.Masked_without; [constructor|done]).
  by apply MaskFacts.NoKeyId_without.
Qed.

Lemma maskSensitive_leaves_plain_text_witness :
  Mask.maskSensitive (js "return password token") = js "return password token".
Proof.
  apply maskSensitive_leaves_plain_text.
  - vm_compute. repeat constructor.
  - vm_compute. reflexivity.
Defined.

(** * Further properties of the client and of the orchestrator *)

(** ** The catalogue and the provider table *)

(** X6. The models the catalogue offers are exactly the model ids that
    have a provider configuration: no offered model fails with
    an unconfigured provider, and no configuration is unreachable. *)
Theorem offered_models_are_the_configured_ones (modelId : jsstring) :
  modelId ∈ map model_id getAvailableModels
  <-> exists cfg, getProviderConfig modelId = Configured cfg.
Proof.
  split.
  - unfold getAvailableModels. cbn [map model_id].
    rewrite !elem_of_cons, elem_of_nil.
    intros [->|[->|[->|[->|[->|[]]]]]]; eexists; reflexivity.
  - intros [cfg H]. apply getProviderConfig_Configured in H.
    unfold providerTable in H. rewrite !elem_of_cons, elem_of_nil in H.
    destruct H as [H|[H|[H|[H|[H|[]]]]]]; injection H as -> _;
      unfold getAvailableModels; cbn [map model_id]; set_solver.
Qed.

(** ** The connection test and the batch review *)

Section Batch.
Context {engine : JsEngine}.
Variable network : nat -> Request -> Fetched.

(** The guard of [reviewCode] and of [testConnection]: a key and a model. *)
Definition ready (a : AIService) : bool :=
  match apiKey a, model a with
  | _ :: _, Some _ => true
  | _, _ => false
  end.

Lemma reviewCode_ready filePath code_ language standards_ log s o s' :
  Quiet log ->
  reviewCode network filePath code_ language standards_ log s = (o, s') ->
  if ready (service s)
  then exists review f, o = Ok review /\ file review = filePath /\ Tallied f s s'
                        /\ (forall st, success (f st) + fail (f st) = success st + fail st + 1)
  else o = Throw (js "请先设置API密钥和选择模型") /\ s' = s.
Proof.
  intros Q H. apply reviewCode_outcome in H; [|exact Q]. unfold ready.
  destruct (apiKey (service s)) as [|c key]; [destruct (model (service s)); exact H|].
  destruct (model (service s)) as [m|]; [|exact H].
  destruct H as [(rt & -> & T)|(e & -> & T)].
  - exists (accepted filePath code_ rt), succeeded.
    split; [reflexivity|]. split; [reflexivity|]. split; [exact T|].
    intros st. simpl. lia.
  - exists (degraded filePath code_), (failed e).
    split; [reflexivity|]. split; [reflexivity|]. split; [exact T|].
    intros st. simpl. lia.
Qed.

Lemma Tallied_ready f s s' : Tallied f s s' -> ready (service s') = ready (service s).
Proof. intros (_ & Hk & Hm & _). unfold ready. by rewrite Hk, Hm. Qed.

(** X7. [testConnection] answers [true] exactly when [reviewCode] would
    get past its guard and return a review; it sends nothing, logs
    nothing and leaves the client as it is, and takes one second when
    the answer is [true]. *)
Theorem testConnection_mirrors_the_guard filePath code_ language standards_ log s :
  Quiet log ->
  exists b s',
    testConnection s = (Ok b, s')
    /\ service s' = service s /\ requests s' = requests s /\ logEvents s' = logEvents s
    /\ clock s' = clock s + (if b then 1000 else 0)
    /\ (b = true <->
        exists review s'',
          reviewCode network filePath code_ language standards_ log s = (Ok review, s'')).
Proof.
  intros Q.
  destruct (reviewCode network filePath code_ language standards_ log s) as [o s2] eqn:E.
  apply reviewCode_ready in E; [|exact Q]. revert E.
  unfold testConnection, ready.
  change (bind (gets ?f) ?k s) with (k (f s) s). cbv beta.
  change (bind (gets ?f) ?k s) with (k (f s) s). cbv beta.
  destruct (apiKey (service s)) as [|c key].
  - intros [-> ->]. exists false, s. destruct (model (service s));
      (repeat split; [lia|done|intros (? & ? & [=])]).
  - destruct (model (service s)) as [m|].
    + intros (review & f & -> & _). exists true, (advance 1000 s).
      repeat split; eauto.
    + intros [-> ->]. exists false, s. repeat split; [lia|done|intros (? & ? & [=])].
Qed.

(** X8. [reviewMultipleFiles] never throws and returns one review per file,
    in the order of the files.  With a key and a model set, every file moves
    exactly one of the two counters; without, nothing is sent or changed and
    every review is empty and carries the message of the guard. *)
Theorem reviewMultipleFiles_reviews_every_file files standards_ s :
  exists rs s',
    reviewMultipleFiles network files standards_ s = (Ok rs, s')
    /\ map file rs = map (fun f => f.1.1) files
    /\ if ready (service s)
       then success (stats (service s')) + fail (stats (service s'))
            = success (stats (service s)) + fail (stats (service s)) + length files
       else s' = s
            /\ Forall (fun r => issues r = []
                                /\ summary r = js "审查失败: " ++ js "请先设置API密钥和选择模型") rs.
Proof.
  revert s. induction files as [|[[path content] language] files IH]; intros s.
  - exists [], s. repeat split. destruct (ready (service s)); [simpl; lia|by split].
  - simpl reviewMultipleFiles. unfold bind at 1. unfold tryCatch.
    destruct (reviewCode network path content language standards_ None s) as [o s1] eqn:E.
    apply reviewCode_ready in E; [|exact I].
    destruct (ready (service s)) eqn:Hr.
    + destruct E as (review & f & -> & Hfile & T & Hf).
      destruct (IH s1) as (rs & s2 & E2 & Hmap & Hcount).
      rewrite (Tallied_ready _ _ _ T), Hr in Hcount.
      exists (review :: rs), s2. unfold bind. rewrite E2. repeat split.
      * simpl. by rewrite Hfile, Hmap.
      * destruct T as (Hst & _). rewrite Hcount, Hst, Hf. simpl. lia.
    + destruct E as [-> ->]. unfold ret at 1.
      destruct (IH s) as (rs & s2 & E2 & Hmap & Hrest). rewrite Hr in Hrest.
      destruct Hrest as [-> Hall].
      exists ({| file := path; issues := [];
                 summary := js "审查失败: " ++ js "请先设置API密钥和选择模型" |} :: rs), s.
      unfold bind. rewrite E2. repeat split.
      * simpl. by rewrite Hmap.
      * constructor; [by split|done].
Qed.

End Batch.

Lemma testConnection_mirrors_the_guard_witness :
  let s := Scenario.fresh (Scenario.configured Scenario.gpt4) in
  exists b s',
    testConnection s = (Ok b, s')
    /\ service s' = service s /\ requests s' = requests s /\ logEvents s' = logEvents s
    /\ clock s' = clock s + (if b then 1000 else 0)
    /\ (b = true <->
        exists review s'',
          reviewCode Scenario.offline (js "a.ts") (js "x") (js "typescript") [] None s
          = (Ok review, s'')).
Proof.
  cbv zeta.
  apply (testConnection_mirrors_the_guard Scenario.offline (js "a.ts") (js "x")
           (js "typescript") [] None (Scenario.fresh (Scenario.configured Scenario.gpt4))).
  exact I.
Defined.

(** ** The rate limit *)

Section RateLimit.
Context {engine : JsEngine}.

Lemma configured_interval modelId cfg :
  getProviderConfig modelId = Configured cfg -> minIntervalMs cfg = 1000.
Proof.
  intros H. apply getProviderConfig_Configured in H.
  unfold providerTable in H. rewrite !elem_of_cons, elem_of_nil in H.
  destruct H as [H|[H|[H|[H|[H|[]]]]]]; injection H as _ ->; reflexivity.
Qed.

(** X9. [enforceRateLimit] never throws.  It waits just long enough for the
    clock to be one interval (1000 ms for a configured model, 500 ms for any
    other) past the last request recorded for the model, stamps the model
    with the time it ends at, counts one more request for it, and touches
    neither the entries of other models nor the requests and the logs.
    The two tables are plain objects, so a model id that names a property
    of [Object.prototype] is left out: for it the source reads the
    inherited value.  The stamps are past readings of the clock. *)
Theorem rate_limit_spaces_requests (modelId : jsstring) (s : Session) :
  let last := default 0 (lastRequestAtByModel (service s) !! modelId) in
  let interval := match getProviderConfig modelId with Configured _ => 1000 | _ => 500 end in
  modelId ∉ objectPrototypeNames ->
  last <= clock s ->
  exists s',
    enforceRateLimit modelId s = (Ok tt, s')
    /\ clock s' = Nat.max (clock s) (last + interval)
    /\ lastRequestAtByModel (service s') !! modelId = Some (clock s')
    /\ requestCountByModel (service s') !! modelId
       = Some (default 0 (requestCountByModel (service s) !! modelId) + 1)
    /\ (forall other, other <> modelId ->
          lastRequestAtByModel (service s') !! other = lastRequestAtByModel (service s) !! other
          /\ requestCountByModel (service s') !! other
             = requestCountByModel (service s) !! other)
    /\ requests s' = requests s /\ logEvents s' = logEvents s.
Proof.
  intros last interval _ Hlast.
  assert (Hint : interval
                 = match getProviderConfig modelId with
                   | Configured c => if minIntervalMs c =? 0 then 500 else minIntervalMs c
                   | _ => 500
                   end).
  { subst interval. destruct (getProviderConfig modelId) as [c| |] eqn:E; try reflexivity.
    by rewrite (configured_interval _ _ E). }
  unfold enforceRateLimit.
  change (bind (gets ?f) ?k s) with (k (f s) s). cbv beta.
  change (bind (gets ?f) ?k s) with (k (f s) s). cbv beta.
  fold last. rewrite <- Hint. clearbody interval last.
  destruct (clock s <? last + interval) eqn:Hd.
  - apply Nat.ltb_lt in Hd. eexists. split; [reflexivity|]. simpl.
    split; [lia|]. split; [by rewrite lookup_insert_eq|].
    split; [by rewrite lookup_insert_eq|].
    split; [|done]. intros other Hne. by rewrite !lookup_insert_ne.
  - apply Nat.ltb_ge in Hd. eexists. split; [reflexivity|]. simpl.
    split; [lia|]. split; [by rewrite lookup_insert_eq|].
    split; [by rewrite lookup_insert_eq|].
    split; [|done]. intros other Hne. by rewrite !lookup_insert_ne.
Qed.

End RateLimit.

Lemma rate_limit_spaces_requests_witness :
  let s := Scenario.fresh (Scenario.configured Scenario.gpt4) in
  exists s',
    enforceRateLimit (js "gpt-4") s = (Ok tt, s')
    /\ clock s' = Nat.max (clock s) (0 + 1000)
    /\ lastRequestAtByModel (service s') !! js "gpt-4" = Some (clock s')
    /\ requestCountByModel (service s') !! js "gpt-4" = Some (0 + 1)
    /\ (forall other, other <> js "gpt-4" ->
          lastRequestAtByModel (service s') !! other = lastRequestAtByModel (service s) !! other
          /\ requestCountByModel (service s') !! other
             = requestCountByModel (service s) !! other)
    /\ requests s' = requests s /\ logEvents s' = logEvents s.
Proof.
  cbv zeta.
  apply (rate_limit_spaces_requests (js "gpt-4")
           (Scenario.fresh (Scenario.configured Scenario.gpt4))).
  - intros H. apply (bool_decide_eq_true_2 _) in H. vm_compute in H. discriminate.
  - vm_compute. lia.
Defined.

(** ** The summary: how its counts relate *)

Section Totals.
Context {engine : JsEngine}.

(** The sum of the counts of a tally:
    [Object.values(m).reduce((a, b) => a + b, 0)]. *)
Definition total (m : gmap jsstring nat) : nat := map_fold (fun _ n acc => n + acc) 0 m.

Lemma total_insert (k : jsstring) (n : nat) (m : gmap jsstring nat) :
  m !! k = None -> total (<[k := n]> m) = n + total m.
Proof. intros H. unfold total. apply map_fold_insert_L; [intros; lia|exact H]. Qed.

Lemma total_tally k m : total (tally k m) = S (total m).
Proof.
  unfold tally. destruct (m !! k) as [n|] eqn:E; simpl.
  - rewrite <- (insert_delete_id m k n E) at 2.
    rewrite <- insert_delete_eq.
    rewrite !total_insert by apply lookup_delete_eq. lia.
  - by rewrite total_insert.
Qed.

Lemma total_fold (key : CodeIssue -> jsstring) l m :
  total (fold_left (fun m i => tally (key i) m) l m) = total m + length l.
Proof.
  revert m. induction l as [|i l IH]; intros m; simpl; [lia|].
  rewrite IH, total_tally. lia.
Qed.

Lemma total_countReview rs acc :
  total (issuesByType (fold_left countReview rs acc))
  = total (issuesByType acc) + length (allIssues rs)
  /\ total (issuesByCategory (fold_left countReview rs acc))
     = total (issuesByCategory acc) + length (allIssues rs).
Proof.
  revert acc. induction rs as [|r rs IH]; intros acc; simpl; [lia|].
  destruct (IH (countReview acc r)) as [H1 H2]. rewrite H1, H2.
  rewrite countReview_spec. cbn [issuesByType issuesByCategory].
  rewrite !total_fold. unfold allIssues. cbn [flat_map]. rewrite length_app. lia.
Qed.

Lemma hasIssues_le rs : length (filter hasIssues rs) <= length (allIssues rs).
Proof.
  induction rs as [|r rs IH]; [done|].
  unfold allIssues. cbn [flat_map]. rewrite length_app.
  destruct (decide (hasIssues r)) as [H|H].
  - rewrite filter_cons_True by done. unfold hasIssues in H.
    destruct (issues r); [done|]. unfold allIssues in IH. simpl. lia.
  - rewrite filter_cons_False by done. unfold allIssues in IH. lia.
Qed.

(** X10. In every summary the counts by type add up to [totalIssues], and so
    do the counts by category; the number of files with issues is at most
    the number of files and at most the number of issues. *)
Theorem summary_tallies_add_up (rs : list CodeReview) :
  let sm := generateSummary rs in
  total (issuesByType sm) = totalIssues sm
  /\ total (issuesByCategory sm) = totalIssues sm
  /\ filesWithIssues sm <= totalFiles sm
  /\ filesWithIssues sm <= totalIssues sm.
Proof.
  cbv zeta. destruct (generateSummary_spec rs) as (H1 & H2 & H3 & _).
  rewrite H1, H2, H3. unfold generateSummary.
  destruct (total_countReview rs
    {| totalFiles := length rs; totalIssues := 0; issuesByType := ∅;
       issuesByCategory := ∅; filesWithIssues := 0 |}) as [T1 T2].
  rewrite T1, T2. cbn [issuesByType issuesByCategory].
  unfold total. rewrite map_fold_empty.
  repeat split; [apply length_filter|apply hasIssues_le].
Qed.

End Totals.

(** ** Language detection *)

Section Languages.
Context {engine : JsEngine}.

Lemma split_without sep s : sep ∉ s -> split sep s = [s].
Proof.
  induction s as [|c s IH]; [done|]. intros H.
  apply not_elem_of_cons in H as [Hc Hs]. simpl.
  destruct (N.eqb_spec c sep) as [->|_]; [done|]. by rewrite IH.
Qed.

Lemma split_app sep a b : split sep (a ++ sep :: b) = split sep a ++ split sep b.
Proof.
  induction a as [|c a IH]; simpl.
  - by rewrite N.eqb_refl.
  - destruct (c =? sep)%N; [by rewrite IH|]. rewrite IH.
    pose proof (split_nonempty sep a) as Hne.
    destruct (split sep a); [simpl in Hne; lia|reflexivity].
Qed.

Lemma split_last sep stem ext :
  sep ∉ ext -> last (split sep (stem ++ sep :: ext)) = Some ext.
Proof.
  intros H. rewrite split_app, (split_without sep ext H). apply last_snoc.
Qed.

(** X11. The language of a path is looked up under what follows its last
    dot, whatever the case of the letters: for [ext] without a dot whose
    lower-case form is a key of the table, [stem.ext] is detected as the
    language of that key. *)
Theorem detectLanguage_by_extension (stem ext lang : jsstring) :
  46%N ∉ ext ->
  (toLowerCase ext, lang) ∈ languageMap ->
  detectLanguage (stem ++ [46%N] ++ ext) = lang.
Proof.
  intros Hdot Hin. unfold detectLanguage.
  change (stem ++ [46%N] ++ ext) with (stem ++ 46%N :: ext).
  rewrite (split_last 46 stem ext Hdot).
  change (default [] (Some ext)) with ext. cbv zeta.
  unfold languageMap in Hin. rewrite !elem_of_cons, elem_of_nil in Hin.
  repeat (destruct Hin as [Hin|Hin];
          [injection Hin as Hkey ->; rewrite Hkey; reflexivity|]).
  destruct Hin.
Qed.

End Languages.

Lemma detectLanguage_by_extension_witness :
  detectLanguage (js "src/app.component" ++ [46%N] ++ js "TS") = js "typescript".
Proof.
  apply detectLanguage_by_extension.
  - intros H. apply (bool_decide_eq_true_2 _) in H. vm_compute in H. discriminate.
  - apply (bool_decide_eq_true_1 _). vm_compute. reflexivity.
Defined.

(** ** Heuristic findings: where they point *)

Section Quotes.
Context {engine : JsEngine}.

(** A finding that quotes line [idx + 1] of [lines] and shows it among at
    most five lines of context. *)
Definition Quoting (lines : list jsstring) (issue : CodeIssue) : Prop :=
  exists idx, line issue = ofNat (idx + 1)
              /\ lines !! idx = Some (code issue)
              /\ code issue ∈ context issue
              /\ length (context issue) <= 5.

Lemma getContextLines_holds lines idx l :
  lines !! idx = Some l ->
  l ∈ getContextLines lines idx /\ length (getContextLines lines idx) <= 5.
Proof.
  intros H. pose proof (lookup_lt_Some _ _ _ H) as Hlt.
  unfold getContextLines, slice. cbv zeta. rewrite Nat.max_0_l. split.
  - apply (list_elem_of_lookup_2 _ (idx - (idx - 2))).
    rewrite lookup_take_lt by lia. rewrite lookup_drop.
    replace (idx - 2 + (idx - (idx - 2))) with idx by lia. exact H.
  - rewrite length_take. lia.
Qed.

Lemma checkLine_quoting lines idx l issue :
  lines !! idx = Some l -> issue ∈ checkLine lines idx l -> Quoting lines issue.
Proof.
  intros Hl. destruct (getContextLines_holds lines idx l Hl) as [Hin Hlen].
  unfold checkLine, trailingWhitespace, longLine, todoComment, consoleStatement.
  rewrite !elem_of_app.
  intros [H|[H|[H|H]]];
    match type of H with
    | _ ∈ (if ?b then _ else _) => destruct b; [|by apply not_elem_of_nil in H]
    end;
    apply list_elem_of_singleton in H as ->; exists idx; repeat split; assumption.
Qed.

Lemma forEachLine_quoting lines idx rest issue :
  drop idx lines = rest ->
  issue ∈ forEachLine lines idx rest -> Quoting lines issue.
Proof.
  revert idx. induction rest as [|l rest IH]; intros idx Hdrop; simpl.
  - intros H. by apply not_elem_of_nil in H.
  - assert (lines !! idx = Some l) as Hl.
    { rewrite <- (Nat.add_0_r idx), <- lookup_drop, Hdrop. reflexivity. }
    rewrite elem_of_app. intros [H|H].
    + eapply checkLine_quoting; eassumption.
    + apply (IH (S idx)); [|exact H].
      rewrite <- (Nat.add_1_r idx), <- drop_drop, Hdrop. reflexivity.
Qed.

(** X12. Every heuristic finding points into the file: its line number is
    that of an existing line, its [code] is that line, and its context
    holds that line among at most five. *)
Theorem heuristic_findings_quote_their_line filePath content language issue :
  issue ∈ performBasicCodeCheck filePath content language ->
  Quoting (split LF content) issue.
Proof.
  unfold performBasicCodeCheck. cbv zeta. rewrite !elem_of_app.
  pose proof (split_nonempty LF content) as Hpos.
  intros [H|[H|H]].
  - eapply forEachLine_quoting; [|exact H]. reflexivity.
  - unfold missingFinalNewline in H.
    destruct (_ && _); [|by apply not_elem_of_nil in H].
    apply list_elem_of_singleton in H as ->.
    exists (pred (length (split LF content))). cbn [line code context].
    destruct (last (split LF content)) as [l|] eqn:El.
    2:{ rewrite last_lookup in El. apply lookup_ge_None in El. lia. }
    change (default [] (Some l)) with l.
    split; [f_equal; lia|]. split; [by rewrite <- last_lookup|].
    unfold sliceLast. split.
    + rewrite last_lookup in El.
      apply (list_elem_of_lookup_2 _ (pred (length (split LF content))
                                      - (length (split LF content) - 2))).
      rewrite lookup_drop. rewrite <- El. f_equal. lia.
    + rewrite length_drop. lia.
  - unfold tooManyDefinitions in H.
    destruct (_ <? _); [|by apply not_elem_of_nil in H].
    apply list_elem_of_singleton in H as ->. exists 0. cbn [line code context].
    destruct (split LF content) as [|l ls] eqn:E; [simpl in Hpos; lia|].
    change (default [] (head (l :: ls))) with l.
    repeat split.
    + unfold slice. simpl. left.
    + unfold slice. rewrite length_take. lia.
Qed.

(** X13. The heuristic analysis reports at most four findings for each line
    and two for the file as a whole. *)
Theorem heuristic_findings_are_bounded filePath content language :
  length (performBasicCodeCheck filePath content language)
  <= 4 * length (split LF content) + 2.
Proof.
  unfold performBasicCodeCheck. cbv zeta. rewrite !length_app.
  assert (Hlines : forall lines idx rest,
             length (forEachLine lines idx rest) <= 4 * length rest).
  { intros lines idx rest. revert idx. induction rest as [|l rest IH]; intros idx; simpl; [lia|].
    rewrite length_app. specialize (IH (S idx)).
    unfold checkLine, trailingWhitespace, longLine, todoComment, consoleStatement.
    rewrite !length_app.
    repeat match goal with |- context [if ?b then _ else _] => destruct b end;
      simpl; lia. }
  specialize (Hlines (split LF content) 0 (split LF content)).
  unfold missingFinalNewline, tooManyDefinitions.
  repeat match goal with |- context [if ?b then _ else _] => destruct b end; simpl; lia.
Qed.

End Quotes.

(** The first finding on a line that ends in a blank. *)
Lemma heuristic_findings_quote_their_line_witness :
  exists issue,
    issue ∈ performBasicCodeCheck [] (js "x ") []
    /\ Quoting (split LF (js "x ")) issue.
Proof.
  destruct (performBasicCodeCheck [] (js "x ") []) as [|issue rest] eqn:E.
  - apply (f_equal length) in E. vm_compute in E. discriminate.
  - exists issue. assert (issue ∈ issue :: rest) as Hin by left.
    split; [exact Hin|]. rewrite <- E in Hin.
    exact (heuristic_findings_quote_their_line [] (js "x ") [] issue Hin).
Defined.

(** ** The session as its subscribers see it *)

Section SessionProgress.
Context {engine : JsEngine}.
Variable gitService : GitService.
Variable network : nat -> Request -> Fetched.

(** Nothing is said to the progress subscribers between [s] and [s']. *)
Definition Silent (s s' : Session) : Prop :=
  progress s' = progress s /\ progressEvents s' = progressEvents s.

Lemma Silent_refl s : Silent s s.
Proof. by split. Qed.

Lemma Silent_trans a b c : Silent a b -> Silent b c -> Silent a c.
Proof. intros [H1 H2] [G1 G2]. split; congruence. Qed.

#[local] Hint Resolve Silent_refl Silent_trans : keeps.

Lemma Silent_emitLog lvl msg info : Keeps Silent (emitLog lvl msg info).
Proof. apply Keeps_modify. intros s. by split. Qed.

Lemma Silent_analyzeFile filePath content language standardsContent :
  Keeps Silent (analyzeFile network filePath content language standardsContent).
Proof.
  unfold analyzeFile.
  repeat first [ apply Silent_emitLog | keeps_step
               | apply Keeps_reviewCode;
                 [ apply Silent_refl | apply Silent_trans | by split | by split | by split
                 | by split | by split | apply forwardLog_quiet ] ].
Qed.

Lemma Silent_reviewFileTry filePath standardsContent :
  Keeps Silent (reviewFileTry gitService network filePath standardsContent).
Proof.
  unfold reviewFileTry.
  repeat first [ apply Silent_emitLog | apply Silent_analyzeFile
               | apply Keeps_sleep; [by split] | keeps_step ].
Qed.

(** The update that opens the turn of file [f], the [i]-th. *)
Definition running (i : nat) (f : jsstring) (p : ReviewProgress) : ReviewProgress :=
  {| Progress.totalFiles := Progress.totalFiles p; Progress.processedFiles := i;
     Progress.currentFile := f; Progress.status := Progress.status p;
     Progress.error := Progress.error p |}.

(** The updates of the loop over [files], from index [i] on. *)
Fixpoint turns (i : nat) (files : list jsstring) (p : ReviewProgress) : list ReviewProgress :=
  match files with
  | [] => []
  | f :: rest => running i f p :: turns (S i) rest p
  end.

Lemma reviewFile_progress filePath standardsContent i s o s' :
  reviewFile gitService network filePath standardsContent i s = (o, s') ->
  progress s' = running i filePath (progress s)
  /\ progressEvents s' = progressEvents s ++ [running i filePath (progress s)].
Proof.
  unfold reviewFile. intros H.
  apply bind_inv in H as [(e & [=] & _)|([] & s0 & H0 & H)].
  injection H0 as <-.
  assert (Keeps Silent
            (tryCatch (reviewFileTry gitService network filePath standardsContent)
               (fun msg =>
                  emitLog LogError (js "文件审查失败") (Some (str (filePath ++ js " - " ++ msg)));;;
                  ret (Some {| file := filePath; issues := [];
                               summary := js "审查失败: " ++ msg |})))) as K.
  { repeat first [ apply Silent_emitLog | apply Silent_reviewFileTry | keeps_step ]. }
  apply K in H as [Hp He]. rewrite Hp, He. by split.
Qed.

Lemma turns_running i files j g p : turns i files (running j g p) = turns i files p.
Proof. revert i. induction files as [|f files IH]; intros i; simpl; [done|]. by rewrite IH. Qed.

Lemma reviewFiles_progress files standardsContent i acc s o s' :
  reviewFiles gitService network files standardsContent i acc s = (o, s') ->
  progressEvents s' = progressEvents s ++ turns i files (progress s)
  /\ progress s' = default (progress s) (last (turns i files (progress s))).
Proof.
  revert i acc s. induction files as [|f files IH]; intros i acc s H; simpl in H.
  - injection H as _ <-. simpl. by rewrite app_nil_r.
  - apply bind_inv in H as [(e & H & _)|(r & s1 & H1 & H)].
    { destruct (reviewFile_returns gitService network standardsContent f i s)
        as (r0 & s0 & E0).
      rewrite E0 in H. discriminate H. }
    apply reviewFile_progress in H1 as [Hp He].
    apply IH in H as [He' Hp']. rewrite Hp in He', Hp'. rewrite He in He'.
    rewrite turns_running in He', Hp'.
    split.
    + rewrite He', <- app_assoc. reflexivity.
    + rewrite Hp'. simpl turns.
      destruct (turns (S i) files (progress s)) as [|r0 l]; [reflexivity|].
      change (last (running i f (progress s) :: r0 :: l)) with (last (r0 :: l)).
      destruct (last (r0 :: l)) eqn:E; [reflexivity|]. by apply last_None in E.
Qed.

End SessionProgress.

Section SessionOutcome.
Context {engine : JsEngine}.
Variable gitService : GitService.
Variable network : nat -> Request -> Fetched.

(** What the session learns before its loop: the files to review, or the
    error that ends it. *)
Definition listing (repositoryUrl branch_ : jsstring) : Outcome (list jsstring) :=
  match cloneRepository gitService repositoryUrl branch_ (js "./temp_repo") with
  | Throw e => Throw e
  | Ok _ =>
      match getCodeFiles gitService (js "./temp_repo") with
      | Throw e => Throw e
      | Ok [] => Throw (js "未找到代码文件")
      | Ok (f :: fs) => Ok (f :: fs)
      end
  end.

(** The progress updates of a session over [files] that started from the
    record [p], in the order the subscribers receive them. *)
Definition announced (p : ReviewProgress) (files : list jsstring) : list ReviewProgress :=
  let n := length files in
  let e := Progress.error p in
  let found := js "找到" ++ decimal n ++ js "个代码文件" in
  let analyzing :=
    {| Progress.totalFiles := n; Progress.processedFiles := 0; Progress.currentFile := found;
       Progress.status := Analyzing; Progress.error := e |} in
  [ {| Progress.totalFiles := 0; Progress.processedFiles := 0;
       Progress.currentFile := js "正在获取仓库代码..."; Progress.status := Cloning;
       Progress.error := e |};
    {| Progress.totalFiles := 0; Progress.processedFiles := 0;
       Progress.currentFile := js "正在扫描代码文件..."; Progress.status := Cloning;
       Progress.error := e |};
    {| Progress.totalFiles := n; Progress.processedFiles := 0; Progress.currentFile := found;
       Progress.status := Cloning; Progress.error := e |};
    analyzing ]
  ++ turns 0 files analyzing
  ++ [ {| Progress.totalFiles := n; Progress.processedFiles := n - 1;
          Progress.currentFile := js "审查完成"; Progress.status := Completed;
          Progress.error := e |} ].

Lemma last_turns i f fs p :
  exists g, last (turns i (f :: fs) p) = Some (running (i + length fs) g p).
Proof.
  revert i f. induction fs as [|f' fs IH]; intros i f.
  - exists f. simpl. by rewrite Nat.add_0_r.
  - destruct (IH (S i) f') as [g Hg]. exists g.
    change (turns i (f :: f' :: fs) p) with (running i f p :: turns (S i) (f' :: fs) p).
    rewrite last_cons, Hg. simpl. f_equal. f_equal. lia.
Qed.

(** X14. A session whose repository is fetched and lists at least one code
    file never throws: it returns a result.  Its subscribers receive four
    updates before the loop, one update per file with [processedFiles] the
    index of the file, and a last update with status [completed]; in that
    last update [processedFiles] is one less than [totalFiles], and the
    [error] field is the one the session started with. *)
Theorem completed_session_progress repositoryUrl branch_ standardsContent files s :
  listing repositoryUrl branch_ = Ok files ->
  exists result s',
    executeReview gitService network repositoryUrl branch_ standardsContent s = (Ok result, s')
    /\ progressEvents s' = progressEvents s ++ announced (progress s) files
    /\ progress s'
       = {| Progress.totalFiles := length files;
            Progress.processedFiles := length files - 1;
            Progress.currentFile := js "审查完成"; Progress.status := Completed;
            Progress.error := Progress.error (progress s) |}.
Proof.
  unfold listing. intros Hl.
  destruct (cloneRepository _ _ _ _) as [cloneResult|e] eqn:Ec; [|discriminate].
  destruct (getCodeFiles _ _) as [[|f fs]|e] eqn:Eg; try discriminate.
  injection Hl as <-.
  unfold executeReview.
  change (bind (gets ?f) ?k s) with (k (f s) s). cbv beta.
  unfold tryCatch, executeTry.
  unfold bind at 1. unfold updateProgress at 1. unfold modify at 1.
  unfold bind at 1. unfold lift at 1. rewrite Ec.
  unfold bind at 1. unfold emitLog at 1. unfold modify at 1.
  unfold bind at 1. unfold updateProgress at 1. unfold modify at 1.
  unfold bind at 1. unfold lift at 1. rewrite Eg.
  unfold bind at 1. unfold updateProgress at 1. unfold modify at 1.
  unfold bind at 1. unfold emitLog at 1. unfold modify at 1.
  unfold bind at 1. unfold updateProgress at 1. unfold modify at 1.
  set (s2 := setProgress _ _).
  set (analyzing :=
         {| Progress.totalFiles := length (f :: fs); Progress.processedFiles := 0;
            Progress.currentFile := js "找到" ++ decimal (length (f :: fs)) ++ js "个代码文件";
            Progress.status := Analyzing; Progress.error := Progress.error (progress s) |}).
  assert (Hs2p : progress s2 = analyzing) by reflexivity.
  assert (Hs2e : progressEvents s2 ++ turns 0 (f :: fs) analyzing
                 ++ [ {| Progress.totalFiles := length (f :: fs);
                         Progress.processedFiles := length (f :: fs) - 1;
                         Progress.currentFile := js "审查完成"; Progress.status := Completed;
                         Progress.error := Progress.error (progress s) |} ]
                 = progressEvents s ++ announced (progress s) (f :: fs)).
  { subst s2. unfold announced. cbv zeta. fold analyzing.
    cbn [progressEvents setProgress addLog]. rewrite <- !app_assoc. reflexivity. }
  clearbody s2.
  unfold bind at 1.
  destruct (reviewFiles gitService network (f :: fs) standardsContent 0 [] s2) as [o3 s3] eqn:E3.
  pose proof (reviewFiles_progress _ _ _ _ _ _ _ _ _ E3) as [He3 Hp3].
  destruct (reviewFiles_spec gitService network standardsContent (f :: fs) 0 [] s2)
    as (rs & s3' & E3' & _).
  rewrite E3' in E3. injection E3 as <- ->.
  destruct (last_turns 0 f fs (progress s2)) as [g Hg]. rewrite Hg in Hp3.
  rewrite Hs2p in He3, Hp3.
  assert (Hp3' : progress s3 = running (0 + length fs) g analyzing) by exact Hp3.
  replace (length (f :: fs) - 1) with (0 + length fs) in * by (simpl; lia).
  eexists. eexists. split; [reflexivity|]. cbn [progressEvents progress setProgress addLog].
  rewrite He3, Hp3', <- Hs2e, <- !app_assoc. split; reflexivity.
Qed.

(** X15. A session whose repository cannot be fetched or listed, or lists no
    code file, throws that error (for an empty list, the error of line 98)
    after telling its subscribers: the progress record ends with status
    [error] and the message, that record is the last one the progress
    subscribers have received, and the last log event is the error. *)
Theorem failed_session_reports_its_error repositoryUrl branch_ standardsContent msg s :
  listing repositoryUrl branch_ = Throw msg ->
  exists s',
    executeReview gitService network repositoryUrl branch_ standardsContent s = (Throw msg, s')
    /\ Progress.status (progress s') = StatusError
    /\ Progress.error (progress s') = Some msg
    /\ last (progressEvents s') = Some (progress s')
    /\ last (logEvents s') = Some (logged LogError (js "审查过程出错") msg).
Proof.
  unfold listing. intros Hl.
  unfold executeReview.
  change (bind (gets ?f) ?k s) with (k (f s) s). cbv beta.
  unfold tryCatch, executeTry.
  unfold bind at 1. unfold updateProgress at 1. unfold modify at 1.
  unfold bind at 1. unfold lift at 1.
  destruct (cloneRepository _ _ _ _) as [cloneResult|e] eqn:Ec.
  2:{ injection Hl as ->. eexists. split; [reflexivity|].
      cbn [progress progressEvents logEvents setProgress addLog Progress.status
             Progress.error].
      repeat split; apply last_snoc. }
  unfold bind at 1. unfold emitLog at 1. unfold modify at 1.
  unfold bind at 1. unfold updateProgress at 1. unfold modify at 1.
  unfold bind at 1. unfold lift at 1.
  destruct (getCodeFiles _ _) as [[|f fs]|e] eqn:Eg; [| discriminate |];
    injection Hl as <-; (eexists; split; [reflexivity|]);
    cbn [progress progressEvents logEvents setProgress addLog Progress.status
           Progress.error];
    repeat split; apply last_snoc.
Qed.

End SessionOutcome.

(** An empty repository, and the three files of the other sessions. *)
Lemma failed_session_reports_its_error_witness :
  let git := {| cloneRepository := fun _ _ _ => Ok (js "cloned");
                getCodeFiles := fun _ => Ok [];
                readFileContent := fun _ => Ok [] |} in
  let s := Scenario.fresh (Scenario.configured Scenario.gpt4) in
  exists s',
    executeReview git Scenario.offline (js "repo") (js "main") [] s
    = (Throw (js "未找到代码文件"), s')
    /\ Progress.status (progress s') = StatusError
    /\ Progress.error (progress s') = Some (js "未找到代码文件")
    /\ last (progressEvents s') = Some (progress s')
    /\ last (logEvents s') = Some (logged LogError (js "审查过程出错") (js "未找到代码文件")).
Proof.
  cbv zeta. apply failed_session_reports_its_error. reflexivity.
Defined.

Lemma completed_session_progress_witness :
  let s := Scenario.fresh (Scenario.configured Scenario.gpt4) in
  let files := [js "a.ts"; js "b.ts"; js "c.ts"] in
  exists result s',
    executeReview Scenario.threeFiles Scenario.offline (js "repo") (js "main") [] s
    = (Ok result, s')
    /\ progressEvents s' = progressEvents s ++ announced (progress s) files
    /\ progress s'
       = {| Progress.totalFiles := length files;
            Progress.processedFiles := length files - 1;
            Progress.currentFile := js "审查完成"; Progress.status := Completed;
            Progress.error := Progress.error (progress s) |}.
Proof.
  cbv zeta. apply completed_session_progress. reflexivity.
Defined.

(** ** The requests of a review *)

Section Wire.
Context {engine : JsEngine}.
Variable network : nat -> Request -> Fetched.

(** Between [s] and [s'] exactly the requests [new] were sent, in this
    order, and the settings of the client are the same. *)
Definition Sent (new : list Request) (s s' : Session) : Prop :=
  requests s' = requests s ++ new
  /\ apiKey (service s') = apiKey (service s)
  /\ model (service s') = model (service s)
  /\ connectionMode (service s') = connectionMode (service s)
  /\ proxyUrl (service s') = proxyUrl (service s).

Lemma Sent_refl s : Sent [] s s.
Proof. repeat split. by rewrite app_nil_r. Qed.

Lemma Sent_app a b s s1 s2 : Sent a s s1 -> Sent b s1 s2 -> Sent (a ++ b) s s2.
Proof.
  intros (H1 & H2 & H3 & H4 & H5) (G1 & G2 & G3 & G4 & G5).
  repeat split; try congruence. by rewrite G1, H1, app_assoc.
Qed.

Lemma Offline_trans a b c : Sent [] a b -> Sent [] b c -> Sent [] a c.
Proof. apply (Sent_app [] []). Qed.

Lemma Offline_addLog e s : Sent [] s (addLog e s).
Proof. repeat split. simpl. by rewrite app_nil_r. Qed.

Lemma Offline_advance ms s : Sent [] s (advance ms s).
Proof. repeat split. simpl. by rewrite app_nil_r. Qed.

Lemma Offline_service f s : Harmless f -> Sent [] s (setService f s).
Proof.
  intros H. destruct (H (service s)) as (_ & ? & ? & ? & ?).
  repeat split; simpl; try done. by rewrite app_nil_r.
Qed.

Lemma Offline_settings f s :
  (forall a, apiKey (f a) = apiKey a /\ model (f a) = model a
             /\ connectionMode (f a) = connectionMode a /\ proxyUrl (f a) = proxyUrl a) ->
  Sent [] s (setService f s).
Proof.
  intros H. destruct (H (service s)) as (? & ? & ? & ?).
  repeat split; simpl; try done. by rewrite app_nil_r.
Qed.

#[local] Hint Resolve Sent_refl Offline_trans : keeps.

Lemma Offline_logWith log phase info : Quiet log -> Keeps (Sent []) (logWith log phase info).
Proof. apply Keeps_logWith; [apply Sent_refl|apply Offline_addLog]. Qed.

(** A quiet logger never throws. *)
Lemma logWith_then {B} log phase info (k : unit -> M B) s o s' :
  Quiet log ->
  bind (logWith log phase info) k s = (o, s') ->
  exists s1, Sent [] s s1 /\ k tt s1 = (o, s').
Proof.
  intros Q H. destruct (logWith_quiet log phase info s Q) as (s1 & E & _).
  rewrite (bind_step _ _ _ _ _ E) in H. exists s1. split; [|exact H].
  eapply Offline_logWith; eassumption.
Qed.

Lemma fetch_Sent r s o s' : fetch network r s = (o, s') -> Sent [r] s s'.
Proof.
  unfold fetch, bind, gets, modify, lift. intros [= _ <-]. repeat split.
Qed.

Lemma Offline_json res : Keeps (Sent []) (json res).
Proof. apply Keeps_json; [apply Sent_refl|apply Offline_trans]. Qed.

(** The request [doDirect] sends to the endpoint [u], lines 257-264. *)
Definition directRequest (cfg : ProviderConfig) (key : jsstring)
           (body : list (jsstring * Value)) (u : jsstring) : Request :=
  {| url := u;
     headers := [ (js "Content-Type", js "application/json");
                  (headerAuth cfg, js "Bearer " ++ key) ];
     requestBody := JSON_stringify (JObj body) |}.

(** The request [doProxy] sends to the relay at [proxy], lines 285-292. *)
Definition relayRequest (proxy key : jsstring) (body : list (jsstring * Value)) : Request :=
  {| url := dropFinalSlash proxy ++ js "/v1/chat/completions";
     headers := [ (js "Content-Type", js "application/json") ];
     requestBody := JSON_stringify (JObj (body ++ [(js "api_key", str key)])) |}.

(** The request of the message-style branch, lines 318-334. *)
Definition messageRequest (cfg : ProviderConfig) (m : AIModel) (key prompt : jsstring) : Request :=
  {| url := default [] (head (urls cfg));
     headers := [ (js "Content-Type", js "application/json"); (headerAuth cfg, key) ];
     requestBody :=
       JSON_stringify (JObj
         [ (js "model", str (model_id m));
           (js "max_tokens", num 2048);
           (js "messages",
             JArr [ JObj [(js "role", str (js "user")); (js "content", str prompt)] ]) ]) |}.

Lemma tryEndpoint_Sent log cfg key body u s o s' :
  Quiet log ->
  tryEndpoint network log cfg key body u s = (o, s') ->
  Sent [directRequest cfg key body u] s s' /\ exists r, o = Ok r.
Proof.
  intros Q. unfold tryEndpoint, tryCatch.
  destruct (bind _ _ s) as [o1 s1] eqn:E.
  assert (Sent [directRequest cfg key body u] s s1) as S1.
  { apply logWith_then in E as (s0 & S0 & E); [|exact Q].
    apply bind_inv in E as [(e & E & _)|(res & s2 & E2 & E)].
    - apply fetch_Sent in E. apply (Sent_app [] _ _ _ _ S0 E).
    - apply fetch_Sent in E2. pose proof (Sent_app [] _ _ _ _ S0 E2) as S2.
      rewrite <- (app_nil_r [_]). eapply Sent_app; [exact S2|].
      revert E. unfold text.
      assert (K : Keeps (Sent [])
                (if negb (ok res)
                 then let* t := lift (responseBody res) in
                      logWith log (js "AI请求失败")
                        (str (js "status " ++ decimal (httpStatus res) ++ js " · "
                              ++ slice 0 200 t));;;
                      ret (inr (js "HTTP " ++ decimal (httpStatus res)))
                 else let* j := json res in
                      ret (inl (chatReply j)) : M (Value + jsstring))).
      { repeat first [ apply Offline_logWith; exact Q | apply Offline_json | keeps_step ]. }
      apply K. }
  destruct o1 as [r|e].
  - intros [= <- <-]. split; [exact S1|eauto].
  - intros H. apply logWith_then in H as (s2 & S2 & H); [|exact Q].
    injection H as <- <-. split; [|eauto].
    rewrite <- (app_nil_r [_]). eapply Sent_app; eassumption.
Qed.

Lemma doDirectFrom_Sent log cfg key body us :
  Quiet log ->
  forall lastErr s o s',
    doDirectFrom network log cfg key body lastErr us s = (o, s') ->
    exists k, k <= length us
              /\ Sent (map (directRequest cfg key body) (take k us)) s s'
              /\ (forall e, o = Throw e -> k = length us).
Proof.
  intros Q. induction us as [|u us IH]; intros lastErr s o s' H; simpl in H.
  - exists 0. split; [done|]. split; [|done].
    destruct lastErr; injection H as _ <-; apply Sent_refl.
  - apply bind_inv in H as [(e & H & _)|(r & s1 & H1 & H)].
    { apply tryEndpoint_Sent in H as (_ & r & [=]). exact Q. }
    apply tryEndpoint_Sent in H1 as (S1 & _); [|exact Q].
    destruct r as [reply|e].
    + injection H as <- <-. exists 1. split; [simpl; lia|]. split; [|done].
      simpl. destruct us; exact S1.
    + apply IH in H as (k & Hk & S2 & Hthrow). exists (S k).
      split; [simpl; lia|]. split.
      * simpl. apply (Sent_app [_] _ _ _ _ S1 S2).
      * intros e' He. simpl. f_equal. eauto.
Qed.

Lemma doProxy_Sent log key body s o s' :
  Quiet log ->
  doProxy network log key body s = (o, s') ->
  match proxyUrl (service s) with
  | [] => o = Throw (js "未配置代理地址") /\ s' = s
  | _ :: _ => Sent [relayRequest (proxyUrl (service s)) key body] s s'
  end.
Proof.
  intros Q. unfold doProxy.
  change (bind (gets ?f) ?k s) with (k (f s) s). cbv beta.
  destruct (proxyUrl (service s)) as [|c p]; [by intros [= <- <-]|].
  intros H. apply logWith_then in H as (s0 & S0 & H); [|exact Q].
  apply bind_inv in H as [(e & E & _)|(res & s2 & E2 & E)].
  - apply fetch_Sent in E. apply (Sent_app [] _ _ _ _ S0 E).
  - apply fetch_Sent in E2. pose proof (Sent_app [] _ _ _ _ S0 E2) as S2.
    rewrite <- (app_nil_r [_]). eapply Sent_app; [exact S2|].
    revert E. unfold text.
    assert (K : Keeps (Sent [])
              (if negb (ok res)
               then let* t := lift (responseBody res) in
                    throw (js "代理HTTP " ++ decimal (httpStatus res) ++ js " · "
                           ++ slice 0 200 t)
               else let* j := json res in
                    ret (chatReply j) : M Value)).
    { repeat first [ apply Offline_json | keeps_step ]. }
    apply K.
Qed.

Lemma dispatchChat_Sent log cfg key body s o s' :
  Quiet log ->
  dispatchChat network log cfg key body s = (o, s') ->
  match connectionMode (service s) with
  | Direct => exists k, Sent (map (directRequest cfg key body) (take k (urls cfg))) s s'
  | Proxy =>
      match proxyUrl (service s) with
      | [] => s' = s
      | _ :: _ => Sent [relayRequest (proxyUrl (service s)) key body] s s'
      end
  | Auto =>
      (exists k, Sent (map (directRequest cfg key body) (take k (urls cfg))) s s')
      \/ (proxyUrl (service s) <> []
          /\ Sent (map (directRequest cfg key body) (urls cfg)
                   ++ [relayRequest (proxyUrl (service s)) key body]) s s')
  end.
Proof.
  intros Q. unfold dispatchChat.
  change (bind (gets ?f) ?k s) with (k (f s) s). cbv beta.
  destruct (connectionMode (service s)).
  - unfold tryCatch, doDirect.
    destruct (doDirectFrom _ _ _ _ _ _ _ s) as [[reply|e] s1] eqn:E;
      apply doDirectFrom_Sent in E as (k & _ & S1 & Hthrow); try exact Q.
    + intros [= <- <-]. left. eauto.
    + rewrite (Hthrow e eq_refl), firstn_all in S1.
      change (bind (gets ?f) ?k s1) with (k (f s1) s1). cbv beta.
      pose proof S1 as (_ & _ & _ & _ & P1). rewrite P1.
      destruct (proxyUrl (service s)) as [|c p] eqn:Ep.
      * intros [= <- <-]. left. exists (length (urls cfg)).
        rewrite firstn_all. exact S1.
      * intros H. apply logWith_then in H as (s2 & S2 & H); [|exact Q].
        apply doProxy_Sent in H; [|exact Q].
        pose proof S2 as (_ & _ & _ & _ & P2).
        rewrite P2, P1 in H. right. split; [done|].
        pose proof (Sent_app _ _ _ _ _ S1 S2) as S12. rewrite app_nil_r in S12.
        exact (Sent_app _ _ _ _ _ S12 H).
  - intros H. unfold doDirect in H.
    apply doDirectFrom_Sent in H as (k & _ & S1 & _); eauto.
  - intros H. apply doProxy_Sent in H; [|exact Q].
    destruct (proxyUrl (service s)); [by destruct H|exact H].
Qed.

Lemma dispatchMessages_Sent log cfg m key prompt s o s' :
  Quiet log ->
  dispatchMessages network log cfg m key prompt s = (o, s') ->
  Sent [messageRequest cfg m key prompt] s s'.
Proof.
  intros Q. unfold dispatchMessages. cbv zeta. intros H.
  apply logWith_then in H as (s0 & S0 & H); [|exact Q].
  apply bind_inv in H as [(e & E & _)|(res & s2 & E2 & E)].
  - apply fetch_Sent in E. apply (Sent_app [] _ _ _ _ S0 E).
  - apply fetch_Sent in E2. pose proof (Sent_app [] _ _ _ _ S0 E2) as S2.
    rewrite <- (app_nil_r [_]). eapply Sent_app; [exact S2|].
    revert E.
    assert (K : Keeps (Sent []) (let* j := json res in ret (messageReply j) : M Value)).
    { repeat first [ apply Offline_json | keeps_step ]. }
    apply K.
Qed.

Lemma requestReply_Sent log m key prompt cfg s o s' :
  Quiet log ->
  getProviderConfig (model_id m) = Configured cfg ->
  requestReply network log m key prompt s = (o, s') ->
  exists s0,
    Sent [] s s0
    /\ (if isChat (ptype cfg)
        then dispatchChat network log cfg key (chatBody m prompt) s0
        else dispatchMessages network log cfg m key prompt s0) = (o, s').
Proof.
  intros Q Hcfg. unfold requestReply. cbv zeta. rewrite Hcfg.
  change (bind (gets ?f) ?k s) with (k (f s) s). cbv beta.
  destruct (_ && _).
  - intros H. apply bind_inv in H as [(e & H & _)|([] & s0 & H0 & H)].
    + apply bind_inv in H as [(e' & [=] & _)|([] & s1 & H1 & H)].
      destruct (logWith_quiet log (js "提示")
                  (str (js "该供应商可能不支持浏览器直连，建议使用服务器代理")) s1 Q)
        as (s2 & E & _).
      rewrite E in H. discriminate.
    + exists s0. split; [|by destruct (isChat _)].
      revert H0.
      assert (K : Keeps (Sent [])
                (warn (model_id m);;;
                 logWith log (js "提示")
                   (str (js "该供应商可能不支持浏览器直连，建议使用服务器代理")))).
      { apply Keeps_bind; [apply Offline_trans| |intros _; by apply Offline_logWith].
        apply Keeps_warn. intros f s2. apply Offline_service. }
      apply K.
  - intros H. exists s. split; [apply Sent_refl|]. by destruct (isChat _).
Qed.

Lemma Offline_acceptReply log filePath code_ start responseText :
  Quiet log -> Keeps (Sent []) (acceptReply log filePath code_ start responseText).
Proof.
  intros Q. unfold acceptReply, countSuccess, setStats, updateService.
  repeat first [ apply Offline_logWith; exact Q
               | apply Keeps_modify; intros ?; apply Offline_settings; intros ?; repeat split
               | keeps_step ].
Qed.

Lemma enforceRateLimit_then {B} modelId (k : unit -> M B) s o s' :
  bind (enforceRateLimit modelId) k s = (o, s') ->
  exists s1, Sent [] s s1 /\ k tt s1 = (o, s').
Proof.
  intros H. destruct (enforceRateLimit_returns modelId s) as (s1 & E & _).
  rewrite (bind_step _ _ _ _ _ E) in H. exists s1. split; [|exact H].
  revert E. apply Keeps_enforceRateLimit;
    [apply Sent_refl|apply Offline_trans|apply Offline_advance|apply Offline_service].
Qed.

(** Where the requests of a review go, for the settings [a] of the client:
    the endpoints of the provider in their order, up to the one that
    answers, in mode [direct]; the relay alone, and only if one is set, in
    mode [proxy]; in mode [auto] the endpoints and, once all of them have
    failed and a relay is set, the relay; one request to the first endpoint
    for the message-style provider, whatever the mode. *)
Definition wire (a : AIService) (cfg : ProviderConfig) (m : AIModel)
           (key prompt : jsstring) (new : list Request) : Prop :=
  if isChat (ptype cfg) then
    let direct := directRequest cfg key (chatBody m prompt) in
    let relay := relayRequest (proxyUrl a) key (chatBody m prompt) in
    match connectionMode a with
    | Direct => exists k, new = map direct (take k (urls cfg))
    | Proxy => new = match proxyUrl a with [] => [] | _ :: _ => [relay] end
    | Auto => (exists k, new = map direct (take k (urls cfg)))
              \/ (proxyUrl a <> [] /\ new = map direct (urls cfg) ++ [relay])
    end
  else new = [messageRequest cfg m key prompt].

Lemma dispatch_wire log m key prompt cfg s0 o s' :
  Quiet log ->
  (if isChat (ptype cfg)
   then dispatchChat network log cfg key (chatBody m prompt) s0
   else dispatchMessages network log cfg m key prompt s0) = (o, s') ->
  exists new, Sent new s0 s' /\ wire (service s0) cfg m key prompt new.
Proof.
  intros Q. unfold wire. destruct (isChat (ptype cfg)).
  - intros H. apply dispatchChat_Sent in H; [|exact Q]. cbv zeta.
    destruct (connectionMode (service s0)).
    + destruct H as [(k & H)|(Hp & H)]; eexists; (split; [exact H|]); eauto.
    + destruct H as (k & H). eexists; split; [exact H|]. eauto.
    + destruct (proxyUrl (service s0)).
      * subst s'. exists []. split; [apply Sent_refl|done].
      * eexists; split; [exact H|done].
  - intros H. apply dispatchMessages_Sent in H; [|exact Q]. eauto.
Qed.

Lemma wire_settings a a' cfg m key prompt new :
  connectionMode a' = connectionMode a -> proxyUrl a' = proxyUrl a ->
  wire a' cfg m key prompt new -> wire a cfg m key prompt new.
Proof. unfold wire. by intros -> ->. Qed.

(** X16. The requests of one review, for a client with a key and a model
    of a configured provider.  They carry the prompt built from the masked
    code and go where the connection mode says. *)
Theorem review_requests_follow_the_mode
        filePath code_ language standards_ log (m : AIModel) cfg s o s' :
  Quiet log ->
  apiKey (service s) <> [] ->
  model (service s) = Some m ->
  getProviderConfig (model_id m) = Configured cfg ->
  reviewCode network filePath code_ language standards_ log s = (o, s') ->
  exists new,
    requests s' = requests s ++ new
    /\ wire (service s) cfg m (apiKey (service s))
            (buildPrompt filePath (Mask.maskSensitive code_) language standards_) new.
Proof.
  intros Q Hk Hm Hcfg. unfold reviewCode.
  change (bind (gets ?f) ?k s) with (k (f s) s). cbv beta.
  change (bind (gets ?f) ?k s) with (k (f s) s). cbv beta.
  rewrite Hm. destruct (apiKey (service s)) as [|c key] eqn:Ek; [done|]. clear Hk.
  intros H.
  apply logWith_then in H as (s1 & S1 & H); [|exact Q].
  change (bind (gets ?f) ?k s1) with (k (f s1) s1) in H. cbv beta zeta in H.
  apply logWith_then in H as (s2 & S2 & H); [|exact Q].
  apply enforceRateLimit_then in H as (s3 & S3 & H).
  change (bind (gets ?f) ?k s3) with (k (f s3) s3) in H. cbv beta in H.
  apply logWith_then in H as (s4 & S4 & H); [|exact Q].
  assert (Sent [] s s4) as S by (repeat (eapply Offline_trans; [eassumption|]); apply Sent_refl).
  clear S1 S2 S3 S4.
  assert (exists new s5, Sent new s4 s5 /\ Sent [] s5 s'
                         /\ wire (service s) cfg m (c :: key)
                              (buildPrompt filePath (Mask.maskSensitive code_) language
                                 standards_) new) as (new & s5 & S5 & S6 & W).
  { unfold tryCatch in H.
    destruct (reviewTry _ _ _ _ _ _ _ _ s4) as [[r|e] s5] eqn:E5.
    - injection H as _ <-. unfold reviewTry in E5.
      apply bind_inv in E5 as [(e & E5 & [=])|(rt & s6 & E6 & E5)].
      apply requestReply_Sent with (cfg := cfg) in E6 as (s0 & S0 & E6); [|exact Q|exact Hcfg].
      apply dispatch_wire in E6 as (new & S6 & W); [|exact Q].
      exists new, s6. split; [apply (Sent_app [] _ _ _ _ S0 S6)|].
      split; [eapply Offline_acceptReply; eassumption|].
      pose proof (Sent_app _ _ _ _ _ S S0) as (_ & _ & _ & Hc & Hp).
      eapply wire_settings; [exact Hc|exact Hp|exact W].
    - assert (exists new, Sent new s4 s5
                /\ wire (service s) cfg m (c :: key)
                     (buildPrompt filePath (Mask.maskSensitive code_) language
                        standards_) new) as (new & S5 & W).
      { unfold reviewTry in E5.
        apply bind_inv in E5 as [(e' & E5 & _)|(rt & s6 & E6 & E5)].
        - apply requestReply_Sent with (cfg := cfg) in E5 as (s0 & S0 & E5);
            [|exact Q|exact Hcfg].
          apply dispatch_wire in E5 as (new & S6 & W); [|exact Q].
          exists new. split; [apply (Sent_app [] _ _ _ _ S0 S6)|].
          pose proof (Sent_app _ _ _ _ _ S S0) as (_ & _ & _ & Hc & Hp).
          eapply wire_settings; [exact Hc|exact Hp|exact W].
        - apply requestReply_Sent with (cfg := cfg) in E6 as (s0 & S0 & E6);
            [|exact Q|exact Hcfg].
          apply dispatch_wire in E6 as (new & S6 & W); [|exact Q].
          exists new. split.
          + rewrite <- (app_nil_r new). eapply Sent_app; [apply (Sent_app [] _ _ _ _ S0 S6)|].
            eapply Offline_acceptReply; eassumption.
          + pose proof (Sent_app _ _ _ _ _ S S0) as (_ & _ & _ & Hc & Hp).
            eapply wire_settings; [exact Hc|exact Hp|exact W]. }
      exists new, s5. split; [exact S5|]. split; [|exact W].
      revert H.
      assert (K : Keeps (Sent [])
                (logWith log (js "AI请求失败") (str e);;;
                 countFailure e;;;
                 ret {| file := filePath; issues := [failIssue code_];
                        summary := js "AI调用失败，返回降级结果" |})).
      { unfold countFailure, setStats, updateService.
        repeat first [ apply Offline_logWith; exact Q
                     | apply Keeps_modify; intros ?; apply Offline_settings; intros ?;
                       repeat split
                     | keeps_step ]. }
      apply K. }
  exists new. split; [|exact W].
  pose proof (Sent_app _ _ _ _ _ (Sent_app _ _ _ _ _ S S5) S6) as (R & _).
  rewrite R. simpl. by rewrite app_nil_r.
Qed.

End Wire.

Lemma review_requests_follow_the_mode_witness :
  let s := Scenario.fresh (Scenario.configured Scenario.gpt4) in
  let out := reviewCode Scenario.offline (js "a.ts") (js "token = abc") (js "typescript") []
               None s in
  exists new,
    requests out.2 = requests s ++ new
    /\ wire (service s) (chat OpenAI [js "https://api.openai.com/v1/chat/completions"])
         Scenario.gpt4 (apiKey (service s))
         (buildPrompt (js "a.ts") (Mask.maskSensitive (js "token = abc")) (js "typescript") [])
         new.
Proof.
  cbv zeta.
  apply (review_requests_follow_the_mode Scenario.offline (js "a.ts") (js "token = abc")
           (js "typescript") [] None Scenario.gpt4
           (chat OpenAI [js "https://api.openai.com/v1/chat/completions"])
           (Scenario.fresh (Scenario.configured Scenario.gpt4))
           (reviewCode Scenario.offline (js "a.ts") (js "token = abc") (js "typescript") []
              None (Scenario.fresh (Scenario.configured Scenario.gpt4))).1
           (reviewCode Scenario.offline (js "a.ts") (js "token = abc") (js "typescript") []
              None (Scenario.fresh (Scenario.configured Scenario.gpt4))).2).
  - exact I.
  - discriminate.
  - reflexivity.
  - reflexivity.
  - by destruct (reviewCode _ _ _ _ _ _ _).
Defined.

(** ** Normalization: the text around the array *)

Section Enclosed.
Context {engine : JsEngine}.

Lemma dropWhile_app_stop p a c r :
  p c = false -> dropWhile p (a ++ c :: r) = dropWhile p a ++ c :: r.
Proof.
  intros Hc. induction a as [|d a IH]; simpl; [by rewrite Hc|].
  destruct (p d); [exact IH|reflexivity].
Qed.

Lemma dropWhile_elem p a (x : N) : x ∈ dropWhile p a -> x ∈ a.
Proof.
  induction a as [|d a IH]; simpl; [done|].
  destruct (p d); [|done]. intros H. right. by apply IH.
Qed.

(** [trim] does not reach past a bracket on either side. *)
Lemma trim_brackets pre mid post :
  trim (pre ++ 91%N :: mid ++ 93%N :: post)
  = trimStart pre ++ 91%N :: mid ++ 93%N :: trimEnd post.
Proof.
  unfold trim, trimStart, trimEnd.
  rewrite dropWhile_app_stop by reflexivity.
  replace (dropWhile isWhiteSpace pre ++ 91%N :: mid ++ 93%N :: post)
    with ((dropWhile isWhiteSpace pre ++ 91%N :: mid) ++ 93%N :: post)
    by (by rewrite <- app_assoc).
  rewrite reverse_app, reverse_cons, <- app_assoc.
  change ([93%N] ++ ?x) with (93%N :: x).
  rewrite dropWhile_app_stop by reflexivity.
  rewrite reverse_app, reverse_cons, reverse_involutive, <- !app_assoc.
  reflexivity.
Qed.

Lemma indexOf_first c a r : c ∉ a -> indexOf c (a ++ c :: r) = Some (length a).
Proof.
  induction a as [|d a IH]; simpl; [by rewrite N.eqb_refl|].
  intros H. apply not_elem_of_cons in H as [Hd Ha].
  destruct (N.eqb_spec c d); [done|]. by rewrite IH.
Qed.

Lemma lastIndexOf_last c a r : c ∉ r -> lastIndexOf c (a ++ c :: r) = Some (length a).
Proof.
  intros Hr. induction a as [|d a IH]; simpl.
  - rewrite (lastIndexOf_absent c r Hr). by rewrite N.eqb_refl.
  - by rewrite IH.
Qed.

Lemma trimEnd_elem (x : N) s : x ∈ trimEnd s -> x ∈ s.
Proof.
  unfold trimEnd. intros H. rewrite elem_of_reverse in H.
  apply dropWhile_elem in H. by rewrite elem_of_reverse in H.
Qed.

Lemma normalizeTry_brackets pre mid post :
  91%N ∉ pre -> 93%N ∉ post ->
  normalizeTry (JStr (pre ++ 91%N :: mid ++ 93%N :: post))
  = match JSON_parse (91%N :: mid ++ [93%N]) with
    | Ok (JArr arr) =>
        match mapM (M := option) issueOfValue arr with
        | Some l => Ok (Some l)
        | None => Throw (js "TypeError")
        end
    | Ok _ => Ok None
    | Throw e => Throw e
    end.
Proof.
  intros Hpre Hpost. unfold normalizeTry. cbv zeta. rewrite trim_brackets.
  assert (91%N ∉ trimStart pre) as Hpre'.
  { intros H. apply Hpre. by apply dropWhile_elem in H. }
  assert (93%N ∉ trimEnd post) as Hpost'.
  { intros H. apply Hpost. by apply trimEnd_elem in H. }
  rewrite (indexOf_first 91 _ _ Hpre').
  replace (trimStart pre ++ 91%N :: mid ++ 93%N :: trimEnd post)
    with ((trimStart pre ++ 91%N :: mid) ++ 93%N :: trimEnd post)
    by (by rewrite <- app_assoc).
  rewrite (lastIndexOf_last 93 _ _ Hpost').
  rewrite length_app. cbn [length].
  replace (length (trimStart pre) <? length (trimStart pre) + S (length mid)) with true
    by (symmetry; apply Nat.ltb_lt; lia).
  unfold slice. rewrite <- app_assoc, drop_app_length.
  replace (length (trimStart pre) + S (length mid) + 1 - length (trimStart pre))
    with (length (91%N :: mid ++ [93%N])) by (simpl; rewrite length_app; simpl; lia).
  change (91%N :: mid ++ 93%N :: trimEnd post) with ((91%N :: mid) ++ 93%N :: trimEnd post).
  replace ((91%N :: mid) ++ 93%N :: trimEnd post)
    with ((91%N :: mid ++ [93%N]) ++ trimEnd post)
    by (simpl; by rewrite <- app_assoc).
  rewrite take_app_length. reflexivity.
Qed.

(** X17. Whatever surrounds the array in the response is ignored: when no
    [[] comes before the array and no []] after it, the findings are those
    of the array alone. *)
Theorem text_around_the_array_is_ignored (pre mid post filePath code_ : jsstring) :
  91%N ∉ pre -> 93%N ∉ post ->
  normalizeIssuesFromText (JStr (pre ++ [91%N] ++ mid ++ [93%N] ++ post)) filePath code_
  = normalizeIssuesFromText (JStr ([91%N] ++ mid ++ [93%N])) filePath code_.
Proof.
  intros Hpre Hpost. unfold normalizeIssuesFromText.
  change (pre ++ [91%N] ++ mid ++ [93%N] ++ post) with (pre ++ 91%N :: mid ++ 93%N :: post).
  rewrite (normalizeTry_brackets pre mid post Hpre Hpost).
  change ([91%N] ++ mid ++ [93%N]) with ([] ++ 91%N :: mid ++ 93%N :: []).
  rewrite (normalizeTry_brackets [] mid []); [reflexivity| |]; apply not_elem_of_nil.
Qed.

End Enclosed.

Lemma text_around_the_array_is_ignored_witness :
  normalizeIssuesFromText
    (JStr (js "Here you are: " ++ [91%N] ++ js "{}" ++ [93%N] ++ js " Anything else?"))
    (js "a.ts") (js "x")
  = normalizeIssuesFromText (JStr ([91%N] ++ js "{}" ++ [93%N])) (js "a.ts") (js "x").
Proof.
  apply text_around_the_array_is_ignored;
    intros H; apply (bool_decide_eq_true_2 _) in H; vm_compute in H; discriminate.
Defined.

(** ** The repository service and the orchestrator *)

Section CodeFiles.
Context {engine : JsEngine}.

Lemma startsWith_inv p s : startsWith p s = true -> exists b, s = p ++ b.
Proof.
  revert s. induction p as [|a p IH]; intros s; [by exists s|].
  destruct s as [|c s]; [done|]. simpl. intros H.
  apply andb_prop in H as [Hc H]. apply N.eqb_eq in Hc as ->.
  destruct (IH s H) as [b ->]. by exists b.
Qed.

Lemma endsWith_inv p s : endsWith p s = true -> exists a, s = a ++ p.
Proof.
  unfold endsWith. intros H. apply startsWith_inv in H as [b H].
  exists (reverse b). apply (f_equal reverse) in H.
  by rewrite reverse_involutive, reverse_app, reverse_involutive in H.
Qed.

Lemma lowerUnits_dot c : c <> 46%N -> 46%N ∉ lowerUnits c.
Proof.
  intros Hc. unfold lowerUnits, isUpper.
  destruct (_ && _) eqn:Hu.
  - apply andb_prop in Hu as [H1 H2]. apply N.leb_le in H1, H2.
    intros H. apply list_elem_of_singleton in H. lia.
  - destruct (N.eqb_spec c 8490); [by intros H%list_elem_of_singleton|].
    destruct (N.eqb_spec c 304).
    + rewrite !elem_of_cons, elem_of_nil. intros [H|[H|[]]]; discriminate.
    + intros H%list_elem_of_singleton. congruence.
Qed.

Lemma split_app_without sep u rest :
  sep ∉ u ->
  split sep (u ++ rest)
  = match split sep rest with
    | h :: t => (u ++ h) :: t
    | [] => [u]
    end.
Proof.
  induction u as [|c u IH]; intros H; simpl.
  - pose proof (split_nonempty sep rest) as Hne.
    destruct (split sep rest); [simpl in Hne; lia|reflexivity].
  - apply not_elem_of_cons in H as [Hc Hu].
    destruct (N.eqb_spec c sep); [done|]. rewrite (IH Hu).
    pose proof (split_nonempty sep rest) as Hne.
    destruct (split sep rest); [simpl in Hne; lia|reflexivity].
Qed.

Lemma last_map {A B} (f : A -> B) l : last (map f l) = f <$> last l.
Proof. induction l as [|a [|b l] IH]; [done..|]. exact IH. Qed.

(** Lower-casing keeps the dots where they are. *)
Lemma split_toLowerCase s : split 46 (toLowerCase s) = map toLowerCase (split 46 s).
Proof.
  induction s as [|c s IH]; [reflexivity|].
  change (toLowerCase (c :: s)) with (lowerUnits c ++ toLowerCase s).
  destruct (N.eqb_spec c 46) as [->|Hc].
  - change (lowerUnits 46) with [46%N]. simpl. by rewrite IH.
  - rewrite (split_app_without 46 _ _ (lowerUnits_dot c Hc)), IH.
    simpl. apply N.eqb_neq in Hc. rewrite Hc.
    pose proof (split_nonempty 46 s) as Hne.
    destruct (split 46 s); [simpl in Hne; lia|reflexivity].
Qed.

Lemma codeExtension_language ext :
  ext ∈ codeExtensions ->
  exists e lang, ext = 46%N :: e /\ 46%N ∉ e /\ (e, lang) ∈ languageMap.
Proof.
  intros Hin.
  assert (forallb (fun x => existsb (fun el : jsstring * jsstring =>
                     bool_decide (x = 46%N :: el.1) && bool_decide (46%N ∉ el.1))
                     languageMap) codeExtensions = true) as Hall
    by (vm_compute; reflexivity).
  rewrite forallb_forall in Hall. apply list_elem_of_In, Hall in Hin.
  apply existsb_exists in Hin as ([e lang] & Hel & H).
  apply andb_prop in H as [H1 H2].
  apply bool_decide_eq_true in H1, H2.
  exists e, lang. repeat split; [exact H1|exact H2|by apply list_elem_of_In].
Qed.

(** X18. Every path that the repository service selects as a code file is
    given a language of the table by the orchestrator, never [text]. *)
Theorem code_files_have_a_language (filePath : jsstring) :
  isCodeFile filePath = true ->
  exists ext lang, (ext, lang) ∈ languageMap /\ detectLanguage filePath = lang.
Proof.
  unfold isCodeFile. intros H. apply existsb_exists in H as (ext & Hin & Hends).
  apply list_elem_of_In in Hin.
  destruct (codeExtension_language ext Hin) as (e & lang & -> & Hdot & Hlang).
  apply endsWith_inv in Hends as [a Ha].
  exists e, lang. split; [exact Hlang|].
  pose proof (split_last 46 a e Hdot) as Hlast.
  rewrite <- Ha, split_toLowerCase in Hlast.
  unfold detectLanguage. cbv zeta.
  destruct (last (split 46 filePath)) as [x|] eqn:Ex.
  2:{ apply last_None in Ex. pose proof (split_nonempty 46 filePath) as Hne.
      rewrite Ex in Hne. simpl in Hne. lia. }
  rewrite last_map, Ex in Hlast. injection Hlast as Hx.
  change (default [] (Some x)) with x. rewrite Hx.
  unfold languageMap in Hlang. rewrite !elem_of_cons, elem_of_nil in Hlang.
  repeat (destruct Hlang as [Hlang|Hlang]; [injection Hlang as -> ->; reflexivity|]).
  destruct Hlang.
Qed.

End CodeFiles.

Lemma code_files_have_a_language_witness :
  exists ext lang,
    (ext, lang) ∈ languageMap /\ detectLanguage (js "src/App.Test.TSX") = lang.
Proof. apply code_files_have_a_language. vm_compute. reflexivity. Defined.

Section ShippedRepository.
Context {engine : JsEngine}.
Variable network : nat -> Request -> Fetched.
Variable clone : jsstring -> jsstring -> jsstring -> Outcome jsstring.
Variable files : RepositoryFiles.

(** X19. With the repository service as shipped, reading a file never
    throws, so the handler of the loop of [executeReview] is not reached: a
    session that returns holds one review for each stored file whose
    content is not blank, in the order of the store, and each review is the
    note for an oversized file, the merge of the heuristic and the remote
    findings, or the heuristic findings alone -- never a failed read. *)
Theorem shipped_repository_reads_never_fail repositoryUrl branch_ standardsContent s result s' :
  executeReview (shippedGitService clone files) network repositoryUrl branch_
    standardsContent s = (Ok result, s') ->
  map file (reviews result)
  = filter (fun p => trim (storedContent files p) <> []) (storedCodeFiles files)
  /\ Forall (fun r =>
       let content := storedContent files (file r) in
       r = oversized (file r)
       \/ (exists aiReview, r = merged (file r) content aiReview)
       \/ r = heuristicOnly (file r) content) (reviews result).
Proof.
  intros H. apply executeReview_spec in H as (cloneResult & fs & s3 & _ & Hfs & _ & HR & _).
  injection Hfs as <-. split.
  - rewrite (Reviews_files _ _ _ _ _ _ _ _ HR). unfold reviewable, isBlank. simpl.
    apply list_filter_iff. intros p. rewrite bool_decide_eq_false. reflexivity.
  - apply Reviews_each in HR. clear -HR.
    induction HR as [|p r ps rs (j & sj & sj' & Hr) _ IH]; constructor; [|exact IH].
    pose proof (Reviewed_file _ _ _ _ _ _ _ _ Hr) as Hfile. cbv zeta. rewrite Hfile.
    destruct Hr as [msg Hread|content Hread _ _|content ai s2 Hread _ _ _
                   |content e s2 Hread _ _ _]; simpl in Hread.
    + discriminate.
    + by left.
    + injection Hread as <-. right. left. by exists ai.
    + injection Hread as <-. right. by right.
Qed.

End ShippedRepository.

(** A store of two files, the second one blank. *)
Lemma shipped_repository_reads_never_fail_witness :
  let files := [ (js "a.ts", {| Git.path := js "a.ts"; Git.content := js "let x = 1; ";
                                Git.language := js "typescript"; Git.size := 11 |});
                 (js "b.ts", {| Git.path := js "b.ts"; Git.content := js "  ";
                                Git.language := js "typescript"; Git.size := 2 |}) ] in
  let git := shippedGitService (fun _ _ _ => Ok (js "cloned")) files in
  exists result s',
    executeReview git Scenario.offline (js "repo") (js "main") []
      (Scenario.fresh (Scenario.configured Scenario.gpt4)) = (Ok result, s')
    /\ map file (reviews result)
       = filter (fun p => trim (storedContent files p) <> []) (storedCodeFiles files).
Proof.
  cbv zeta.
  destruct (executeReview _ _ _ _ _ _) as [[result|e] s'] eqn:E.
  - exists result, s'. split; [reflexivity|].
    exact (proj1 (shipped_repository_reads_never_fail _ _ _ _ _ _ _ _ _ E)).
  - apply (f_equal (fun o => match o.1 with Ok _ => true | Throw _ => false end)) in E.
    vm_compute in E. discriminate.
Defined.

(** ** The last word of a session *)

Section Completion.
Context {engine : JsEngine}.
Variable gitService : GitService.
Variable network : nat -> Request -> Fetched.

(** X20. The last log event of a session that returns is the completion
    message, and the two numbers it reports are the number of reviews of
    the result and the number of findings in them; the result echoes the
    repository, the branch and the standards it was asked for, and its
    duration is the time between its start and its end. *)
Theorem completion_log_reports_the_result repositoryUrl branch_ standardsContent s result s' :
  executeReview gitService network repositoryUrl branch_ standardsContent s = (Ok result, s') ->
  last (logEvents s')
  = Some (logged LogInfo (js "审查完成")
            (js "分析 " ++ decimal (length (reviews result)) ++ js " 文件，发现 "
             ++ decimal (length (allIssues (reviews result))) ++ js " 问题"))
  /\ repository result = repositoryUrl /\ branch result = branch_
  /\ standards result = standardsContent
  /\ startTime result = clock s
  /\ endTime result = Some (clock s')
  /\ duration result = Some (clock s' - clock s).
Proof.
  unfold executeReview.
  change (bind (gets ?f) ?k s) with (k (f s) s). cbv beta.
  unfold tryCatch.
  destruct (executeTry _ _ _ _ _ _ s) as [[r|e] s1] eqn:E; [|discriminate].
  intros [= -> ->]. revert E. unfold executeTry.
  unfold bind at 1. unfold updateProgress at 1. unfold modify at 1.
  unfold bind at 1. unfold lift at 1.
  destruct (cloneRepository _ _ _ _) as [cloneResult|e]; [|discriminate].
  unfold bind at 1. unfold emitLog at 1. unfold modify at 1.
  unfold bind at 1. unfold updateProgress at 1. unfold modify at 1.
  unfold bind at 1. unfold lift at 1.
  destruct (getCodeFiles _ _) as [files|e]; [|discriminate].
  destruct files as [|f files]; [discriminate|].
  unfold bind at 1. unfold updateProgress at 1. unfold modify at 1.
  unfold bind at 1. unfold emitLog at 1. unfold modify at 1.
  unfold bind at 1. unfold updateProgress at 1. unfold modify at 1.
  set (s2 := setProgress _ _).
  unfold bind at 1.
  destruct (reviewFiles_spec gitService network standardsContent (f :: files) 0 [] s2)
    as (rs & s3 & E3 & _).
  rewrite E3. simpl app.
  intros [= <- <-].
  cbn [logEvents setProgress addLog reviews repository branch standards startTime endTime
         duration clock].
  destruct (generateSummary_spec rs) as (H1 & H2 & _). rewrite H1, H2.
  split; [apply last_snoc|]. repeat split.
Qed.

End Completion.

Lemma completion_log_reports_the_result_witness :
  exists result s',
    executeReview Scenario.threeFiles Scenario.offline (js "repo") (js "main") []
      (Scenario.fresh (Scenario.configured Scenario.gpt4)) = (Ok result, s')
    /\ last (logEvents s')
       = Some (logged LogInfo (js "审查完成")
                 (js "分析 " ++ decimal (length (reviews result)) ++ js " 文件，发现 "
                  ++ decimal (length (allIssues (reviews result))) ++ js " 问题")).
Proof.
  destruct (executeReview _ _ _ _ _ _) as [[result|e] s'] eqn:E.
  - exists result, s'. split; [reflexivity|].
    exact (proj1 (completion_log_reports_the_result _ _ _ _ _ _ _ _ E)).
  - apply (f_equal (fun o => match o.1 with Ok _ => true | Throw _ => false end)) in E.
    vm_compute in E. discriminate.
Defined.

(** ** The hint about browser access *)

Section Hint.
Context {engine : JsEngine}.
Variable network : nat -> Request -> Fetched.

(** The phase under which [reviewCode] logs its hint, line 239. *)
Definition hintPhase : jsstring := js "提示".

(** Between [s] and [s'] the set of warned providers is the same, and [n]
    of the new log events are hints. *)
Definition Hinted (n : nat) (s s' : Session) : Prop :=
  warnedProviders (service s') = warnedProviders (service s)
  /\ exists new, logEvents s' = logEvents s ++ new
                 /\ length (filter (fun e => logMessage e = hintPhase) new) = n.

Lemma Hinted_refl s : Hinted 0 s s.
Proof. split; [done|]. exists []. by rewrite app_nil_r. Qed.

Lemma Hinted_app a b s s1 s2 : Hinted a s s1 -> Hinted b s1 s2 -> Hinted (a + b) s s2.
Proof.
  intros (W1 & n1 & L1 & F1) (W2 & n2 & L2 & F2). split; [congruence|].
  exists (n1 ++ n2). rewrite L2, L1, app_assoc. split; [done|].
  rewrite filter_app, length_app. lia.
Qed.

Lemma Hinted_trans a b c : Hinted 0 a b -> Hinted 0 b c -> Hinted 0 a c.
Proof. apply (Hinted_app 0 0). Qed.

#[local] Hint Resolve Hinted_refl Hinted_trans : keeps.

Lemma Hinted_still f s :
  warnedProviders (service (f s)) = warnedProviders (service s) ->
  logEvents (f s) = logEvents s -> Hinted 0 s (f s).
Proof. intros W L. split; [exact W|]. exists []. by rewrite app_nil_r. Qed.

Lemma Hinted_log lvl phase info :
  phase <> hintPhase -> Keeps (Hinted 0) (emitLog lvl phase info).
Proof.
  intros Hp. apply Keeps_modify. intros s. split; [done|].
  eexists. split; [reflexivity|]. by rewrite filter_cons_False.
Qed.

Ltac other_phase := intros Hphase; vm_compute in Hphase; discriminate.

Ltac hinted_step :=
  first [ apply Hinted_log; other_phase
        | apply Keeps_fetch;
          [apply Hinted_refl|apply Hinted_trans
          |intros ? ?; by apply Hinted_still|intros ? ?; by apply Hinted_still]
        | apply Keeps_json; [apply Hinted_refl|apply Hinted_trans]
        | apply Keeps_modify; intros ?; by apply Hinted_still
        | keeps_step ].

Lemma Hinted_tryEndpoint cfg key body u :
  Keeps (Hinted 0) (tryEndpoint network forwardLog cfg key body u).
Proof. unfold tryEndpoint, text, logWith, forwardLog. repeat hinted_step. Qed.

Lemma Hinted_doDirectFrom cfg key body lastErr us :
  Keeps (Hinted 0) (doDirectFrom network forwardLog cfg key body lastErr us).
Proof.
  revert lastErr. induction us as [|u us IH]; intros lastErr; simpl.
  - repeat keeps_step.
  - keeps_step; [apply Hinted_tryEndpoint|]. destruct a; [keeps_step|apply IH].
Qed.

Lemma Hinted_doProxy key body : Keeps (Hinted 0) (doProxy network forwardLog key body).
Proof. unfold doProxy, text, logWith, forwardLog. repeat hinted_step. Qed.

Lemma Hinted_dispatchChat cfg key body :
  Keeps (Hinted 0) (dispatchChat network forwardLog cfg key body).
Proof.
  unfold dispatchChat, doDirect.
  repeat first [ apply Hinted_doProxy | apply Hinted_doDirectFrom
               | unfold logWith, forwardLog; hinted_step ].
Qed.

Lemma Hinted_dispatchMessages cfg m key prompt :
  Keeps (Hinted 0) (dispatchMessages network forwardLog cfg m key prompt).
Proof. unfold dispatchMessages, logWith, forwardLog. repeat hinted_step. Qed.

Lemma Hinted_acceptReply filePath code_ start responseText :
  Keeps (Hinted 0) (acceptReply forwardLog filePath code_ start responseText).
Proof.
  unfold acceptReply, countSuccess, setStats, updateService, logWith, forwardLog.
  repeat hinted_step.
Qed.

Lemma Hinted_enforceRateLimit modelId : Keeps (Hinted 0) (enforceRateLimit modelId).
Proof. unfold enforceRateLimit, sleep, updateService. repeat hinted_step. Qed.

Lemma configured_cors modelId cfg :
  getProviderConfig modelId = Configured cfg -> corsSupported cfg = Some false.
Proof.
  intros H. apply getProviderConfig_Configured in H.
  unfold providerTable in H. rewrite !elem_of_cons, elem_of_nil in H.
  destruct H as [H|[H|[H|[H|[H|[]]]]]]; injection H as _ ->; reflexivity.
Qed.

Lemma forwardLog_step {B} phase info (k : unit -> M B) s :
  bind (logWith forwardLog phase info) k s
  = k tt (addLog {| level := LogInfo; logMessage := phase; details := Some info |} s).
Proof. reflexivity. Qed.

(** As [Hinted], with the provider [modelId] warned on the way. *)
Definition Warned (modelId : jsstring) (n : nat) (s s' : Session) : Prop :=
  warnedProviders (service s') = {[modelId]} ∪ warnedProviders (service s)
  /\ exists new, logEvents s' = logEvents s ++ new
                 /\ length (filter (fun e => logMessage e = hintPhase) new) = n.

Lemma Warned_after modelId n s s1 s2 :
  Warned modelId n s s1 -> Hinted 0 s1 s2 -> Warned modelId n s s2.
Proof.
  intros (W1 & n1 & L1 & F1) (W2 & n2 & L2 & F2). split; [congruence|].
  exists (n1 ++ n2). rewrite L2, L1, app_assoc. split; [done|].
  rewrite filter_app, length_app. lia.
Qed.

Lemma Warned_before modelId n s s1 s2 :
  Hinted 0 s s1 -> Warned modelId n s1 s2 -> Warned modelId n s s2.
Proof.
  intros (W1 & n1 & L1 & F1) (W2 & n2 & L2 & F2). split; [congruence|].
  exists (n1 ++ n2). rewrite L2, L1, app_assoc. split; [done|].
  rewrite filter_app, length_app. lia.
Qed.

Lemma requestReply_hint m key prompt cfg s o s' :
  getProviderConfig (model_id m) = Configured cfg ->
  requestReply network forwardLog m key prompt s = (o, s') ->
  Warned (model_id m)
    (if bool_decide (model_id m ∈ warnedProviders (service s)) then 0 else 1) s s'.
Proof.
  intros Hcfg. unfold requestReply. cbv zeta. rewrite Hcfg.
  change (bind (gets ?f) ?k s) with (k (f s) s). cbv beta.
  rewrite (configured_cors _ _ Hcfg).
  assert (K : Keeps (Hinted 0)
            (if isChat (ptype cfg)
             then dispatchChat network forwardLog cfg key (chatBody m prompt)
             else dispatchMessages network forwardLog cfg m key prompt)).
  { destruct (isChat _); [apply Hinted_dispatchChat|apply Hinted_dispatchMessages]. }
  destruct (bool_decide (model_id m ∈ warnedProviders (service s))) eqn:Hw.
  - apply bool_decide_eq_true in Hw. cbn [andb negb bool_decide].
    intros H. apply K in H. eapply Warned_after; [|exact H].
    split; [set_solver|]. exists []. by rewrite app_nil_r.
  - intros H. apply K in H. eapply Warned_after; [|exact H].
    split; [reflexivity|]. eexists. split; [reflexivity|]. reflexivity.
Qed.

(** X21. The hint that the provider may not allow calls from a browser is
    logged once for each model: a review on a configured model leaves the
    model among the warned ones, and logs the hint if and only if the
    model was not among them before. *)
Theorem hint_is_logged_once filePath code_ language standards_ (m : AIModel) cfg s o s' :
  apiKey (service s) <> [] ->
  model (service s) = Some m ->
  getProviderConfig (model_id m) = Configured cfg ->
  reviewCode network filePath code_ language standards_ forwardLog s = (o, s') ->
  model_id m ∈ warnedProviders (service s')
  /\ exists new,
       logEvents s' = logEvents s ++ new
       /\ length (filter (fun e => logMessage e = hintPhase) new)
          = if bool_decide (model_id m ∈ warnedProviders (service s)) then 0 else 1.
Proof.
  intros Hk Hm Hcfg. unfold reviewCode.
  change (bind (gets ?f) ?k s) with (k (f s) s). cbv beta.
  change (bind (gets ?f) ?k s) with (k (f s) s). cbv beta.
  rewrite Hm. destruct (apiKey (service s)) as [|c key] eqn:Ek; [done|]. clear Hk.
  rewrite forwardLog_step. set (s1 := addLog _ s).
  change (bind (gets ?f) ?k s1) with (k (f s1) s1). cbv beta zeta.
  rewrite forwardLog_step. set (s2 := addLog _ s1).
  assert (Hinted 0 s s2) as S2.
  { apply (Hinted_app 0 0 s s1 s2); (split; [done|]); (eexists; split; [reflexivity|]);
      rewrite filter_cons_False; [done|other_phase|done|other_phase]. }
  clearbody s2. intros H.
  destruct (enforceRateLimit_returns (model_id m) s2) as (s3 & E3 & _).
  rewrite (bind_step _ _ _ _ _ E3) in H.
  apply Hinted_enforceRateLimit in E3.
  change (bind (gets ?f) ?k s3) with (k (f s3) s3) in H. cbv beta in H.
  rewrite forwardLog_step in H.
  match type of H with tryCatch _ _ ?st = _ => set (s4 := st) in H end.
  assert (Hinted 0 s s4) as S4.
  { eapply Hinted_trans; [exact S2|]. eapply Hinted_trans; [exact E3|].
    split; [done|]. eexists. split; [reflexivity|].
    rewrite filter_cons_False; [done|other_phase]. }
  clearbody s4.
  assert (Warned (model_id m)
            (if bool_decide (model_id m ∈ warnedProviders (service s4)) then 0 else 1)
            s4 s') as W.
  { unfold tryCatch in H.
    destruct (reviewTry _ _ _ _ _ _ _ _ s4) as [[r|e] s5] eqn:E5.
    - injection H as _ <-. unfold reviewTry in E5.
      apply bind_inv in E5 as [(e & E5 & [=])|(rt & s6 & E6 & E5)].
      eapply Warned_after; [eapply requestReply_hint; eassumption|].
      eapply Hinted_acceptReply; eassumption.
    - assert (Warned (model_id m)
                (if bool_decide (model_id m ∈ warnedProviders (service s4)) then 0 else 1)
                s4 s5) as W5.
      { unfold reviewTry in E5.
        apply bind_inv in E5 as [(e' & E5 & _)|(rt & s6 & E6 & E5)].
        - eapply requestReply_hint; eassumption.
        - eapply Warned_after; [eapply requestReply_hint; eassumption|].
          eapply Hinted_acceptReply; eassumption. }
      eapply Warned_after; [exact W5|]. revert H.
      assert (K : Keeps (Hinted 0)
                (logWith forwardLog (js "AI请求失败") (str e);;;
                 countFailure e;;;
                 ret {| file := filePath; issues := [failIssue code_];
                        summary := js "AI调用失败，返回降级结果" |})).
      { unfold countFailure, setStats, updateService, logWith, forwardLog.
        repeat hinted_step. }
      apply K. }
  destruct S4 as (W4 & n4 & L4 & F4). rewrite W4 in W.
  destruct W as (W' & n' & L' & F'). split; [rewrite W'; set_solver|].
  exists (n4 ++ n'). rewrite L', L4, app_assoc. split; [done|].
  rewrite filter_app, length_app, F4, F'. reflexivity.
Qed.

End Hint.

Lemma hint_is_logged_once_witness :
  let s := Scenario.fresh (Scenario.configured Scenario.gpt4) in
  let out := reviewCode Scenario.offline (js "a.ts") (js "x") (js "typescript") []
               forwardLog s in
  model_id Scenario.gpt4 ∈ warnedProviders (service out.2)
  /\ exists new,
       logEvents out.2 = logEvents s ++ new
       /\ length (filter (fun e => logMessage e = hintPhase) new)
          = if bool_decide (model_id Scenario.gpt4 ∈ warnedProviders (service s))
            then 0 else 1.
Proof.
  cbv zeta.
  apply (hint_is_logged_once Scenario.offline (js "a.ts") (js "x") (js "typescript") []
           Scenario.gpt4 (chat OpenAI [js "https://api.openai.com/v1/chat/completions"])
           (Scenario.fresh (Scenario.configured Scenario.gpt4))
           (reviewCode Scenario.offline (js "a.ts") (js "x") (js "typescript") []
              forwardLog (Scenario.fresh (Scenario.configured Scenario.gpt4))).1).
  - discriminate.
  - reflexivity.
  - reflexivity.
  - by destruct (reviewCode _ _ _ _ _ _ _).
Defined.

(** ** Repository addresses *)

Module RxFacts.
Import Rx.

Lemma litK_spec w k s : litK w k s = true <-> exists r, s = w ++ r /\ k r = true.
Proof.
  revert s. induction w as [|a w IH]; intros s; simpl.
  - split; [by exists s|]. by intros (r & -> & H).
  - destruct s as [|c s].
    + split; [done|]. by intros (r & [=] & _).
    + rewrite andb_true_iff, N.eqb_eq, IH. split.
      * intros (-> & r & -> & H). by exists r.
      * intros (r & [= -> ->] & H). split; [done|]. by exists r.
Qed.

(** A non-empty text of units of the class [p]. *)
Definition run (p : N -> bool) (a : jsstring) : Prop := a <> [] /\ forallb p a = true.

Lemma plusK_spec p k s :
  plusK p k s = true <-> exists a r, run p a /\ s = a ++ r /\ k r = true.
Proof.
  induction s as [|c s IH]; simpl.
  - split; [done|]. intros (a & r & [Ha _] & Hs & _). by destruct a.
  - rewrite andb_true_iff, orb_true_iff, IH. split.
    + intros (Hc & [(a & r & [Ha Hp] & -> & Hk)|Hk]).
      * exists (c :: a), r. repeat split; [done|simpl; by rewrite Hc, Hp|done].
      * exists [c], s. repeat split; [done|simpl; by rewrite Hc|done].
    + intros (a & r & [Ha Hp] & Hs & Hk). destruct a as [|c' a]; [done|].
      injection Hs as -> ->. simpl in Hp. apply andb_prop in Hp as [Hc Hp].
      split; [exact Hc|]. destruct a as [|c'' a].
      * by right.
      * left. exists (c'' :: a), r. repeat split; [done|exact Hp|done].
Qed.

Lemma atEnd_spec s : atEnd s = true <-> s = [].
Proof. by destruct s. Qed.

Lemma run_app p a b : run p a -> forallb p b = true -> run p (a ++ b).
Proof.
  intros [Ha Hp] Hb. split; [by destruct a|]. by rewrite forallb_app, Hp, Hb.
Qed.

End RxFacts.

Section Addresses.
Import RxFacts.

(** The name of an owner or of a repository. *)
Definition named (a : jsstring) : Prop := run repoUnit a.

Lemma httpsPattern_spec host url_ :
  httpsPattern host url_ = true
  <-> exists owner repo, named owner /\ named repo
        /\ url_ = js "https://" ++ host ++ js "/" ++ owner ++ js "/" ++ repo.
Proof.
  unfold httpsPattern. rewrite litK_spec. split.
  - intros (r & -> & H). apply plusK_spec in H as (owner & r1 & Ho & -> & H).
    apply litK_spec in H as (r2 & -> & H).
    apply plusK_spec in H as (repo & r3 & Hr & -> & H).
    unfold Rx.optK in H. apply orb_prop in H as [H|H].
    + apply litK_spec in H as (r4 & -> & H). apply atEnd_spec in H as ->.
      exists owner, (repo ++ js ".git"). split; [exact Ho|].
      split; [by apply run_app|]. by rewrite app_nil_r, <- !app_assoc.
    + apply atEnd_spec in H as ->. exists owner, repo.
      split; [exact Ho|]. split; [exact Hr|]. by rewrite app_nil_r, <- !app_assoc.
  - intros (owner & repo & Ho & Hr & ->). eexists. split; [by rewrite <- !app_assoc|].
    apply plusK_spec. exists owner, (js "/" ++ repo). split; [exact Ho|]. split; [done|].
    apply litK_spec. exists repo. split; [done|].
    apply plusK_spec. exists repo, []. split; [exact Hr|]. split; [by rewrite app_nil_r|].
    unfold Rx.optK. apply orb_true_r.
Qed.

Lemma sshPattern_spec host url_ :
  sshPattern host url_ = true
  <-> exists owner repo, named owner /\ named repo
        /\ url_ = js "git@" ++ host ++ js ":" ++ owner ++ js "/" ++ repo ++ js ".git".
Proof.
  unfold sshPattern. rewrite litK_spec. split.
  - intros (r & -> & H). apply plusK_spec in H as (owner & r1 & Ho & -> & H).
    apply litK_spec in H as (r2 & -> & H).
    apply plusK_spec in H as (repo & r3 & Hr & -> & H).
    apply litK_spec in H as (r4 & -> & H). apply atEnd_spec in H as ->.
    exists owner, repo. split; [exact Ho|]. split; [exact Hr|].
    by rewrite app_nil_r, <- !app_assoc.
  - intros (owner & repo & Ho & Hr & ->). eexists. split; [by rewrite <- !app_assoc|].
    apply plusK_spec. exists owner, (js "/" ++ repo ++ js ".git").
    split; [exact Ho|]. split; [done|].
    apply litK_spec. exists (repo ++ js ".git"). split; [done|].
    apply plusK_spec. exists repo, (js ".git"). split; [exact Hr|]. split; [done|].
    apply litK_spec. by exists [].
Qed.

(** X22. [validateGitUrl] accepts exactly the addresses
    [https://host/owner/repo] and [git@host:owner/repo.git] where the host
    is one of [github.com], [gitlab.com] and [gitee.com] and the two names
    are non-empty texts of letters, digits, [_], [.] and [-]. *)
Theorem validateGitUrl_accepts_exactly (url_ : jsstring) :
  validateGitUrl url_ = true
  <-> exists host owner repo,
        host ∈ [js "github.com"; js "gitlab.com"; js "gitee.com"]
        /\ named owner /\ named repo
        /\ (url_ = js "https://" ++ host ++ js "/" ++ owner ++ js "/" ++ repo
            \/ url_ = js "git@" ++ host ++ js ":" ++ owner ++ js "/" ++ repo ++ js ".git").
Proof.
  unfold validateGitUrl, gitUrlPatterns. cbn [existsb].
  rewrite !orb_true_iff, !httpsPattern_spec, !sshPattern_spec. split.
  - intros [H|[H|[H|[H|[H|[H|H]]]]]]; [| | | | | |done];
      destruct H as (owner & repo & Ho & Hr & ->);
      eexists _, owner, repo; (split; [|split; [exact Ho|split; [exact Hr|]]]);
      [|left; reflexivity| |left; reflexivity| |right; reflexivity
       | |right; reflexivity| |left; reflexivity| |right; reflexivity]; set_solver.
  - intros (host & owner & repo & Hh & Ho & Hr & H).
    rewrite !elem_of_cons, elem_of_nil in Hh.
    destruct Hh as [-> | [-> | [-> | []]]]; destruct H as [-> | ->].
    + left. eauto.
    + right. right. left. eauto.
    + right. left. eauto.
    + right. right. right. left. eauto.
    + right. right. right. right. left. eauto.
    + right. right. right. right. right. left. eauto.
Qed.

End Addresses.

Section GitHubOnly.
Import RxFacts.

Lemma takeRun_stop p a c r :
  forallb p a = true -> p c = false ->
  takeRun p (a ++ c :: r) = a /\ dropWhile p (a ++ c :: r) = c :: r.
Proof.
  intros Ha Hc. induction a as [|d a IH]; simpl; [by rewrite Hc|].
  simpl in Ha. apply andb_prop in Ha as [Hd Ha]. rewrite Hd.
  destruct (IH Ha) as [-> ->]. done.
Qed.

Lemma takeRun_all p a : forallb p a = true -> takeRun p a = a.
Proof.
  induction a as [|d a IH]; [done|]. simpl. intros H.
  apply andb_prop in H as [-> H]. by rewrite IH.
Qed.

Lemma lit_app p r : Regex.lit p (p ++ r) = Some r.
Proof. unfold Regex.lit. by rewrite startsWith_app, drop_app_length. Qed.

Lemma gitHubMatch_eq s :
  gitHubMatch s
  = match gitHubAt s with
    | Some groups => Some groups
    | None => match s with [] => None | _ :: r => gitHubMatch r end
    end.
Proof. by destruct s. Qed.

Lemma gitHubAt_owner_repo owner repo :
  named owner -> named repo ->
  gitHubAt (js "github.com/" ++ owner ++ js "/" ++ repo) = Some (owner, repo).
Proof.
  intros [Ho Hop] [Hr Hrp]. unfold gitHubAt. rewrite lit_app.
  change (js "/" ++ repo) with (47%N :: repo).
  destruct (takeRun_stop repoUnit owner 47 repo Hop eq_refl) as [-> ->].
  rewrite (takeRun_all _ _ Hrp).
  destruct owner; [by destruct Ho|]. destruct repo; [by destruct Hr|done].
Qed.

Lemma gitHubAt_head c s : c <> 103%N -> gitHubAt (c :: s) = None.
Proof.
  intros Hc. unfold gitHubAt, Regex.lit.
  change (startsWith (js "github.com/") (c :: s))
    with ((103 =? c)%N && startsWith (js "ithub.com/") s).
  destruct (N.eqb_spec 103 c); [congruence|done].
Qed.

(** The number of [/] in a text. *)
Definition slashes (s : jsstring) : nat := length (filter (fun c => c = 47%N) s).

Lemma slashes_app a b : slashes (a ++ b) = slashes a + slashes b.
Proof. unfold slashes. by rewrite filter_app, length_app. Qed.

Lemma slashes_cons c s : slashes s <= slashes (c :: s).
Proof.
  unfold slashes. rewrite filter_cons. destruct (decide (c = 47%N)); simpl; lia.
Qed.

Lemma slashes_dropWhile p s : slashes (dropWhile p s) <= slashes s.
Proof.
  induction s as [|c s IH]; [done|]. simpl. destruct (p c); [|done].
  etrans; [exact IH|apply slashes_cons].
Qed.

Lemma slashes_run a : forallb repoUnit a = true -> slashes a = 0.
Proof.
  induction a as [|c a IH]; [done|]. simpl. intros H.
  apply andb_prop in H as [Hc H]. unfold slashes in *. rewrite filter_cons.
  destruct (decide (c = 47%N)) as [->|_]; [discriminate|]. by apply IH.
Qed.

Lemma gitHubAt_slashes s groups : gitHubAt s = Some groups -> 2 <= slashes s.
Proof.
  unfold gitHubAt, Regex.lit.
  destruct (startsWith _ s) eqn:E; [|done].
  apply startsWith_inv in E as [b ->]. rewrite drop_app_length, slashes_app.
  destruct (takeRun repoUnit b); [done|].
  destruct (dropWhile repoUnit b) as [|c r2] eqn:Ed; [done|].
  destruct (N.eqb_spec c 47) as [->|Hc].
  - intros _. pose proof (slashes_dropWhile repoUnit b) as H. rewrite Ed in H.
    change (slashes (js "github.com/")) with 1.
    assert (1 <= slashes (47%N :: r2)); [|lia].
    unfold slashes. rewrite filter_cons_True by done. simpl. lia.
  - destruct c as [|q]; [done|]. by repeat (destruct q as [q|q|]; try done).
Qed.

Lemma gitHubMatch_slashes s groups : gitHubMatch s = Some groups -> 2 <= slashes s.
Proof.
  induction s as [|c s IH]; rewrite gitHubMatch_eq.
  - done.
  - destruct (gitHubAt (c :: s)) eqn:E.
    + intros _. eapply gitHubAt_slashes, E.
    + intros H. etrans; [exact (IH H)|apply slashes_cons].
Qed.

Lemma gitHubMatch_few s : slashes s < 2 -> gitHubMatch s = None.
Proof.
  intros H. destruct (gitHubMatch s) eqn:E; [|done].
  apply gitHubMatch_slashes in E. lia.
Qed.

Lemma gitHubMatch_skip pre s :
  Forall (fun c => c <> 103%N) pre -> gitHubMatch (pre ++ s) = gitHubMatch s.
Proof.
  induction 1 as [|c pre Hc _ IH]; [done|].
  change ((c :: pre) ++ s) with (c :: pre ++ s).
  by rewrite gitHubMatch_eq, gitHubAt_head.
Qed.

Lemma removeFirst_here p r : removeFirst p (p ++ r) = r.
Proof.
  assert (removeFirst p (p ++ r) = drop (length p) (p ++ r)) as ->.
  { destruct (p ++ r) eqn:E; simpl; rewrite <- E, startsWith_app; reflexivity. }
  apply drop_app_length.
Qed.

Lemma removeFirst_first p c a b :
  c ∉ a -> removeFirst (c :: p) (a ++ c :: p ++ b) = a ++ b.
Proof.
  induction a as [|d a IH]; intros H.
  - exact (removeFirst_here (c :: p) b).
  - apply not_elem_of_cons in H as [Hd Ha]. simpl.
    destruct (N.eqb_spec c d); [congruence|]. simpl. by rewrite IH.
Qed.

Lemma gitHubAt_fourth d s :
  d <> 104%N -> gitHubAt (103%N :: 105%N :: 116%N :: d :: s) = None.
Proof.
  intros Hd. unfold gitHubAt, Regex.lit.
  change (startsWith (js "github.com/") (103%N :: 105%N :: 116%N :: d :: s))
    with ((104 =? d)%N && startsWith (js "ub.com/") s).
  destruct (N.eqb_spec 104 d); [congruence|done].
Qed.

Lemma scheme_skipped s : gitHubMatch (js "https://" ++ s) = gitHubMatch s.
Proof.
  apply gitHubMatch_skip.
  change (js "https://") with [104; 116; 116; 112; 115; 58; 47; 47]%N.
  repeat constructor; done.
Qed.

Lemma slashes_names owner repo :
  named owner -> named repo -> slashes (owner ++ js "/" ++ repo) = 1.
Proof.
  intros [_ Ho] [_ Hr]. rewrite !slashes_app, (slashes_run _ Ho), (slashes_run _ Hr).
  reflexivity.
Qed.

Lemma gitHubRepository_github owner repo :
  named owner -> named repo ->
  gitHubRepository (js "https://" ++ js "github.com" ++ js "/" ++ owner ++ js "/" ++ repo)
  = Some (owner, removeFirst (js ".git") repo).
Proof.
  intros Ho Hr. unfold gitHubRepository. rewrite scheme_skipped.
  change (js "github.com" ++ js "/" ++ owner ++ js "/" ++ repo)
    with (js "github.com/" ++ owner ++ js "/" ++ repo).
  by rewrite gitHubMatch_eq, gitHubAt_owner_repo.
Qed.

Lemma gitHubRepository_gitlab owner repo :
  named owner -> named repo ->
  gitHubRepository (js "https://" ++ js "gitlab.com" ++ js "/" ++ owner ++ js "/" ++ repo)
  = None.
Proof.
  intros Ho Hr. unfold gitHubRepository. rewrite scheme_skipped.
  change (js "gitlab.com" ++ js "/" ++ owner ++ js "/" ++ repo)
    with (103%N :: 105%N :: 116%N :: 108%N :: js "ab.com/" ++ owner ++ js "/" ++ repo).
  rewrite gitHubMatch_eq, gitHubAt_fourth by done.
  change (105%N :: 116%N :: 108%N :: js "ab.com/" ++ owner ++ js "/" ++ repo)
    with ([105; 116; 108; 97; 98; 46; 99; 111; 109; 47]%N ++ owner ++ js "/" ++ repo).
  rewrite gitHubMatch_skip by (repeat constructor; done).
  rewrite gitHubMatch_few; [done|]. rewrite slashes_names by done. lia.
Qed.

Lemma gitHubRepository_gitee owner repo :
  named owner -> named repo ->
  gitHubRepository (js "https://" ++ js "gitee.com" ++ js "/" ++ owner ++ js "/" ++ repo)
  = None.
Proof.
  intros Ho Hr. unfold gitHubRepository. rewrite scheme_skipped.
  change (js "gitee.com" ++ js "/" ++ owner ++ js "/" ++ repo)
    with (103%N :: 105%N :: 116%N :: 101%N :: js "e.com/" ++ owner ++ js "/" ++ repo).
  rewrite gitHubMatch_eq, gitHubAt_fourth by done.
  change (105%N :: 116%N :: 101%N :: js "e.com/" ++ owner ++ js "/" ++ repo)
    with ([105; 116; 101; 101; 46; 99; 111; 109; 47]%N ++ owner ++ js "/" ++ repo).
  rewrite gitHubMatch_skip by (repeat constructor; done).
  rewrite gitHubMatch_few; [done|]. rewrite slashes_names by done. lia.
Qed.

Lemma gitHubRepository_ssh host owner repo :
  slashes host = 0 -> named owner -> named repo ->
  gitHubRepository (js "git@" ++ host ++ js ":" ++ owner ++ js "/" ++ repo ++ js ".git")
  = None.
Proof.
  intros Hh [_ Ho] [_ Hr]. unfold gitHubRepository.
  rewrite gitHubMatch_few; [done|].
  rewrite !slashes_app, Hh, (slashes_run _ Ho), (slashes_run _ Hr).
  change (slashes (js "git@")) with 0. change (slashes (js ":")) with 0.
  change (slashes (js "/")) with 1. change (slashes (js ".git")) with 0. lia.
Qed.

(** X23. Of the addresses [validateGitUrl] accepts, the match of
    [getRepositoryInfo], [getRepositoryFiles] and [getFileContent] finds an
    owner and a repository exactly in those that begin with
    [https://github.com/]: for an accepted [git@...] address, also of
    github.com, and for an accepted gitlab.com or gitee.com address the
    source throws its error about GitHub only. *)
Theorem accepted_address_resolves_iff_github_https (url_ : jsstring) :
  validateGitUrl url_ = true ->
  (is_Some (gitHubRepository url_)
   <-> startsWith (js "https://github.com/") url_ = true).
Proof.
  unfold validateGitUrl, gitUrlPatterns. cbn [existsb].
  rewrite !orb_true_iff, !httpsPattern_spec, !sshPattern_spec.
  intros [H|[H|[H|[H|[H|[H|H]]]]]]; [| | | | | |done];
    destruct H as (owner & repo & Ho & Hr & ->).
  - rewrite gitHubRepository_github by done. split; [intros _|by eauto].
    exact (startsWith_app (js "https://github.com/") (owner ++ js "/" ++ repo)).
  - rewrite gitHubRepository_gitlab by done.
    split; [by intros [? ?]|intros H; vm_compute in H; discriminate].
  - rewrite gitHubRepository_ssh by done.
    split; [by intros [? ?]|intros H; vm_compute in H; discriminate].
  - rewrite gitHubRepository_ssh by done.
    split; [by intros [? ?]|intros H; vm_compute in H; discriminate].
  - rewrite gitHubRepository_gitee by done.
    split; [by intros [? ?]|intros H; vm_compute in H; discriminate].
  - rewrite gitHubRepository_ssh by done.
    split; [by intros [? ?]|intros H; vm_compute in H; discriminate].
Qed.

Lemma accepted_address_resolves_iff_github_https_witness :
  validateGitUrl (js "git@github.com:stonebirds/TraeAiCodeReview.git") = true
  /\ (is_Some (gitHubRepository (js "git@github.com:stonebirds/TraeAiCodeReview.git"))
      <-> startsWith (js "https://github.com/")
            (js "git@github.com:stonebirds/TraeAiCodeReview.git") = true).
Proof.
  split; [reflexivity|].
  apply (accepted_address_resolves_iff_github_https
           (js "git@github.com:stonebirds/TraeAiCodeReview.git")).
  reflexivity.
Defined.

(** X24. For an address [https://github.com/owner/name] whose name has its
    first [.] at the start of a [.git], the repository name that goes into
    the requests is the name without that [.git], wherever it stands: the
    ending of [repo.git] goes, and so does the one inside [x.github.io],
    which becomes [xhub.io]. *)
Theorem github_name_loses_its_first_git (owner a b : jsstring) :
  named owner -> named (a ++ js ".git" ++ b) -> 46%N ∉ a ->
  gitHubRepository
    (js "https://github.com/" ++ owner ++ js "/" ++ a ++ js ".git" ++ b)
  = Some (owner, a ++ b).
Proof.
  intros Ho Hr Ha.
  change (js "https://github.com/" ++ owner ++ js "/" ++ a ++ js ".git" ++ b)
    with (js "https://" ++ js "github.com" ++ js "/" ++ owner ++ js "/"
          ++ a ++ js ".git" ++ b).
  rewrite gitHubRepository_github by done.
  change (js ".git" ++ b) with (46%N :: js "git" ++ b).
  change (js ".git") with (46%N :: js "git").
  by rewrite removeFirst_first.
Qed.

Lemma github_name_loses_its_first_git_witness :
  named (js "x") /\ named (js "x" ++ js ".git" ++ js "hub.io") /\ 46%N ∉ js "x"
  /\ gitHubRepository (js "https://github.com/x/x.github.io")
     = Some (js "x", js "xhub.io").
Proof.
  assert (46%N ∉ js "x") as Hdot.
  { change (js "x") with [120%N]. intros H. apply list_elem_of_singleton in H.
    discriminate H. }
  assert (named (js "x")) as Ho by (split; [done|reflexivity]).
  assert (named (js "x" ++ js ".git" ++ js "hub.io")) as Hr
    by (split; [done|reflexivity]).
  split; [exact Ho|]. split; [exact Hr|]. split; [exact Hdot|].
  exact (github_name_loses_its_first_git (js "x") (js "x") (js "hub.io") Ho Hr Hdot).
Defined.

End GitHubOnly.
